(** * Translation client: strings, chunker, cache, semaphore, retry, orchestrator

    A shallow embedding of the translation client of the repository.  Three
    variants of the client live in the sources:

    - [src/api/freetranslation.ts]: the free endpoint, with a TTL cache, a
      semaphore, [splitText] and retries on 429 (module names [Free...]);
    - the keyed endpoint ([api/translations]): FIFO cache, semaphore,
      [splitTextIntoChunks], batch [translateMultiple] (module [Keyed]);
    - a later revision of the free endpoint without cache and semaphore, whose
      [translate] takes an [options] argument (module [FreeNoCache]).

    JavaScript strings are sequences of UTF-16 code units; they are modelled
    as lists of [N].  Numbers that the code only uses as integers are [Z]. *)

From Stdlib Require Import List ZArith NArith Bool Lia String Ascii Arith Sorted.
From Equations Require Import Equations.
Import ListNotations.

Set Implicit Arguments.
Set Warnings "-register-all".

(* ===================================================================== *)
(** ** JavaScript strings *)
(* ===================================================================== *)

Module JsString.

Definition char := N.
Definition jsstring := list char.

(** A string literal of the source, as code units. *)
Fixpoint str (s : string) : jsstring :=
  match s with
  | EmptyString => []
  | String c r => N_of_ascii c :: str r
  end.

Definition SP : char := 32%N.
Definition NL : char := 10%N.
Definition DASH : char := 45%N.

(** The class [\s] of a JavaScript regular expression, which is also the set
    of characters [String.prototype.trim] strips: WhiteSpace and
    LineTerminator code points. *)
Definition isWhiteSpace (c : char) : bool :=
  ((c =? 9) || (c =? 10) || (c =? 11) || (c =? 12) || (c =? 13) || (c =? 32)
   || (c =? 160) || (c =? 5760) || ((8192 <=? c) && (c <=? 8202))
   || (c =? 8232) || (c =? 8233) || (c =? 8239) || (c =? 8287)
   || (c =? 12288) || (c =? 65279))%N.

(** [.], [!] and [?]: the class [[.!?]]. *)
Definition isSentenceEnd (c : char) : bool :=
  ((c =? 46) || (c =? 33) || (c =? 63))%N.

Fixpoint dropWhile (p : char -> bool) (s : jsstring) : jsstring :=
  match s with
  | [] => []
  | c :: r => if p c then dropWhile p r else s
  end.

Definition trimStart (s : jsstring) : jsstring := dropWhile isWhiteSpace s.
Definition trimEnd (s : jsstring) : jsstring :=
  rev (dropWhile isWhiteSpace (rev s)).

(** [s.trim()] *)
Definition trim (s : jsstring) : jsstring := trimEnd (trimStart s).

(** [s.replace(/\s+/g, " ")]: every maximal run of white space becomes one
    space.  [inRun] tells that the previous character belonged to a run that
    has already been replaced. *)
Fixpoint collapseSpaces (inRun : bool) (s : jsstring) : jsstring :=
  match s with
  | [] => []
  | c :: r =>
      if isWhiteSpace c
      then if inRun then collapseSpaces true r else SP :: collapseSpaces true r
      else c :: collapseSpaces false r
  end.

(** [const normalizeText = (text) => text.trim().replace(/\s+/g, " ")] *)
Definition normalizeText (text : jsstring) : jsstring :=
  collapseSpaces false (trim text).

(** [s.split(sep)] for a one-character separator. *)
Fixpoint split (sep : char) (s : jsstring) : list jsstring :=
  match s with
  | [] => [[]]
  | c :: r =>
      if (c =? sep)%N then [] :: split sep r
      else match split sep r with
           | h :: t => (c :: h) :: t
           | [] => [[c]]
           end
  end.

(** [parts.join(sep)] *)
Fixpoint join (sep : jsstring) (parts : list jsstring) : jsstring :=
  match parts with
  | [] => []
  | [p] => p
  | p :: rest => p ++ sep ++ join sep rest
  end.

(** A string is truthy when it is not empty. *)
Definition truthy (s : jsstring) : bool :=
  match s with [] => false | _ :: _ => true end.

Definition len (s : jsstring) : Z := Z.of_nat (List.length s).

Fixpoint eqb (a b : jsstring) : bool :=
  match a, b with
  | [], [] => true
  | x :: a', y :: b' => (x =? y)%N && eqb a' b'
  | _, _ => false
  end.

(** [`${sourceLang}-${targetLang}-${text}`] *)
Definition generateCacheKey (sourceLang targetLang text : jsstring) : jsstring :=
  sourceLang ++ [DASH] ++ targetLang ++ [DASH] ++ text.

(** A string without any white space. *)
Definition unbroken (w : jsstring) : Prop :=
  forall c, In c w -> isWhiteSpace c = false.

(** The characters of a string that are not white space, in order. *)
Definition nonWhite (s : jsstring) : jsstring :=
  filter (fun c => negb (isWhiteSpace c)) s.

(** Whether the white space of a string is single spaces between other
    characters; [afterSpace] tells that a space may not come next (at the
    start, and right after a space). *)
Fixpoint spacedFrom (afterSpace : bool) (s : jsstring) : bool :=
  match s with
  | [] => negb afterSpace
  | c :: r =>
      if isWhiteSpace c
      then (c =? SP)%N && negb afterSpace && spacedFrom true r
      else spacedFrom false r
  end.

(** No white space at either end, and inside only single spaces. *)
Definition wellSpaced (s : jsstring) : bool :=
  match s with
  | [] => true
  | _ :: _ => spacedFrom true s
  end.

(** A string without the character [-]. *)
Definition dashFree (s : jsstring) : Prop := ~ In DASH s.

(** Empty, or with a last character that is not white space. *)
Definition endsNonWhite (s : jsstring) : Prop :=
  dropWhile isWhiteSpace (rev s) = rev s.

End JsString.

(* ===================================================================== *)
(** ** The chunkers *)
(* ===================================================================== *)

Module Chunker.
Import JsString.

(** [text.replace(/([.!?])\s+/g, "$1\n")]: a sentence terminator followed by
    white space keeps the terminator and turns the whole run of white space
    into one line feed.  [skipping] tells that the run after a terminator is
    being consumed. *)
Fixpoint markSentences (skipping : bool) (s : jsstring) : jsstring :=
  match s with
  | [] => []
  | c :: r =>
      if skipping && isWhiteSpace c then markSentences true r
      else if isSentenceEnd c
              && match r with d :: _ => isWhiteSpace d | [] => false end
           then c :: NL :: markSentences true r
           else c :: markSentences false r
  end.

(** The loop state of [splitText]: the chunks pushed so far and
    [currentChunk]. *)
Definition SplitState : Type := (list jsstring * jsstring)%type.

(** [if (currentChunk) chunks.push(currentChunk.trim())] *)
Definition flush (chunks : list jsstring) (currentChunk : jsstring)
  : list jsstring :=
  if truthy currentChunk then chunks ++ [trim currentChunk] else chunks.

(** Body of [for (const word of words)]. *)
Definition wordStep (maxLength : Z) (st : SplitState) (word : jsstring)
  : SplitState :=
  let '(chunks, currentChunk) := st in
  if (len currentChunk + len word + 1 <=? maxLength)%Z
  then (chunks, currentChunk ++ word ++ [SP])
  else (flush chunks currentChunk, word ++ [SP]).

(** Body of [for (const sentence of sentences)]. *)
Definition sentenceStep (maxLength : Z) (st : SplitState) (sentence : jsstring)
  : SplitState :=
  let '(chunks, currentChunk) := st in
  if (len currentChunk + len sentence <=? maxLength)%Z
  then (chunks, currentChunk ++ sentence ++ [SP])
  else
    let chunks' := flush chunks currentChunk in
    if (len sentence >? maxLength)%Z
    then fold_left (wordStep maxLength) (split SP sentence) (chunks', [])
    else (chunks', sentence ++ [SP]).

(** The non-white characters held by a loop state. *)
Definition content (st : SplitState) : jsstring :=
  nonWhite (List.concat (fst st)) ++ nonWhite (snd st).

(** A loop state within the limit: the pushed chunks are, and
    [currentChunk] is empty or a body within the limit followed by the space
    that the loop appends. *)
Definition fits (maxLength : Z) (st : SplitState) : Prop :=
  Forall (fun chunk => (len chunk <= maxLength)%Z) (fst st)
  /\ (snd st = []
      \/ exists body, snd st = body ++ [SP] /\ (len body <= maxLength)%Z).

(** The chunks pushed so far are trimmed. *)
Definition tidy (st : SplitState) : Prop :=
  Forall (fun chunk => trim chunk = chunk) (fst st).

(** [splitText] of the free client. *)
Definition splitText (text : jsstring) (maxLength : Z) : list jsstring :=
  if (len text <=? maxLength)%Z then [text]
  else
    let sentences := split NL (markSentences false text) in
    let '(chunks, currentChunk) :=
      fold_left (sentenceStep maxLength) sentences ([], []) in
    flush chunks currentChunk.

(** [text.lastIndexOf(c, fromIndex)]: the greatest index [i <= fromIndex]
    with [text[i] = c], or [-1]; a negative [fromIndex] counts as [0].  [i] is
    the index of the head of [s]. *)
Fixpoint lastIndexOfFrom (c : char) (s : jsstring) (i fromIndex acc : Z) : Z :=
  match s with
  | [] => acc
  | d :: r =>
      if (fromIndex <? i)%Z then acc
      else lastIndexOfFrom c r (i + 1) fromIndex (if (d =? c)%N then i else acc)
  end.

Definition lastIndexOf (c : char) (text : jsstring) (fromIndex : Z) : Z :=
  lastIndexOfFrom c text 0 (Z.max fromIndex 0) (-1).

(** Indices are clamped to [0, length]. *)
Definition clamp (text : jsstring) (i : Z) : nat :=
  Z.to_nat (Z.min (Z.max i 0) (len text)).

(** [text.substring(a, b)]: clamps both indices and swaps them when
    [a > b]. *)
Definition substring (text : jsstring) (a b : Z) : jsstring :=
  let lo := Nat.min (clamp text a) (clamp text b) in
  let hi := Nat.max (clamp text a) (clamp text b) in
  firstn (hi - lo) (skipn lo text).

(** [text.substring(a)] *)
Definition substringFrom (text : jsstring) (a : Z) : jsstring :=
  skipn (clamp text a) text.

(** The [while (currentIndex < text.length)] loop of [splitTextIntoChunks];
    [fuel] bounds the number of iterations, [None] is a loop that has not
    finished within it. *)
Fixpoint splitLoop (fuel : nat) (text : jsstring) (maxChunkLength : Z)
  (chunks : list jsstring) (currentIndex : Z) : option (list jsstring) :=
  match fuel with
  | O => None
  | S fuel' =>
      if (currentIndex <? len text)%Z then
        let nextIndex := (currentIndex + maxChunkLength)%Z in
        if (nextIndex >=? len text)%Z
        then Some (chunks ++ [substringFrom text currentIndex])
        else
          let spaceIndex := lastIndexOf SP text nextIndex in
          let spaceIndex :=
            if (spaceIndex <=? currentIndex)%Z then nextIndex else spaceIndex in
          splitLoop fuel' text maxChunkLength
            (chunks ++ [substring text currentIndex spaceIndex]) spaceIndex
      else Some chunks
  end.

(** [splitTextIntoChunks] of the keyed client.  Every iteration that does not
    leave the loop advances [currentIndex] when [maxChunkLength] is positive,
    so [length text + 1] iterations are enough then. *)
Definition splitTextIntoChunks (text : jsstring) (maxChunkLength : Z)
  : option (list jsstring) :=
  splitLoop (S (List.length text)) text maxChunkLength [] 0.

(** The chunks so far are the text up to [currentIndex], and none is empty
    or longer than the limit. *)
Definition cutsUpTo (text : jsstring) (maxChunkLength : Z)
  (chunks : list jsstring) (currentIndex : Z) : Prop :=
  List.concat chunks = firstn (Z.to_nat currentIndex) text
  /\ Forall (fun chunk => (0 < len chunk <= maxChunkLength)%Z) chunks.

End Chunker.

(* ===================================================================== *)
(** ** [Map<string, V>]: a map that remembers insertion order *)
(* ===================================================================== *)

Module JsMap.
Import JsString.

Section WithValues.
Variable V : Type.

Definition t := list (jsstring * V).

Fixpoint get (key : jsstring) (m : t) : option V :=
  match m with
  | [] => None
  | (k, v) :: r => if eqb k key then Some v else get key r
  end.

(** [m.set(key, v)]: an existing key keeps its place, a new one goes last. *)
Fixpoint set (key : jsstring) (v : V) (m : t) : t :=
  match m with
  | [] => [(key, v)]
  | (k, x) :: r => if eqb k key then (k, v) :: r else (k, x) :: set key v r
  end.

Fixpoint delete (key : jsstring) (m : t) : t :=
  match m with
  | [] => []
  | (k, x) :: r => if eqb k key then r else (k, x) :: delete key r
  end.

Definition size (m : t) : Z := Z.of_nat (List.length m).

Definition keys (m : t) : list jsstring := map fst m.

(** [m.keys().next().value] *)
Definition firstKey (m : t) : option jsstring :=
  match m with
  | [] => None
  | (k, _) :: _ => Some k
  end.
End WithValues.

End JsMap.

(* ===================================================================== *)
(** ** The cache with expiry (free client) *)
(* ===================================================================== *)

Module TtlCache.
Import JsString.

Record CacheEntry := { value : jsstring; timestamp : Z }.

(** [class TranslationCache]: the results of [Date.now()] are arguments of
    the methods that read the clock. *)
Record TranslationCache := {
  cache : JsMap.t CacheEntry;
  maxSize : Z;
  ttl : Z
}.

(** [new TranslationCache(maxSize, ttl)] *)
Definition new (maxSize ttl : Z) : TranslationCache :=
  {| cache := []; maxSize := maxSize; ttl := ttl |}.

Definition withCache (c : TranslationCache) (m : JsMap.t CacheEntry)
  : TranslationCache :=
  {| cache := m; maxSize := maxSize c; ttl := ttl c |}.

Definition expired (c : TranslationCache) (now : Z) (entry : CacheEntry) : bool :=
  (now - timestamp entry >? ttl c)%Z.

(** [get(key)]; [now] is the value of [Date.now()]. *)
Definition get (now : Z) (key : jsstring) (c : TranslationCache)
  : option jsstring * TranslationCache :=
  match JsMap.get key (cache c) with
  | None => (None, c)
  | Some entry =>
      if expired c now entry
      then (None, withCache c (JsMap.delete key (cache c)))
      else (Some (value entry), c)
  end.

(** The callback of [forEach] in [cleanExpired], on the map [m]. *)
Definition dropExpired (c : TranslationCache) (now : Z)
  (m : JsMap.t CacheEntry) (kv : jsstring * CacheEntry) : JsMap.t CacheEntry :=
  if expired c now (snd kv) then JsMap.delete (fst kv) m else m.

(** [cleanExpired()]: walks a snapshot of the entries and deletes the expired
    ones from the map. *)
Definition cleanExpired (now : Z) (c : TranslationCache) : TranslationCache :=
  withCache c (fold_left (dropExpired c now) (cache c) (cache c)).

(** The callback of [forEach] in [findOldestEntry], on the pair of
    [oldestKey] and [oldestTime]; [oldestTime] starts at [Infinity], here
    [None]. *)
Definition older (st : option jsstring * option Z)
  (kv : jsstring * CacheEntry) : option jsstring * option Z :=
  let '(oldestKey, oldestTime) := st in
  let younger :=
    match oldestTime with
    | None => true
    | Some t => (timestamp (snd kv) <? t)%Z
    end in
  if younger then (Some (fst kv), Some (timestamp (snd kv)))
  else (oldestKey, oldestTime).

(** [findOldestEntry()] *)
Definition findOldestEntry (c : TranslationCache) : option jsstring :=
  fst (fold_left older (cache c) (None, None)).

(** [set(key, value)]; [nowClean] is the clock read by [cleanExpired] and
    [nowStamp] the one stored as the entry's timestamp.  [if (oldestKey)]
    is a truthiness test: the empty string does not pass it. *)
Definition set (nowClean nowStamp : Z) (key value : jsstring)
  (c : TranslationCache) : TranslationCache :=
  let c1 := cleanExpired nowClean c in
  let c2 :=
    if (JsMap.size (cache c1) >=? maxSize c1)%Z then
      match findOldestEntry c1 with
      | Some oldestKey =>
          if truthy oldestKey
          then withCache c1 (JsMap.delete oldestKey (cache c1))
          else c1
      | None => c1
      end
    else c1 in
  withCache c2
    (JsMap.set key {| value := value; timestamp := nowStamp |} (cache c2)).

(** A run of [set] calls; each carries its key, its value and its two clock
    readings. *)
Definition setAll (ops : list (jsstring * jsstring * Z * Z))
  (c : TranslationCache) : TranslationCache :=
  fold_left
    (fun c (op : jsstring * jsstring * Z * Z) =>
       let '(key, value, nowClean, nowStamp) := op in
       set nowClean nowStamp key value c)
    ops c.

(** The cache is within its capacity and holds no empty key. *)
Definition sound (c : TranslationCache) : Prop :=
  (JsMap.size (cache c) <= maxSize c)%Z
  /\ Forall (fun k => truthy k = true) (JsMap.keys (cache c)).

(** The entry that a [set] operation stores. *)
Definition entryOf (op : jsstring * jsstring * Z * Z) : jsstring * CacheEntry :=
  let '(key, value, _, nowStamp) := op in
  (key, {| value := value; timestamp := nowStamp |}).

Definition keyOf (op : jsstring * jsstring * Z * Z) : jsstring :=
  fst (entryOf op).
Definition stampOf (op : jsstring * jsstring * Z * Z) : Z :=
  timestamp (snd (entryOf op)).
Definition cleanTimeOf (op : jsstring * jsstring * Z * Z) : Z :=
  let '(_, _, nowClean, _) := op in nowClean.

(** No entry stored by one of the operations is expired when a later (or
    the same) operation of the run sweeps the cache, and the stored
    timestamps do not decrease along the run. *)
Definition withinTtl (ttl : Z) (ops : list (jsstring * jsstring * Z * Z)) : Prop :=
  (forall op op', In op ops -> In op' ops ->
                  (cleanTimeOf op' - stampOf op <= ttl)%Z)
  /\ StronglySorted Z.le (map stampOf ops).

End TtlCache.

(* ===================================================================== *)
(** ** The cache without expiry (keyed client) *)
(* ===================================================================== *)

Module FifoCache.
Import JsString.

Record TranslationCache := {
  cache : JsMap.t jsstring;
  maxSize : Z
}.

Definition new (maxSize : Z) : TranslationCache :=
  {| cache := []; maxSize := maxSize |}.

Definition withCache (c : TranslationCache) (m : JsMap.t jsstring)
  : TranslationCache :=
  {| cache := m; maxSize := maxSize c |}.

Definition get (key : jsstring) (c : TranslationCache) : option jsstring :=
  JsMap.get key (cache c).

(** [set(key, value)]: [delete(undefined)] on an empty map does nothing. *)
Definition set (key value : jsstring) (c : TranslationCache)
  : TranslationCache :=
  let m :=
    if (JsMap.size (cache c) >=? maxSize c)%Z then
      match JsMap.firstKey (cache c) with
      | Some firstKey => JsMap.delete firstKey (cache c)
      | None => cache c
      end
    else cache c in
  withCache c (JsMap.set key value m).

Definition setAll (ops : list (jsstring * jsstring)) (c : TranslationCache)
  : TranslationCache :=
  fold_left (fun c (op : jsstring * jsstring) => set (fst op) (snd op) c) ops c.

End FifoCache.

(* ===================================================================== *)
(** ** The semaphore *)
(* ===================================================================== *)

Module Sem.

(** [tasks] holds the [resolve] callbacks of the suspended [acquire] calls;
    a callback is identified by the caller it resumes. *)
Record Semaphore := {
  tasks : list nat;
  count : Z
}.

(** [new Semaphore(count)] *)
Definition new (count : Z) : Semaphore := {| tasks := []; count := count |}.

(** [acquire()], run by caller [who]: the new state, and whether the returned
    promise is resolved at once. *)
Definition acquire (who : nat) (s : Semaphore) : Semaphore * bool :=
  if (count s >? 0)%Z
  then ({| tasks := tasks s; count := count s - 1 |}, true)
  else ({| tasks := tasks s ++ [who]; count := count s |}, false).

(** [release()]: the new state and the caller whose [resolve] was called.
    The body runs to completion: no other task sees the state between
    [this.count++] and [this.count--]. *)
Definition release (s : Semaphore) : Semaphore * option nat :=
  let s1 := {| tasks := tasks s; count := count s + 1 |} in
  match tasks s1 with
  | [] => (s1, None)
  | next :: rest => ({| tasks := rest; count := count s1 - 1 |}, Some next)
  end.

(** The semaphore together with its users: [inside] lists the callers whose
    [acquire()] promise is resolved and that have not called [release()]
    yet. *)
Record System := {
  sem : Semaphore;
  inside : list nat
}.

Definition init (n : Z) : System := {| sem := new n; inside := [] |}.

Inductive Op :=
| Acquire (who : nat)
| Release (who : nat).

Fixpoint removeOne (who : nat) (l : list nat) : option (list nat) :=
  match l with
  | [] => None
  | x :: r =>
      if Nat.eqb x who then Some r
      else match removeOne who r with
           | Some r' => Some (x :: r')
           | None => None
           end
  end.

(** One operation of a user.  A [Release] is only taken by a caller that is
    inside (the matching release of a completed acquire). *)
Definition step (op : Op) (st : System) : option System :=
  match op with
  | Acquire who =>
      let '(s', resolved) := acquire who (sem st) in
      Some {| sem := s';
              inside := if resolved then inside st ++ [who] else inside st |}
  | Release who =>
      match removeOne who (inside st) with
      | None => None
      | Some rest =>
          let '(s', woken) := release (sem st) in
          Some {| sem := s';
                  inside := match woken with
                            | Some w => rest ++ [w]
                            | None => rest
                            end |}
      end
  end.

Fixpoint run (ops : list Op) (st : System) : option System :=
  match ops with
  | [] => Some st
  | op :: rest =>
      match step op st with
      | Some st' => run rest st'
      | None => None
      end
  end.

(** The bookkeeping of a semaphore created with [n] permits: every permit is
    either free or with a caller that is inside, and callers only wait when
    no permit is free. *)
Definition balanced (n : Z) (st : System) : Prop :=
  (0 <= count (sem st)
   /\ count (sem st) + Z.of_nat (List.length (inside st)) = n
   /\ (tasks (sem st) <> [] -> count (sem st) = 0))%Z.

(** The callers whose [acquire()] promise one operation resolves: the
    caller itself when [acquire] finds a permit, the caller at the front of
    the queue when [release] finds one waiting. *)
Definition admittedBy (op : Op) (st : System) : list nat :=
  match op with
  | Acquire who => if snd (acquire who (sem st)) then [who] else []
  | Release who =>
      match removeOne who (inside st), snd (release (sem st)) with
      | Some _, Some woken => [woken]
      | _, _ => []
      end
  end.

(** The callers admitted along a run, in the order of their admission. *)
Fixpoint admissions (ops : list Op) (st : System) : list nat :=
  match ops with
  | [] => []
  | op :: rest =>
      admittedBy op st
      ++ match step op st with
         | Some st' => admissions rest st'
         | None => []
         end
  end.

(** The callers of [acquire()] along a run, in the order of their calls. *)
Definition callers (ops : list Op) : list nat :=
  flat_map (fun op => match op with
                      | Acquire who => [who]
                      | Release _ => []
                      end) ops.

End Sem.

(* ===================================================================== *)
(** ** Failures of a request and the call executor *)
(* ===================================================================== *)

Module Executor.
Import JsString.

(** What the [catch] block looks at in a thrown value: whether
    [axios.isAxiosError] accepts it, its [code], the status of its
    [response] (absent when no response was received) and its [message]. *)
Record JsError := {
  isAxiosError : bool;
  code : option string;
  responseStatus : option Z;
  message : jsstring
}.

(** [error.response?.status || 500]: an absent status and the falsy status
    [0] both give [500]. *)
Definition statusOr500 (e : JsError) : Z :=
  match responseStatus e with
  | Some s => if (s =? 0)%Z then 500%Z else s
  | None => 500%Z
  end.

Definition codeIs (e : JsError) (c : string) : bool :=
  match code e with
  | Some c' => String.eqb c' c
  | None => false
  end.

(** [isRetryable] of the free client. *)
Definition isRetryableFree (e : JsError) : bool :=
  isAxiosError e
  && (codeIs e "ECONNABORTED"
      || (statusOr500 e =? 429)%Z
      || (statusOr500 e >=? 500)%Z).

(** [isRetryable] of the keyed client. *)
Definition isRetryableKeyed (e : JsError) : bool :=
  isAxiosError e
  && (codeIs e "ECONNABORTED" || (statusOr500 e >=? 500)%Z).

(** The retryable failures in the words of the specification: a timeout, an
    HTTP status 429, or an HTTP status of 500 or more. *)
Definition specRetryable (e : JsError) : bool :=
  codeIs e "ECONNABORTED"
  || match responseStatus e with
     | Some s => (s =? 429)%Z || (s >=? 500)%Z
     | None => false
     end.

(** The failures that the free client retries: axios errors that are a
    timeout, or carry no response status (or the status 0), or the status
    429, or a status of 500 or more. *)
Definition retriedByFree (e : JsError) : Prop :=
  isAxiosError e = true
  /\ (code e = Some "ECONNABORTED"%string
      \/ responseStatus e = None
      \/ responseStatus e = Some 0%Z
      \/ responseStatus e = Some 429%Z
      \/ exists s, responseStatus e = Some s /\ (500 <= s)%Z).

(** The failures that the keyed client retries: as above, without 429. *)
Definition retriedByKeyed (e : JsError) : Prop :=
  isAxiosError e = true
  /\ (code e = Some "ECONNABORTED"%string
      \/ responseStatus e = None
      \/ responseStatus e = Some 0%Z
      \/ exists s, responseStatus e = Some s /\ (500 <= s)%Z).

Section CallTranslationAPI.
(** The three clients share the shape of [callTranslationAPI]; they differ
    in the constants, in [isRetryable], in the delay and in whether the body
    is wrapped in [semaphore.acquire()] / [finally { semaphore.release() }]. *)
Variables Params Response : Type.
Variable RETRIES : nat.
Variable isRetryable : JsError -> bool.
Variable delay : nat -> Z.
Variable limited : bool.

Inductive Outcome :=
| Success (response : Response)
| Failure (error : JsError).

(** What one execution does, in the order in which it does it. *)
Inductive Event :=
| EvAcquire (attempt : nat)                   (* semaphore.acquire() is called *)
| EvRequest (attempt : nat) (params : Params) (* the axios request is sent *)
| EvDelay (attempt : nat) (ms : Z)            (* setTimeout before the retry *)
| EvRelease (attempt : nat).                  (* finally: semaphore.release() *)

Definition whenLimited (ev : Event) : list Event :=
  if limited then [ev] else [].

(** The network: the outcome of the request of each attempt. *)
Variable net : Params -> nat -> Outcome.

(** [callTranslationAPI(params, attempt)] from the point where its
    [semaphore.acquire()] has been called.

    The retry is [return callTranslationAPI(params, attempt + 1)] inside the
    [catch] block, without [await].  In an async function a [return]
    statement does not wait for its operand (only [return await] does, and
    [return] in an async generator): the call is evaluated, which runs the
    callee up to its first suspension point, its own
    [await semaphore.acquire()], and yields the callee's promise; the
    [finally] block of the caller runs then, before that promise settles;
    the caller's promise is then resolved with the callee's.  Hence
    [EvAcquire (attempt + 1)] is followed at once by [EvRelease attempt]. *)
Equations afterAcquire (params : Params) (attempt : nat)
  : list Event * Outcome by wf (RETRIES - attempt) lt :=
  afterAcquire params attempt with net params attempt => {
    | Success response :=
        (EvRequest attempt params :: whenLimited (EvRelease attempt),
         Success response);
    | Failure error with le_lt_dec RETRIES attempt => {
        | left _ :=
            (EvRequest attempt params :: whenLimited (EvRelease attempt),
             Failure error);
        | right _ with isRetryable error => {
            | true :=
                let '(events, outcome) := afterAcquire params (S attempt) in
                (EvRequest attempt params
                   :: EvDelay attempt (delay attempt)
                   :: whenLimited (EvAcquire (S attempt))
                   ++ whenLimited (EvRelease attempt)
                   ++ events,
                 outcome);
            | false :=
                (EvRequest attempt params :: whenLimited (EvRelease attempt),
                 Failure error) } } }.
Next Obligation. lia. Qed.

(** [callTranslationAPI(params, attempt)] *)
Definition callTranslationAPI (params : Params) (attempt : nat)
  : list Event * Outcome :=
  let '(events, outcome) := afterAcquire params attempt in
  (whenLimited (EvAcquire attempt) ++ events, outcome).

(** The last attempt of a chain: the attempts before it fail with a
    failure that is retried, and it is itself not retried. *)
Definition settlesAt (params : Params) (k : nat) : Prop :=
  k <= RETRIES
  /\ (forall a, a < k ->
        exists e, net params a = Failure e /\ isRetryable e = true)
  /\ (forall e, net params k = Failure e -> k < RETRIES ->
                isRetryable e = false).

(** The attempts whose request was sent, in order. *)
Definition attemptsOf (events : list Event) : list nat :=
  flat_map (fun ev => match ev with EvRequest a _ => [a] | _ => [] end) events.

(** The waits before the retries, in order. *)
Definition delaysOf (events : list Event) : list Z :=
  flat_map (fun ev => match ev with EvDelay _ ms => [ms] | _ => [] end) events.

(** How an event changes the number of permits that the execution holds
    or has asked for. *)
Definition permitDelta (ev : Event) : Z :=
  match ev with
  | EvAcquire _ => 1%Z
  | EvRelease _ => (-1)%Z
  | _ => 0%Z
  end.

(** Every event with the number of permits held or asked for when it
    happens, [held] being that number before the first one. *)
Fixpoint holding (held : Z) (events : list Event) : list (Event * Z) :=
  match events with
  | [] => []
  | ev :: r => (ev, held) :: holding (held + permitDelta ev)%Z r
  end.

Definition heldAfter (held : Z) (events : list Event) : Z :=
  fold_left (fun h ev => (h + permitDelta ev)%Z) events held.

(** One permit during a request and during a backoff delay; an [acquire()]
    is called with at most one permit in hand and a [release()] with at most
    two. *)
Definition permitsInHand (x : Event * Z) : Prop :=
  match fst x with
  | EvRequest _ _ | EvDelay _ _ => snd x = 1
  | EvAcquire _ => 0 <= snd x <= 1
  | EvRelease _ => 1 <= snd x <= 2
  end%Z.

(** After a delay comes the next attempt's [acquire()] and, at once, the
    [release()] of the attempt that failed. *)
Definition handsOver (events : list Event) : Prop :=
  forall pre attempt ms post,
    events = pre ++ EvDelay attempt ms :: post ->
    exists post',
      post = EvAcquire (S attempt) :: EvRelease attempt :: post'.
End CallTranslationAPI.

Arguments Success {Response} response.
Arguments Failure {Response} error.
Arguments EvAcquire {Params} attempt.
Arguments EvRequest {Params} attempt params.
Arguments EvDelay {Params} attempt ms.
Arguments EvRelease {Params} attempt.

End Executor.

(* ===================================================================== *)
(** ** State passing for the module-level singletons *)
(* ===================================================================== *)

Module StateM.

Definition M (S A : Type) : Type := S -> A * S.

Definition ret {S A} (a : A) : M S A := fun s => (a, s).

Definition bind {S A B} (m : M S A) (k : A -> M S B) : M S B :=
  fun s => let '(a, s') := m s in k a s'.

Fixpoint mapM {S A B} (f : A -> M S B) (l : list A) : M S (list B) :=
  match l with
  | [] => ret []
  | a :: r =>
      bind (f a) (fun b => bind (mapM f r) (fun bs => ret (b :: bs)))
  end.

End StateM.

Declare Scope js_scope.
Delimit Scope js_scope with js.
Notation "x <- m ;; k" := (StateM.bind m (fun x => k))
  (at level 61, m at next level, right associativity) : js_scope.
Notation "m ;;; k" := (StateM.bind m (fun _ => k))
  (at level 61, right associativity) : js_scope.

(** A settled promise (or a function that returned or threw): the value, or
    the message of the thrown [Error]. *)
Inductive Result (A : Type) :=
| Ok (a : A)
| Thrown (message : JsString.jsstring).
Arguments Ok {A} a.
Arguments Thrown {A} message.

(** [Promise.all]: all the values, or the first rejection. *)
Fixpoint allOk {A} (rs : list (Result A)) : Result (list A) :=
  match rs with
  | [] => Ok []
  | Thrown m :: _ => Thrown m
  | Ok a :: r =>
      match allOk r with
      | Ok l => Ok (a :: l)
      | Thrown m => Thrown m
      end
  end.

(** Values of the [any]-typed response body. *)
Inductive JsValue :=
| JUndefined
| JNull
| JBool (b : bool)
| JNumber (n : Z)
| JString (s : JsString.jsstring)
| JArray (items : list JsValue)
| JObject.

(* ===================================================================== *)
(** ** The free client ([src/api/freetranslation.ts]) *)
(* ===================================================================== *)

Module Free.
Import JsString Chunker Executor StateM.
Local Open Scope js_scope.

Definition TIMEOUT : Z := 8000.
Definition MAX_CACHE_SIZE : Z := 2000.
Definition RETRIES : nat := 5.
Definition RETRY_DELAY : Z := 500.
Definition MAX_CONCURRENT_REQUESTS : Z := 3.
Definition CACHE_TTL : Z := 24 * 60 * 60 * 1000.
Definition MAX_TEXT_LENGTH : Z := 5000.

Record Params := { source : jsstring; target : jsstring; q : jsstring }.

(** The axios response, of which only [data] is read. *)
Record Response := { data : JsValue }.

(** [RETRY_DELAY * Math.pow(2, attempt)] *)
Definition backoffTime (attempt : nat) : Z := RETRY_DELAY * 2 ^ Z.of_nat attempt.

(** [backoffTime + jitter], the delay given to [setTimeout]; [jitter attempt]
    is the value of [Math.random() * 300] that the attempt draws, in the
    whole milliseconds that the timer counts. *)
Definition retryDelay (jitter : nat -> Z) (attempt : nat) : Z :=
  backoffTime attempt + jitter attempt.

Definition callTranslationAPI (jitter : nat -> Z)
  (net : Params -> nat -> Outcome Response)
  (params : Params) (attempt : nat) : list (Event Params) * Outcome Response :=
  Executor.callTranslationAPI RETRIES isRetryableFree (retryDelay jitter) true
    net params attempt.

(** The singletons of the module that the orchestrator touches: the cache,
    the number of [Date.now()] calls made so far, and the parameters of the
    [callTranslationAPI] invocations started so far. *)
Record World := {
  theCache : TtlCache.TranslationCache;
  ticks : nat;
  calls : list Params
}.

(** The surroundings: [clock i] is what the [i]-th call of [Date.now()]
    returns, [upstream n] is the network as seen by the [n]-th invocation of
    [callTranslationAPI], and [jitter n] are the random delays that this
    invocation draws. *)
Record Env := {
  clock : nat -> Z;
  upstream : nat -> Params -> nat -> Outcome Response;
  jitter : nat -> nat -> Z
}.

Definition initialWorld : World :=
  {| theCache := TtlCache.new MAX_CACHE_SIZE CACHE_TTL; ticks := 0; calls := [] |}.

Section Orchestrator.
Variable env : Env.

Definition dateNow : M World Z :=
  fun w => (clock env (ticks w),
            {| theCache := theCache w; ticks := S (ticks w); calls := calls w |}).

(** [cache.get(key)]: [get] returns at [if (!entry)] before it calls
    [Date.now()], so the clock is read only when the key has an entry. *)
Definition cacheGet (key : jsstring) : M World (option jsstring) :=
  fun w =>
    match JsMap.get key (TtlCache.cache (theCache w)) with
    | None => (None, w)
    | Some _ =>
        (now <- dateNow ;;
         fun w =>
           let '(r, c) := TtlCache.get now key (theCache w) in
           (r, {| theCache := c; ticks := ticks w; calls := calls w |})) w
    end.

Definition cacheSet (key value : jsstring) : M World unit :=
  nowClean <- dateNow ;;
  nowStamp <- dateNow ;;
  fun w =>
    (tt, {| theCache := TtlCache.set nowClean nowStamp key value (theCache w);
            ticks := ticks w; calls := calls w |}).

(** Non-empty after normalisation, no longer than [MAX_TEXT_LENGTH], and
    absent from the cache. *)
Definition shortAndUncached (sourceLang targetLang : jsstring)
  (c : TtlCache.TranslationCache) (text : jsstring) : Prop :=
  truthy (normalizeText text) = true
  /\ (len (normalizeText text) <= MAX_TEXT_LENGTH)%Z
  /\ JsMap.get (generateCacheKey sourceLang targetLang (normalizeText text))
       (TtlCache.cache c)
     = None.

(** [cache.get(key)] gives nothing that [if (cached)] accepts. *)
Definition cacheMiss (key : jsstring) (w : World) : Prop :=
  match fst (cacheGet key w) with
  | Some v => truthy v = false
  | None => True
  end.

(** The invocation of [callTranslationAPI(params)]: its number. *)
Definition startCall (params : Params) : M World nat :=
  fun w => (List.length (calls w),
            {| theCache := theCache w; ticks := ticks w;
               calls := calls w ++ [params] |}).

(** What the promise of the [n]-th invocation settles with. *)
Definition settle (n : nat) (params : Params) : Outcome Response :=
  snd (callTranslationAPI (jitter env n) (upstream env n) params 0).

Definition msgInvalidResponse : jsstring :=
  str "Respuesta de API inv" ++ [225%N] ++ str "lida".
Definition msgInvalidFormat : jsstring :=
  str "Formato de traducci" ++ [243%N] ++ str "n inv" ++ [225%N] ++ str "lido".
Definition msgNoTranslation : jsstring :=
  str "No se encontr" ++ [243%N] ++ str " traducci" ++ [243%N] ++ str "n".
Definition msgEmptyText : jsstring :=
  str "El texto a traducir no puede estar vac" ++ [237%N] ++ str "o.".
Definition msgErrorPrefix : jsstring :=
  str "Error en traducci" ++ [243%N] ++ str "n: ".

(** The [sentence[0]] of every element that is a non-empty array starting
    with a string. *)
Definition translatedPartsOf (mainTranslationData : list JsValue)
  : list jsstring :=
  flat_map
    (fun sentence =>
       match sentence with
       | JArray (JString s :: _) => [s]
       | _ => []
       end)
    mainTranslationData.

Definition processTranslationResponse (response : Response)
  (cacheKey : jsstring) : M World (Result jsstring) :=
  match data response with
  | JArray (mainTranslationData :: _) =>
      match mainTranslationData with
      | JArray sentences =>
          match translatedPartsOf sentences with
          | [] => ret (Thrown msgNoTranslation)
          | translatedParts =>
              let translatedText := join [SP] translatedParts in
              cacheSet cacheKey translatedText ;;;
              ret (Ok translatedText)
          end
      | _ => ret (Thrown msgInvalidFormat)
      end
  | _ => ret (Thrown msgInvalidResponse)
  end.

(** A chunk of a long text after the synchronous [chunks.map]: served from
    the cache, or waiting for the invocation it started. *)
Inductive ChunkTask :=
| ChunkCached (cachedChunk : jsstring)
| ChunkCall (n : nat) (params : Params) (chunkCacheKey : jsstring).

(** [translate] where it first suspends. *)
Inductive Pending :=
| Settled (r : Result jsstring)
| AwaitShort (n : nat) (params : Params) (cacheKey : jsstring)
| AwaitChunks (tasks : list ChunkTask) (cacheKey : jsstring).

Definition chunkStart (targetLang sourceLang chunk : jsstring)
  : M World ChunkTask :=
  let chunkCacheKey := generateCacheKey sourceLang targetLang chunk in
  let params := {| source := sourceLang; target := targetLang; q := chunk |} in
  cachedChunk <- cacheGet chunkCacheKey ;;
  match cachedChunk with
  | Some v =>
      if truthy v then ret (ChunkCached v)
      else n <- startCall params ;; ret (ChunkCall n params chunkCacheKey)
  | None => n <- startCall params ;; ret (ChunkCall n params chunkCacheKey)
  end.

(** The [try] block of [translate] up to its first [await]: the start of
    the upstream invocations. *)
Definition startAfterMiss (targetLang sourceLang cleanedText cacheKey : jsstring)
  : M World Pending :=
  if (len cleanedText >? MAX_TEXT_LENGTH)%Z then
    tasks <- mapM (chunkStart targetLang sourceLang)
               (splitText cleanedText MAX_TEXT_LENGTH) ;;
    ret (AwaitChunks tasks cacheKey)
  else
    let params :=
      {| source := sourceLang; target := targetLang; q := cleanedText |} in
    n <- startCall params ;;
    ret (AwaitShort n params cacheKey).

(** [translate] up to its first [await]: everything in it is synchronous. *)
Definition translateStart (targetLang sourceLang text : jsstring)
  : M World Pending :=
  let cleanedText := normalizeText text in
  if negb (truthy cleanedText) then ret (Settled (Thrown msgEmptyText))
  else
    let cacheKey := generateCacheKey sourceLang targetLang cleanedText in
    cached <- cacheGet cacheKey ;;
    match cached with
    | Some v =>
        if truthy v then ret (Settled (Ok v))
        else startAfterMiss targetLang sourceLang cleanedText cacheKey
    | None => startAfterMiss targetLang sourceLang cleanedText cacheKey
    end.

Definition chunkResume (task : ChunkTask) : M World (Result jsstring) :=
  match task with
  | ChunkCached v => ret (Ok v)
  | ChunkCall n params chunkCacheKey =>
      match settle n params with
      | Success response => processTranslationResponse response chunkCacheKey
      | Failure error => ret (Thrown (message error))
      end
  end.

(** [catch (error) { throw new Error(`Error en traducción: ${error.message}`) }] *)
Definition wrapError {A} (r : Result A) : Result A :=
  match r with
  | Ok a => Ok a
  | Thrown m => Thrown (msgErrorPrefix ++ m)
  end.

(** [translate] from its first [await] on.  The chunks of a long text settle
    in the order of the chunks. *)
Definition translateResume (p : Pending) : M World (Result jsstring) :=
  match p with
  | Settled r => ret r
  | AwaitShort n params cacheKey =>
      match settle n params with
      | Success response =>
          r <- processTranslationResponse response cacheKey ;;
          ret (wrapError r)
      | Failure error => ret (wrapError (Thrown (message error)))
      end
  | AwaitChunks tasks cacheKey =>
      results <- mapM chunkResume tasks ;;
      match allOk results with
      | Ok translatedChunks =>
          let completeTranslation := join [SP] translatedChunks in
          cacheSet cacheKey completeTranslation ;;;
          ret (Ok completeTranslation)
      | Thrown m => ret (wrapError (Thrown m))
      end
  end.

(** One call of [translate] that nothing else interleaves with. *)
Definition translate (targetLang sourceLang text : jsstring)
  : M World (Result jsstring) :=
  p <- translateStart targetLang sourceLang text ;;
  translateResume p.

(** The rejection of the first [translate] whose promise is rejected
    before its first [await] (a blank text). *)
Fixpoint rejectedAtStart (pendings : list Pending) : option jsstring :=
  match pendings with
  | [] => None
  | Settled (Thrown m) :: _ => Some m
  | _ :: rest => rejectedAtStart rest
  end.

(** [Promise.all(texts.map(text => translate(targetLang, sourceLang, text)))]:
    [map] starts every [translate] in turn, each running up to its first
    [await]; the promises then settle, here in the order of the texts.
    [Promise.all] rejects with the rejection that happens first: that of a
    promise already rejected when [map] returns comes before any rejection
    that has to wait for a response. *)
Definition translateMultiple (texts : list jsstring)
  (targetLang sourceLang : jsstring) : M World (Result (list jsstring)) :=
  pendings <- mapM (translateStart targetLang sourceLang) texts ;;
  results <- mapM translateResume pendings ;;
  ret (match rejectedAtStart pendings with
       | Some m => Thrown m
       | None => allOk results
       end).
End Orchestrator.

End Free.

(* ===================================================================== *)
(** ** The keyed client ([api/translations]) *)
(* ===================================================================== *)

Module Keyed.
Import JsString Chunker Executor StateM.
Local Open Scope js_scope.

Definition TIMEOUT : Z := 5000.
Definition MAX_CACHE_SIZE : Z := 1000.
Definition RETRIES : nat := 3.
Definition RETRY_DELAY : Z := 300.
Definition MAX_CHUNK_LENGTH : Z := 500.
Definition MAX_CONCURRENT_REQUESTS : Z := 5.

(** [q] is one text in [translate] and the list of texts in
    [translateMultiple]. *)
Inductive Query :=
| One (text : jsstring)
| Many (texts : list jsstring).

Record Params := { q : Query; source : jsstring; target : jsstring }.

(** The body that [callTranslationAPI] returns ([response.data]), read
    through [data?.data?.translations]: [None] when that chain ends in
    [undefined], else the [translatedText] of every element. *)
Record Body := { translations : option (list jsstring) }.

(** [RETRY_DELAY * (attempt + 1)] *)
Definition retryDelay (attempt : nat) : Z := RETRY_DELAY * (Z.of_nat attempt + 1).

Definition callTranslationAPI (net : Params -> nat -> Outcome Body)
  (params : Params) (attempt : nat) : list (Event Params) * Outcome Body :=
  Executor.callTranslationAPI RETRIES isRetryableKeyed retryDelay true net
    params attempt.

Record World := {
  theCache : FifoCache.TranslationCache;
  calls : list Params
}.

Record Env := {
  upstream : nat -> Params -> nat -> Outcome Body
}.

Definition initialWorld : World :=
  {| theCache := FifoCache.new MAX_CACHE_SIZE; calls := [] |}.

(** Non-empty after normalisation, no longer than the chunking limit, and
    absent from the cache. *)
Definition shortAndUncached (sl tl : jsstring) (c : FifoCache.TranslationCache)
  (text : jsstring) : Prop :=
  truthy (normalizeText text) = true
  /\ (len (normalizeText text) <= MAX_CHUNK_LENGTH)%Z
  /\ FifoCache.get (generateCacheKey sl tl (normalizeText text)) c = None.

(** [array[index] = v] for an index inside the array. *)
Fixpoint assign {A} (index : nat) (v : A) (array : list A) : list A :=
  match array, index with
  | [], _ => []
  | _ :: r, O => v :: r
  | x :: r, S i => x :: assign i v r
  end.

Section Orchestrator.
Variable env : Env.

(** [translate] of this client, which [translateMultiple] calls for the
    long texts (and which calls [translateMultiple] for their chunks), in two
    parts: up to its first [await], and from there on. *)
Variable Pending : Type.
Variable translateStart : jsstring -> jsstring -> jsstring -> M World Pending.
Variable translateResume : Pending -> M World (Result jsstring).

Definition cacheSet (key value : jsstring) : M World unit :=
  fun w => (tt, {| theCache := FifoCache.set key value (theCache w);
                   calls := calls w |}).

Definition startCall (params : Params) : M World nat :=
  fun w => (List.length (calls w),
            {| theCache := theCache w; calls := calls w ++ [params] |}).

Definition settle (n : nat) (params : Params) : Outcome Body :=
  snd (callTranslationAPI (upstream env n) params 0).

Definition msgIncomplete : jsstring := str "Respuesta de API incompleta".
Definition msgMultiplePrefix : jsstring :=
  str "Error en traducci" ++ [243%N] ++ str "n m" ++ [250%N] ++ str "ltiple: ".

(** What the [texts.forEach] pass leaves behind. *)
Record Sorted := {
  finalTranslations : list (option jsstring);
  batchTexts : list jsstring;
  batchIndices : list nat;
  longTexts : list (nat * jsstring)
}.

(** Body of [texts.forEach((text, index) => ...)]; the cache is only
    read. *)
Definition sortText (sl tl : jsstring) (c : FifoCache.TranslationCache)
  (st : Sorted) (item : nat * jsstring) : Sorted :=
  let '(index, text) := item in
  let cleanedText := normalizeText text in
  if negb (truthy cleanedText) then
    {| finalTranslations := assign index (Some []) (finalTranslations st);
       batchTexts := batchTexts st; batchIndices := batchIndices st;
       longTexts := longTexts st |}
  else if (len cleanedText >? MAX_CHUNK_LENGTH)%Z then
    {| finalTranslations := finalTranslations st;
       batchTexts := batchTexts st; batchIndices := batchIndices st;
       longTexts := longTexts st ++ [(index, cleanedText)] |}
  else
    let cacheKey := generateCacheKey sl tl cleanedText in
    let toBatch :=
      {| finalTranslations := finalTranslations st;
         batchTexts := batchTexts st ++ [cleanedText];
         batchIndices := batchIndices st ++ [index];
         longTexts := longTexts st |} in
    match FifoCache.get cacheKey c with
    | Some cached =>
        if truthy cached then
          {| finalTranslations := assign index (Some cached) (finalTranslations st);
             batchTexts := batchTexts st; batchIndices := batchIndices st;
             longTexts := longTexts st |}
        else toBatch
    | None => toBatch
    end.

(** Body of [results.forEach((translatedText, idx) => ...)]; [row] is
    [(translatedText, (batchIndices[idx], batchTexts[idx]))]. *)
Definition distribute (sl tl : jsstring)
  (final : list (option jsstring)) (row : jsstring * (nat * jsstring))
  : M World (list (option jsstring)) :=
  let '(translatedText, (originalIndex, batchText)) := row in
  cacheSet (generateCacheKey sl tl batchText) translatedText ;;;
  ret (assign originalIndex (Some translatedText) final).

Fixpoint distributeAll (sl tl : jsstring) (final : list (option jsstring))
  (rows : list (jsstring * (nat * jsstring)))
  : M World (list (option jsstring)) :=
  match rows with
  | [] => ret final
  | row :: rest =>
      final' <- distribute sl tl final row ;;
      distributeAll sl tl final' rest
  end.

(** The [try] block around the combined call. *)
Definition translateBatch (sl tl : jsstring) (st : Sorted)
  : M World (Result (list (option jsstring))) :=
  match batchTexts st with
  | [] => ret (Ok (finalTranslations st))
  | _ :: _ =>
      let params := {| q := Many (batchTexts st); source := sl; target := tl |} in
      n <- startCall params ;;
      match settle n params with
      | Failure error => ret (Thrown (msgMultiplePrefix ++ message error))
      | Success body =>
          let results :=
            match translations body with Some l => l | None => [] end in
          if negb (Nat.eqb (List.length results) (List.length (batchTexts st)))
          then ret (Thrown (msgMultiplePrefix ++ msgIncomplete))
          else
            final <- distributeAll sl tl (finalTranslations st)
                       (combine results
                          (combine (batchIndices st) (batchTexts st))) ;;
            ret (Ok final)
      end
  end.

(** [translate(tl, sl, cleanedText)] for a long text, called inside the
    [forEach] pass: it runs up to its first [await].  The pass itself only
    reads the cache, and so does the start of [translate], so that starting
    the long texts right after the pass changes nothing. *)
Definition startLong (sl tl : jsstring) (long : nat * jsstring)
  : M World (nat * Pending) :=
  p <- translateStart tl sl (snd long) ;;
  ret (fst long, p).

(** [.then(result => finalTranslations[index] = result)] for the long texts,
    in their order; a rejected one rejects [Promise.all]. *)
Fixpoint finishLong (final : list (option jsstring))
  (longs : list (nat * Pending)) : M World (Result (list (option jsstring))) :=
  match longs with
  | [] => ret (Ok final)
  | (index, p) :: rest =>
      r <- translateResume p ;;
      match r with
      | Ok result => finishLong (assign index (Some result) final) rest
      | Thrown m =>
          _ <- finishLong final rest ;;
          ret (Thrown m)
      end
  end.

(** [translateMultiple(texts, tl, sl)]: the combined call settles first,
    then the long texts in their order. *)
Definition translateMultiple (texts : list jsstring) (tl sl : jsstring)
  : M World (Result (list (option jsstring))) :=
  match texts with
  | [] => ret (Ok [])
  | _ :: _ =>
      fun w =>
        let st :=
          fold_left (sortText sl tl (theCache w))
            (combine (seq 0 (List.length texts)) texts)
            {| finalTranslations := repeat None (List.length texts);
               batchTexts := []; batchIndices := []; longTexts := [] |} in
        (longs <- mapM (startLong sl tl) (longTexts st) ;;
         batch <- translateBatch sl tl st ;;
         match batch with
         | Thrown m =>
             _ <- finishLong (finalTranslations st) longs ;;
             ret (Thrown m)
         | Ok final => finishLong final longs
         end) w
  end.
End Orchestrator.

Definition msgEmptyText : jsstring :=
  str "El texto a traducir no puede estar vac" ++ [237%N] ++ str "o.".
Definition msgInvalidResponse : jsstring :=
  str "Respuesta de API inv" ++ [225%N] ++ str "lida".
Definition msgErrorPrefix : jsstring :=
  str "Error en traducci" ++ [243%N] ++ str "n: ".

(** How [join] prints an element: [null] as the empty string. *)
Definition printed (element : option jsstring) : jsstring :=
  match element with
  | Some s => s
  | None => []
  end.

Section Translate.
Variable env : Env.

(** The [translate] that the inner [translateMultiple] would call for a
    chunk that is long: [translate] itself, left open here. *)
Variable Pending : Type.
Variable translateStart : jsstring -> jsstring -> jsstring -> M World Pending.
Variable translateResume : Pending -> M World (Result jsstring).

(** The [try] block of [translate], for a text that needs no splitting. *)
Definition translateShort (tl sl cleanedText cacheKey : jsstring)
  : M World (Result jsstring) :=
  let params := {| q := One cleanedText; source := sl; target := tl |} in
  n <- startCall params ;;
  match settle env n params with
  | Failure error => ret (Thrown (msgErrorPrefix ++ message error))
  | Success body =>
      match translations body with
      | Some (translatedText :: _) =>
          if truthy translatedText then
            cacheSet cacheKey translatedText ;;;
            ret (Ok translatedText)
          else ret (Thrown (msgErrorPrefix ++ msgInvalidResponse))
      | _ => ret (Thrown (msgErrorPrefix ++ msgInvalidResponse))
      end
  end.

(** [translate(tl, sl, text)], one call that nothing else interleaves with;
    [None] stands for a [while] loop of [splitTextIntoChunks] that does not
    end. *)
Definition translate (tl sl text : jsstring)
  : M World (option (Result jsstring)) :=
  let cleanedText := normalizeText text in
  if negb (truthy cleanedText) then ret (Some (Thrown msgEmptyText))
  else if (len cleanedText >? MAX_CHUNK_LENGTH)%Z then
    match splitTextIntoChunks cleanedText MAX_CHUNK_LENGTH with
    | None => ret None
    | Some chunks =>
        r <- translateMultiple env translateStart translateResume chunks tl sl ;;
        match r with
        | Ok translatedChunks =>
            ret (Some (Ok (join [SP] (map printed translatedChunks))))
        | Thrown m => ret (Some (Thrown m))
        end
    end
  else
    let cacheKey := generateCacheKey sl tl cleanedText in
    fun w =>
      match FifoCache.get cacheKey (theCache w) with
      | Some cached =>
          if truthy cached then (Some (Ok cached), w)
          else (r <- translateShort tl sl cleanedText cacheKey ;; ret (Some r)) w
      | None =>
          (r <- translateShort tl sl cleanedText cacheKey ;; ret (Some r)) w
      end.
End Translate.

End Keyed.

(* ===================================================================== *)
(** ** The free client without cache, with [options] *)
(* ===================================================================== *)

Module FreeNoCache.
Import JsString Chunker Executor StateM.
Local Open Scope js_scope.

Definition TIMEOUT : Z := 8000.
Definition RETRIES : nat := 5.
Definition RETRY_DELAY : Z := 500.
Definition MAX_TEXT_LENGTH : Z := 5000.

Record Params := { source : jsstring; target : jsstring; q : jsstring }.
Record Response := { data : JsValue }.

(** An [AbortSignal], by the controller that owns it. *)
Definition AbortSignal := nat.

(** [options?: { signal?: AbortSignal }] *)
Record Options := { signal : option AbortSignal }.

(** The configuration object handed to [axios.get]; [cfgSignal] is the
    [signal] entry of the object, which is how axios is told of an abort
    signal. *)
Record AxiosConfig := {
  cfgParams : list (string * jsstring);
  cfgTimeout : Z;
  cfgSignal : option AbortSignal
}.

(** The object literal in [callTranslationAPI] (the headers, which depend on
    the agent rotator, are left out). *)
Definition axiosConfig (params : Params) : AxiosConfig :=
  {| cfgParams := [("client"%string, str "gtx"); ("sl"%string, source params);
                   ("tl"%string, target params); ("dt"%string, str "t");
                   ("q"%string, q params)];
     cfgTimeout := TIMEOUT;
     cfgSignal := None |}.

(** [RETRY_DELAY * Math.pow(2, attempt)] *)
Definition backoffTime (attempt : nat) : Z := RETRY_DELAY * 2 ^ Z.of_nat attempt.

(** [backoffTime + jitter], the delay given to [setTimeout]; [jitter attempt]
    is the value of [Math.random() * 300] that the attempt draws, in the
    whole milliseconds that the timer counts. *)
Definition retryDelay (jitter : nat -> Z) (attempt : nat) : Z :=
  backoffTime attempt + jitter attempt.

(** No semaphore in this revision. *)
Definition callTranslationAPI (jitter : nat -> Z)
  (net : Params -> nat -> Outcome Response)
  (params : Params) (attempt : nat) : list (Event Params) * Outcome Response :=
  Executor.callTranslationAPI RETRIES isRetryableFree (retryDelay jitter) false
    net params attempt.

(** The parameters of the invocations of [callTranslationAPI] so far. *)
Record World := { calls : list Params }.

(** [upstream n] is the network as seen by the [n]-th invocation of
    [callTranslationAPI], [jitter n] the random delays that it draws. *)
Record Env := {
  upstream : nat -> Params -> nat -> Outcome Response;
  jitter : nat -> nat -> Z
}.

(** [s.replace(/pattern/g, replacement)] for a literal, non-empty pattern;
    [skip] counts the characters of a match still to be dropped. *)
Fixpoint isPrefix (p s : jsstring) : bool :=
  match p, s with
  | [], _ => true
  | x :: p', y :: s' => (x =? y)%N && isPrefix p' s'
  | _ :: _, [] => false
  end.

Fixpoint replaceAllFrom (skip : nat) (pattern replacement s : jsstring)
  : jsstring :=
  match s with
  | [] => []
  | c :: r =>
      match skip with
      | S k => replaceAllFrom k pattern replacement r
      | O =>
          if isPrefix pattern s
          then replacement
                 ++ replaceAllFrom (List.length pattern - 1) pattern replacement r
          else c :: replaceAllFrom 0 pattern replacement r
      end
  end.

Definition replaceAll (pattern replacement s : jsstring) : jsstring :=
  replaceAllFrom 0 pattern replacement s.

Definition decodeHtmlEntities (s : jsstring) : jsstring :=
  if negb (truthy s) then s
  else
    replaceAll (str "&#39;") (str "'")
      (replaceAll (str "&quot;") [34%N]
         (replaceAll (str "&gt;") (str ">")
            (replaceAll (str "&lt;") (str "<")
               (replaceAll (str "&amp;") (str "&") s)))).

(** [[.,!?;:]] *)
Definition isPunctuation (c : char) : bool :=
  ((c =? 46) || (c =? 44) || (c =? 33) || (c =? 63) || (c =? 59) || (c =? 58))%N.

(** Whether the first character after the leading white space is a
    punctuation mark. *)
Fixpoint punctuationAhead (s : jsstring) : bool :=
  match s with
  | [] => false
  | c :: r => if isWhiteSpace c then punctuationAhead r else isPunctuation c
  end.

(** [s.replace(/\s+([.,!?;:])/g, '$1')]: a run of white space that ends at a
    punctuation mark is removed. *)
Fixpoint tightenPunctuation (s : jsstring) : jsstring :=
  match s with
  | [] => []
  | c :: r =>
      if isWhiteSpace c && punctuationAhead r then tightenPunctuation r
      else c :: tightenPunctuation r
  end.

Definition startsWithPunctuation (s : jsstring) : bool :=
  match s with
  | [] => false
  | c :: _ => isPunctuation c
  end.

(** Whether some white space character stands right before a punctuation
    mark. *)
Fixpoint spaceBeforePunctuation (s : jsstring) : bool :=
  match s with
  | [] => false
  | c :: r =>
      (isWhiteSpace c && startsWithPunctuation r) || spaceBeforePunctuation r
  end.

(** [&] *)
Definition AMP : char := 38%N.

Definition msgInvalidResponse : jsstring :=
  str "Respuesta de API inv" ++ [225%N] ++ str "lida".
Definition msgInvalidFormat : jsstring :=
  str "Formato de traducci" ++ [243%N] ++ str "n inv" ++ [225%N] ++ str "lido".
Definition msgNoTranslation : jsstring :=
  str "No se encontr" ++ [243%N] ++ str " traducci" ++ [243%N] ++ str "n".
Definition msgEmptyText : jsstring :=
  str "El texto a traducir no puede estar vac" ++ [237%N] ++ str "o.".
Definition msgEmptyDetect : jsstring :=
  str "El texto no puede estar vac" ++ [237%N] ++ str "o".
Definition msgNoDetect : jsstring := str "No se pudo detectar el idioma".
Definition msgErrorPrefix : jsstring :=
  str "Error en traducci" ++ [243%N] ++ str "n: ".
Definition msgDetectPrefix : jsstring :=
  str "Error en detecci" ++ [243%N] ++ str "n de idioma: ".

Definition processTranslationResponse (response : Response) : Result jsstring :=
  match data response with
  | JArray (mainTranslationData :: _) =>
      match mainTranslationData with
      | JArray sentences =>
          match
            flat_map
              (fun sentence =>
                 match sentence with
                 | JArray (JString s :: _) => [decodeHtmlEntities s]
                 | _ => []
                 end)
              sentences
          with
          | [] => Thrown msgNoTranslation
          | translatedParts =>
              let joined := join [SP] translatedParts in
              Ok (trim (tightenPunctuation joined))
          end
      | _ => Thrown msgInvalidFormat
      end
  | _ => Thrown msgInvalidResponse
  end.

Section Orchestrator.
Variable env : Env.

(** [await callTranslationAPI(params)] *)
Definition callAPI (params : Params) : M World (Outcome Response) :=
  fun w =>
    (snd (callTranslationAPI (jitter env (List.length (calls w)))
            (upstream env (List.length (calls w))) params 0),
     {| calls := calls w ++ [params] |}).

(** The requests that the [n]-th invocation, with these parameters, sends
    through axios. *)
Definition requestsOf (n : nat) (params : Params) : list AxiosConfig :=
  flat_map
    (fun ev =>
       match ev with
       | EvRequest _ p => [axiosConfig p]
       | _ => []
       end)
    (fst (callTranslationAPI (jitter env n) (upstream env n) params 0)).

Definition detectLanguage (text : jsstring) : M World (Result jsstring) :=
  let cleanedText := normalizeText text in
  if negb (truthy cleanedText) then ret (Thrown msgEmptyDetect)
  else
    o <- callAPI {| q := substring cleanedText 0 1000;
                    source := str "auto"; target := str "en" |} ;;
    match o with
    | Failure error => ret (Thrown (msgDetectPrefix ++ message error))
    | Success response =>
        match data response with
        | JArray (_ :: _ :: JString detectedLang :: _) => ret (Ok detectedLang)
        | _ => ret (Thrown (msgDetectPrefix ++ msgNoDetect))
        end
    end.

Definition translateChunk (targetLang effectiveSource chunk : jsstring)
  : M World (Result jsstring) :=
  o <- callAPI {| q := chunk; source := effectiveSource; target := targetLang |} ;;
  match o with
  | Success response => ret (processTranslationResponse response)
  | Failure error => ret (Thrown (message error))
  end.

Definition wrapError {A} (r : Result A) : Result A :=
  match r with
  | Ok a => Ok a
  | Thrown m => Thrown (msgErrorPrefix ++ m)
  end.

(** [translate(targetLang, sourceLang, text, options)] *)
Definition translate (targetLang sourceLang text : jsstring)
  (options : option Options) : M World (Result jsstring) :=
  let cleanedText := normalizeText text in
  if negb (truthy cleanedText) then ret (Thrown msgEmptyText)
  else
    effectiveSource <-
      (if eqb sourceLang (str "auto") || eqb sourceLang (str "auto-detect")
       then
         detected <- detectLanguage cleanedText ;;
         match detected with
         | Ok lang => ret lang
         | Thrown _ => ret (str "auto")
         end
       else ret sourceLang) ;;
    if (len cleanedText >? MAX_TEXT_LENGTH)%Z then
      translatedChunks <-
        mapM (translateChunk targetLang effectiveSource)
          (splitText cleanedText MAX_TEXT_LENGTH) ;;
      match allOk translatedChunks with
      | Ok parts => ret (Ok (join [SP] parts))
      | Thrown m => ret (wrapError (Thrown m))
      end
    else
      r <- translateChunk targetLang effectiveSource cleanedText ;;
      ret (wrapError r).
End Orchestrator.

End FreeNoCache.

(* ===================================================================== *)
(** ** The rotation of user agents *)
(* ===================================================================== *)

Module Rotator.
Import JsString.

(** The value of [currentIndex]: a natural number, or [NaN], which is what
    [% this.agents.length] gives for an empty list of agents. *)
Inductive Index :=
| At (i : nat)
| NaN.

Record AgentRotator := {
  agents : list jsstring;
  currentIndex : Index
}.

(** [new AgentRotator(agents)] *)
Definition new (agents : list jsstring) : AgentRotator :=
  {| agents := agents; currentIndex := At 0 |}.

(** [getNextAgent()]: the agent, [None] for [undefined], and the rotator
    afterwards. *)
Definition getNextAgent (r : AgentRotator) : option jsstring * AgentRotator :=
  let agent :=
    match currentIndex r with
    | At i => nth_error (agents r) i
    | NaN => None
    end in
  let next :=
    match currentIndex r, List.length (agents r) with
    | At i, S n => At ((i + 1) mod S n)
    | _, _ => NaN
    end in
  (agent, {| agents := agents r; currentIndex := next |}).

(** [n] calls of [getNextAgent()] in a row: what they return. *)
Fixpoint getNextAgents (n : nat) (r : AgentRotator) : list (option jsstring) :=
  match n with
  | O => []
  | S n' =>
      let '(agent, r') := getNextAgent r in
      agent :: getNextAgents n' r'
  end.

End Rotator.

(* ===================================================================== *)
(** ** Sample values *)
(* ===================================================================== *)

Module Samples.
Import JsString Executor.

(** A request that got no response and is not a timeout. *)
Definition networkError : JsError :=
  {| isAxiosError := true; code := Some "ERR_NETWORK"%string;
     responseStatus := None; message := str "Network Error" |}.

Definition timeoutError : JsError :=
  {| isAxiosError := true; code := Some "ECONNABORTED"%string;
     responseStatus := None; message := str "timeout of 8000ms exceeded" |}.

Definition statusError (status : Z) : JsError :=
  {| isAxiosError := true;
     code := Some (if (status <? 500)%Z then "ERR_BAD_REQUEST"%string
                   else "ERR_BAD_RESPONSE"%string);
     responseStatus := Some status;
     message := str "Request failed" |}.

Definition holaFree : Free.Params :=
  {| Free.source := str "es"; Free.target := str "en"; Free.q := str "Hola" |}.

Definition holaKeyed : Keyed.Params :=
  {| Keyed.q := Keyed.One (str "Hola"); Keyed.source := str "es";
     Keyed.target := str "en" |}.

(** The nested-array body [[["Hello", "Hola"]]]. *)
Definition helloResponse : Free.Response :=
  {| Free.data := JArray [JArray [JArray [JString (str "Hello");
                                          JString (str "Hola")]]] |}.

(** A network on which the first [n] attempts fail with [e] and the next
    one succeeds. *)
Definition failsFirst (n : nat) (e : JsError) (r : Free.Response)
  : Free.Params -> nat -> Outcome Free.Response :=
  fun _ attempt => if Nat.ltb attempt n then Failure e else Success r.

Definition alwaysFails {Params Response : Type} (e : JsError)
  : Params -> nat -> Outcome Response :=
  fun _ _ => Failure e.

(** Random delays of the attempts of a call, as [Math.random() * 300] may
    give them. *)
Definition someJitter (attempt : nat) : Z :=
  if Nat.even attempt then 120%Z else 275%Z.

End Samples.

(* ===================================================================== *)
(** ** Sample surroundings *)
(* ===================================================================== *)

Module Scenes.
Import JsString Executor Samples.

(** Every request succeeds with [[["Hello", "Hola"]]]; the first two
    readings of the clock (those of the first [cache.set]) give 0 and the
    later ones a time later than [CACHE_TTL]. *)
Definition slowSecondCall : Free.Env :=
  {| Free.clock := fun i => if Nat.ltb i 2 then 0%Z else (Free.CACHE_TTL + 1)%Z;
     Free.upstream := fun _ _ _ => Success helloResponse;
     Free.jitter := fun _ => someJitter |}.

(** Every request succeeds with [[[""]]], an empty translation; the clock
    stands still. *)
Definition emptyTranslation : Free.Env :=
  {| Free.clock := fun _ => 0%Z;
     Free.upstream :=
       fun _ _ _ => Success {| Free.data := JArray [JArray [JArray [JString []]]] |};
     Free.jitter := fun _ => someJitter |}.

(** Every request succeeds and echoes its text; the clock stands still. *)
Definition echo : Free.Env :=
  {| Free.clock := fun _ => 0%Z;
     Free.upstream :=
       fun _ params _ =>
         Success {| Free.data := JArray [JArray [JArray [JString (Free.q params)]]] |};
     Free.jitter := fun _ => someJitter |}.

Definition adios : jsstring := str "Adi" ++ [243%N] ++ str "s".

(** The keyed endpoint answering a request for two texts. *)
Definition twoTranslations : Keyed.Env :=
  {| Keyed.upstream :=
       fun _ _ _ =>
         Success {| Keyed.translations := Some [str "Hello"; str "Goodbye"] |} |}.

(** A [translate] for the long texts, for when there are none. *)
Definition noLongStart (tl sl text : jsstring) : StateM.M Keyed.World unit :=
  StateM.ret tt.
Definition noLongResume (p : unit) : StateM.M Keyed.World (Result jsstring) :=
  StateM.ret (Thrown []).

End Scenes.

(* ===================================================================== *)
(** * Properties *)
(* ===================================================================== *)

(** ** Strings *)

Section StringFacts.
Import JsString.

Lemma eqb_refl (a : jsstring) : eqb a a = true.
Proof.
  induction a as [|x a IH]; simpl; [reflexivity|].
  now rewrite N.eqb_refl, IH.
Qed.

Lemma eqb_eq (a b : jsstring) : eqb a b = true <-> a = b.
Proof.
  split.
  - revert b. induction a as [|x a IH]; intros [|y b]; simpl; try discriminate;
      [reflexivity|].
    intros H. apply andb_true_iff in H as [Hx Hr].
    apply N.eqb_eq in Hx. f_equal; [assumption | now apply IH].
  - intros ->. apply eqb_refl.
Qed.

Lemma eqb_neq (a b : jsstring) : eqb a b = false <-> a <> b.
Proof.
  split.
  - intros H E. apply eqb_eq in E. congruence.
  - intros H. destruct (eqb a b) eqn:E; [|reflexivity].
    apply eqb_eq in E. contradiction.
Qed.

Lemma nonWhite_app (a b : jsstring) :
  nonWhite (a ++ b) = nonWhite a ++ nonWhite b.
Proof. apply filter_app. Qed.

Lemma nonWhite_dropWhile (s : jsstring) :
  nonWhite (dropWhile isWhiteSpace s) = nonWhite s.
Proof.
  induction s as [|c r IH]; simpl; [reflexivity|].
  destruct (isWhiteSpace c) eqn:E; simpl; [assumption|].
  now rewrite E.
Qed.

Lemma nonWhite_rev (s : jsstring) : nonWhite (rev s) = rev (nonWhite s).
Proof.
  induction s as [|c r IH]; simpl; [reflexivity|].
  rewrite nonWhite_app, IH. simpl.
  destruct (isWhiteSpace c); simpl; [now rewrite app_nil_r | reflexivity].
Qed.

Lemma nonWhite_trim (s : jsstring) : nonWhite (trim s) = nonWhite s.
Proof.
  unfold trim, trimEnd, trimStart.
  rewrite nonWhite_rev, nonWhite_dropWhile, nonWhite_rev, rev_involutive.
  apply nonWhite_dropWhile.
Qed.

Lemma split_nonempty (sep : char) (s : jsstring) : split sep s <> [].
Proof.
  destruct s as [|c r]; simpl; [discriminate|].
  destruct (c =? sep)%N; [discriminate|].
  destruct (split sep r); discriminate.
Qed.

Lemma nonWhite_split (sep : char) (s : jsstring) :
  isWhiteSpace sep = true ->
  nonWhite (List.concat (split sep s)) = nonWhite s.
Proof.
  intros Hsep. induction s as [|c r IH]; simpl; [reflexivity|].
  destruct (c =? sep)%N eqn:E.
  - apply N.eqb_eq in E. subst c. rewrite Hsep. simpl. exact IH.
  - pose proof (split_nonempty sep r) as Hne.
    destruct (split sep r) as [|h t]; [contradiction|].
    simpl in *. destruct (isWhiteSpace c); simpl; now rewrite IH.
Qed.

Lemma nonWhite_join (sep : jsstring) (parts : list jsstring) :
  nonWhite sep = [] ->
  nonWhite (join sep parts) = nonWhite (List.concat parts).
Proof.
  intros Hsep. induction parts as [|p rest IH]; [reflexivity|].
  destruct rest as [|p' rest'].
  - simpl. now rewrite app_nil_r.
  - change (join sep (p :: p' :: rest')) with (p ++ sep ++ join sep (p' :: rest')).
    change (List.concat (p :: p' :: rest')) with (p ++ List.concat (p' :: rest')).
    now rewrite !nonWhite_app, Hsep, IH.
Qed.

End StringFacts.

(** ** The chunker of the free client keeps the text *)

Section SplitTextContent.
Import JsString Chunker.

Lemma nonWhite_markSentences (skipping : bool) (s : jsstring) :
  nonWhite (markSentences skipping s) = nonWhite s.
Proof.
  revert skipping. induction s as [|c r IH]; intros skipping; simpl;
    [reflexivity|].
  destruct (skipping && isWhiteSpace c) eqn:E.
  - apply andb_true_iff in E as [_ E]. rewrite E. simpl. apply IH.
  - destruct (isSentenceEnd c
              && match r with d :: _ => isWhiteSpace d | [] => false end);
      simpl; destruct (isWhiteSpace c); simpl; now rewrite IH.
Qed.

Lemma content_flush (chunks : list jsstring) (cur : jsstring) :
  nonWhite (List.concat (flush chunks cur)) = nonWhite (List.concat chunks) ++ nonWhite cur.
Proof.
  unfold flush. destruct cur as [|c r]; simpl.
  - now rewrite app_nil_r.
  - rewrite concat_app, nonWhite_app. simpl List.concat.
    now rewrite app_nil_r, nonWhite_trim.
Qed.

Lemma content_wordStep (maxLength : Z) (st : SplitState) (word : jsstring) :
  content (wordStep maxLength st word) = content st ++ nonWhite word.
Proof.
  destruct st as [chunks cur]. unfold wordStep, content.
  destruct (len cur + len word + 1 <=? maxLength)%Z; simpl fst; simpl snd.
  - rewrite !nonWhite_app. simpl. now rewrite app_nil_r, app_assoc.
  - rewrite content_flush, nonWhite_app. simpl. now rewrite app_nil_r.
Qed.

Lemma content_words (maxLength : Z) (words : list jsstring) (st : SplitState) :
  content (fold_left (wordStep maxLength) words st)
  = content st ++ nonWhite (List.concat words).
Proof.
  revert st. induction words as [|w ws IH]; intros st; simpl.
  - now rewrite app_nil_r.
  - rewrite IH, content_wordStep, nonWhite_app. now rewrite app_assoc.
Qed.

Lemma content_sentenceStep (maxLength : Z) (st : SplitState) (s : jsstring) :
  content (sentenceStep maxLength st s) = content st ++ nonWhite s.
Proof.
  destruct st as [chunks cur]. unfold sentenceStep.
  destruct (len cur + len s <=? maxLength)%Z.
  - unfold content. simpl fst; simpl snd.
    rewrite !nonWhite_app. simpl. now rewrite app_nil_r, app_assoc.
  - destruct (len s >? maxLength)%Z.
    + rewrite content_words. unfold content. simpl fst; simpl snd.
      rewrite content_flush, nonWhite_split by reflexivity.
      simpl. now rewrite app_nil_r.
    + unfold content. simpl fst; simpl snd.
      rewrite content_flush, nonWhite_app. simpl. now rewrite app_nil_r.
Qed.

Lemma content_sentences (maxLength : Z) (sentences : list jsstring)
  (st : SplitState) :
  content (fold_left (sentenceStep maxLength) sentences st)
  = content st ++ nonWhite (List.concat sentences).
Proof.
  revert st. induction sentences as [|s ss IH]; intros st; simpl.
  - now rewrite app_nil_r.
  - rewrite IH, content_sentenceStep, nonWhite_app. now rewrite app_assoc.
Qed.

(** Whatever the limit, [splitText] neither loses, adds nor reorders a
    character that is not white space. *)
Lemma splitText_nonWhite (text : jsstring) (maxLength : Z) :
  nonWhite (join [SP] (splitText text maxLength)) = nonWhite text.
Proof.
  rewrite nonWhite_join by reflexivity.
  unfold splitText. destruct (len text <=? maxLength)%Z.
  - simpl. now rewrite app_nil_r.
  - pose proof (content_sentences maxLength
                  (split NL (markSentences false text)) ([], [])) as H.
    destruct (fold_left (sentenceStep maxLength)
                (split NL (markSentences false text)) ([], []))
      as [chunks cur].
    rewrite content_flush. unfold content in H. simpl in H.
    rewrite H, nonWhite_split by reflexivity.
    apply nonWhite_markSentences.
Qed.

(** C7.  For a text whose normal form is longer than the limit, the chunks
    of [splitText], joined with single spaces, hold the non-white characters
    of the normal form, all of them and in their order (so the chunks come in
    the order of the input); a text no longer than the limit comes back as the
    only chunk, unchanged. *)
Theorem splitText_order_and_content (t : jsstring) (maxLength : Z) :
  ((len (normalizeText t) > maxLength)%Z ->
   nonWhite (join [SP] (splitText (normalizeText t) maxLength))
   = nonWhite (normalizeText t))
  /\ ((len t <= maxLength)%Z -> splitText t maxLength = [t]).
Proof.
  split.
  - intros _. apply splitText_nonWhite.
  - intros H. unfold splitText.
    apply Z.leb_le in H. now rewrite H.
Qed.

Lemma splitText_order_and_content_witness :
  nonWhite
    (join [SP]
       (splitText (normalizeText (str "  Hi there.   How are you?  Fine! ")) 12))
  = nonWhite (normalizeText (str "  Hi there.   How are you?  Fine! "))
  /\ splitText (str "Hola mundo") 12 = [str "Hola mundo"].
Proof.
  split.
  - apply (proj1 (splitText_order_and_content
                    (str "  Hi there.   How are you?  Fine! ") 12)).
    vm_compute. reflexivity.
  - apply (proj2 (splitText_order_and_content (str "Hola mundo") 12)).
    vm_compute. discriminate.
Defined.

End SplitTextContent.

(** ** A text without white space goes through [splitText] in one piece *)

Section SplitTextUnbroken.
Import JsString Chunker.

Lemma unbroken_tail (c : char) (w : jsstring) :
  unbroken (c :: w) -> isWhiteSpace c = false /\ unbroken w.
Proof.
  intros H. split; [apply H; now left|].
  intros d Hd. apply H. now right.
Qed.

Lemma markSentences_unbroken (w : jsstring) (skipping : bool) :
  unbroken w -> markSentences skipping w = w.
Proof.
  revert skipping. induction w as [|c r IH]; intros skipping H; simpl;
    [reflexivity|].
  apply unbroken_tail in H as [Hc Hr].
  rewrite Hc, andb_false_r.
  assert (Hnext : match r with d :: _ => isWhiteSpace d | [] => false end = false).
  { destruct r as [|d r']; [reflexivity|]. apply Hr. now left. }
  rewrite Hnext, andb_false_r. now rewrite IH.
Qed.

Lemma split_unbroken (sep : char) (w : jsstring) :
  isWhiteSpace sep = true -> unbroken w -> split sep w = [w].
Proof.
  intros Hsep. induction w as [|c r IH]; intros H; simpl; [reflexivity|].
  apply unbroken_tail in H as [Hc Hr].
  destruct (c =? sep)%N eqn:E.
  - apply N.eqb_eq in E. congruence.
  - now rewrite IH.
Qed.

Lemma dropWhile_unbroken_rev (w : jsstring) :
  unbroken w -> dropWhile isWhiteSpace (rev w) = rev w.
Proof.
  intros H. destruct (rev w) as [|c r] eqn:E; [reflexivity|].
  simpl. rewrite (H c); [reflexivity|].
  apply in_rev. rewrite E. now left.
Qed.

Lemma trim_unbroken_space (w : jsstring) :
  unbroken w -> trim (w ++ [SP]) = w.
Proof.
  intros H. unfold trim, trimStart, trimEnd.
  destruct w as [|c r]; [reflexivity|].
  destruct (unbroken_tail H) as [Hc _].
  assert (E : dropWhile isWhiteSpace ((c :: r) ++ [SP]) = (c :: r) ++ [SP])
    by (simpl; now rewrite Hc).
  rewrite E, rev_app_distr.
  change (rev [SP] ++ rev (c :: r)) with (SP :: rev (c :: r)).
  change (dropWhile isWhiteSpace (SP :: rev (c :: r)))
    with (dropWhile isWhiteSpace (rev (c :: r))).
  rewrite dropWhile_unbroken_rev by assumption.
  apply rev_involutive.
Qed.

Lemma wordStep_unbroken (w : jsstring) (maxLength : Z) :
  (len w > maxLength)%Z ->
  wordStep maxLength ([], []) w = ([], w ++ [SP]).
Proof.
  intros Hlen. unfold wordStep.
  destruct (len [] + len w + 1 <=? maxLength)%Z eqn:E; [|reflexivity].
  apply Z.leb_le in E. change (len []) with 0%Z in E. lia.
Qed.

Lemma sentenceStep_unbroken (w : jsstring) (maxLength : Z) :
  unbroken w -> (len w > maxLength)%Z ->
  sentenceStep maxLength ([], []) w = ([], w ++ [SP]).
Proof.
  intros Hw Hlen. unfold sentenceStep.
  destruct (len [] + len w <=? maxLength)%Z eqn:E.
  { apply Z.leb_le in E. change (len []) with 0%Z in E. lia. }
  destruct (len w >? maxLength)%Z eqn:E2.
  - rewrite split_unbroken by (reflexivity || assumption).
    cbn [fold_left]. now apply wordStep_unbroken.
  - reflexivity.
Qed.

(** C2, where the free client's chunker breaks it.  A text longer than the
    limit that holds no white space (one long word, or a text in a script
    written without spaces) comes back from [splitText] as a single chunk,
    which is the text itself and so is longer than the limit: there is no
    hard cut. *)
Theorem splitText_unbroken_text_is_one_chunk (w : jsstring) (maxLength : Z) :
  unbroken w -> (len w > maxLength)%Z ->
  splitText w maxLength = [w]
  /\ Exists (fun chunk => (len chunk > maxLength)%Z) (splitText w maxLength).
Proof.
  intros Hw Hlen.
  assert (E : splitText w maxLength = [w]).
  { unfold splitText.
    destruct (len w <=? maxLength)%Z eqn:H1.
    { apply Z.leb_le in H1. lia. }
    rewrite markSentences_unbroken, split_unbroken by (reflexivity || assumption).
    cbn [fold_left]. rewrite sentenceStep_unbroken by assumption.
    unfold flush. destruct (w ++ [SP]) as [|c r] eqn:Ew.
    - destruct w; discriminate.
    - simpl truthy. rewrite <- Ew, trim_unbroken_space by assumption.
      reflexivity. }
  split; [exact E|].
  rewrite E. now constructor.
Qed.

Lemma splitText_unbroken_text_is_one_chunk_witness :
  splitText (str "abcdef") 3 = [str "abcdef"]
  /\ Exists (fun chunk => (len chunk > 3)%Z) (splitText (str "abcdef") 3).
Proof.
  apply splitText_unbroken_text_is_one_chunk.
  - intros c Hc. simpl in Hc.
    repeat (destruct Hc as [<- | Hc]; [reflexivity|]). contradiction.
  - vm_compute. reflexivity.
Defined.

End SplitTextUnbroken.

(** ** The semaphore *)

Section SemaphoreInvariants.
Import Sem.
Local Open Scope Z_scope.

Lemma removeOne_length (who : nat) (l rest : list nat) :
  removeOne who l = Some rest -> List.length l = S (List.length rest).
Proof.
  revert rest. induction l as [|x r IH]; intros rest H; simpl in H;
    [discriminate|].
  destruct (Nat.eqb x who).
  - injection H as <-. reflexivity.
  - destruct (removeOne who r) as [r'|]; [|discriminate].
    injection H as <-. simpl. f_equal. now apply IH.
Qed.

Lemma step_balanced (n : Z) (op : Op) (st st' : System) :
  balanced n st -> step op st = Some st' -> balanced n st'.
Proof.
  unfold balanced. intros (Hpos & Hsum & Hq) H.
  destruct op as [who|who]; simpl in H.
  - unfold acquire in H. destruct (count (sem st) >? 0) eqn:E.
    + injection H as <-. simpl. apply Z.gtb_lt in E.
      rewrite length_app. simpl. repeat split; try lia.
      intros Ht. specialize (Hq Ht). lia.
    + injection H as <-. simpl.
      assert (count (sem st) = 0).
      { destruct (Z.gtb_spec (count (sem st)) 0); [discriminate | lia]. }
      repeat split; try lia.
  - destruct (removeOne who (inside st)) as [rest|] eqn:Er; [|discriminate].
    apply removeOne_length in Er.
    unfold release in H. simpl in H.
    destruct (tasks (sem st)) as [|next q] eqn:Et.
    + injection H as <-. simpl. repeat split; try lia. intros C. now elim C.
    + injection H as <-. simpl.
      assert (count (sem st) = 0) by (apply Hq; discriminate).
      rewrite length_app. simpl. repeat split; lia.
Qed.

Lemma run_balanced (n : Z) (ops : list Op) (st st' : System) :
  balanced n st -> run ops st = Some st' -> balanced n st'.
Proof.
  revert st. induction ops as [|op rest IH]; intros st Hb H; simpl in H.
  - injection H as <-. exact Hb.
  - destruct (step op st) as [st1|] eqn:E; [|discriminate].
    eapply IH; [|exact H]. eapply step_balanced; eassumption.
Qed.

Lemma init_balanced (n : Z) : 0 <= n -> balanced n (init n).
Proof.
  intros H. unfold balanced. simpl. repeat split; try lia.
  intros C. now elim C.
Qed.

(** C3.  Started with [n >= 0] permits and used through matching
    [acquire] / [release] pairs, the semaphore never has a negative count and
    never has more than [n] callers between a completed [acquire()] and their
    [release()].  A caller that finds no permit is queued behind the earlier
    ones; [release()] with a non-empty queue resolves the caller at its front
    and leaves the count as it was, so the freed permit never shows up in the
    pool. *)
Theorem semaphore_bounds_and_fifo (n : Z) (ops : list Op) (st : System) :
  0 <= n -> run ops (init n) = Some st ->
  0 <= count (sem st)
  /\ Z.of_nat (List.length (inside st)) <= n
  /\ (forall who, count (sem st) <= 0 ->
        acquire who (sem st)
        = ({| tasks := tasks (sem st) ++ [who]; count := count (sem st) |}, false))
  /\ (forall next rest, tasks (sem st) = next :: rest ->
        release (sem st)
        = ({| tasks := rest; count := count (sem st) |}, Some next)).
Proof.
  intros Hn Hrun.
  assert (Hb : balanced n st).
  { eapply run_balanced; [apply init_balanced; exact Hn | exact Hrun]. }
  destruct Hb as (Hpos & Hsum & Hq).
  repeat split.
  - exact Hpos.
  - lia.
  - intros who Hc. unfold acquire.
    destruct (Z.gtb_spec (count (sem st)) 0); [lia | reflexivity].
  - intros next rest Ht. unfold release. simpl. rewrite Ht.
    f_equal. f_equal. lia.
Qed.

Lemma semaphore_bounds_and_fifo_witness :
  exists st,
    run [Acquire 1; Acquire 2; Acquire 3; Release 1; Acquire 4] (init 2) = Some st
    /\ 0 <= count (sem st)
    /\ Z.of_nat (List.length (inside st)) <= 2
    /\ inside st = [2%nat; 3%nat]
    /\ tasks (sem st) = [4%nat].
Proof.
  eexists. split; [reflexivity|].
  destruct (@semaphore_bounds_and_fifo 2
              [Acquire 1; Acquire 2; Acquire 3; Release 1; Acquire 4] _
              ltac:(lia) eq_refl) as (H1 & H2 & _).
  repeat split; [exact H1 | exact H2].
Defined.

End SemaphoreInvariants.

(** ** The call executor *)

Unset Implicit Arguments.

Section ExecutorFacts.
Import Executor.

Variables Params Response : Type.
Variable RETRIES : nat.
Variable isRetryable : JsError -> bool.
Variable delay : nat -> Z.
Variable limited : bool.
Variable net : Params -> nat -> Outcome Response.

Local Abbreviation afterAcquire :=
  (afterAcquire RETRIES isRetryable delay limited net).
Local Abbreviation callTranslationAPI :=
  (callTranslationAPI RETRIES isRetryable delay limited net).

(** The body of the function, as the source has it. *)
Lemma afterAcquire_unfold (params : Params) (attempt : nat) :
  afterAcquire params attempt
  = match net params attempt with
    | Success response =>
        (EvRequest attempt params :: whenLimited limited (EvRelease attempt),
         Success response)
    | Failure error =>
        if le_lt_dec RETRIES attempt
        then (EvRequest attempt params :: whenLimited limited (EvRelease attempt),
              Failure error)
        else if isRetryable error
             then
               let '(events, outcome) := afterAcquire params (S attempt) in
               (EvRequest attempt params
                  :: EvDelay attempt (delay attempt)
                  :: whenLimited limited (EvAcquire (S attempt))
                  ++ whenLimited limited (EvRelease attempt)
                  ++ events,
                outcome)
             else (EvRequest attempt params
                     :: whenLimited limited (EvRelease attempt),
                   Failure error)
    end.
Proof.
  etransitivity; [apply afterAcquire_equation_1|].
  destruct (net params attempt) as [r|e]; simpl; [reflexivity|].
  destruct (le_lt_dec RETRIES attempt); simpl; [reflexivity|].
  destruct (isRetryable e); simpl; reflexivity.
Qed.

Lemma attemptsOf_app (a b : list (Event Params)) :
  attemptsOf (a ++ b) = attemptsOf a ++ attemptsOf b.
Proof. apply flat_map_app. Qed.

Lemma attemptsOf_whenLimited_acquire (a : nat) :
  attemptsOf (whenLimited limited (@EvAcquire Params a)) = [].
Proof. unfold whenLimited. now destruct limited. Qed.

Lemma attemptsOf_whenLimited_release (a : nat) :
  attemptsOf (whenLimited limited (@EvRelease Params a)) = [].
Proof. unfold whenLimited. now destruct limited. Qed.

(** An attempt that does not retry sends one request and settles with the
    outcome of that request. *)
Lemma afterAcquire_stop (params : Params) (attempt : nat) :
  (forall e, net params attempt = Failure e ->
             attempt < RETRIES -> isRetryable e = false) ->
  afterAcquire params attempt
  = (EvRequest attempt params :: whenLimited limited (EvRelease attempt),
     net params attempt).
Proof.
  intros H. rewrite afterAcquire_unfold.
  destruct (net params attempt) as [r|e]; [reflexivity|].
  destruct (le_lt_dec RETRIES attempt) as [Hle|Hlt]; [reflexivity|].
  now rewrite (H e eq_refl Hlt).
Qed.

(** An attempt that retries. *)
Lemma afterAcquire_retry (params : Params) (attempt : nat) (e : JsError) :
  net params attempt = Failure e -> attempt < RETRIES -> isRetryable e = true ->
  afterAcquire params attempt
  = (EvRequest attempt params
       :: EvDelay attempt (delay attempt)
       :: whenLimited limited (EvAcquire (S attempt))
       ++ whenLimited limited (EvRelease attempt)
       ++ fst (afterAcquire params (S attempt)),
     snd (afterAcquire params (S attempt))).
Proof.
  intros Hnet Hlt Hr. rewrite afterAcquire_unfold at 1. rewrite Hnet.
  destruct (le_lt_dec RETRIES attempt) as [Hle|_]; [lia|].
  rewrite Hr. now destruct (afterAcquire params (S attempt)).
Qed.

(** Every attempt either stops or retries. *)
Lemma afterAcquire_cases (params : Params) (attempt : nat) :
  afterAcquire params attempt
  = (EvRequest attempt params :: whenLimited limited (EvRelease attempt),
     net params attempt)
  \/ (exists e, net params attempt = Failure e /\ attempt < RETRIES
                /\ isRetryable e = true).
Proof.
  destruct (net params attempt) as [r|e] eqn:Hnet.
  - left. rewrite afterAcquire_stop; rewrite Hnet; [reflexivity | discriminate].
  - destruct (le_lt_dec RETRIES attempt) as [Hle|Hlt].
    + left. rewrite afterAcquire_stop; rewrite Hnet; [reflexivity|]. intros; lia.
    + destruct (isRetryable e) eqn:Hr.
      * right. now exists e.
      * left. rewrite afterAcquire_stop; rewrite Hnet; [reflexivity|].
        intros e' [= <-] _. exact Hr.
Qed.

(** The requests of a chain are those of consecutive attempts, and the chain
    stops at attempt [RETRIES] at the latest. *)
Lemma attempts_consecutive (params : Params) (d attempt : nat) :
  RETRIES - attempt = d ->
  exists k, 1 <= k /\ k <= S d
            /\ attemptsOf (fst (afterAcquire params attempt)) = seq attempt k.
Proof.
  revert attempt. induction d as [|d IH]; intros attempt Hd.
  - exists 1. repeat split; try lia.
    rewrite afterAcquire_stop by (intros; lia).
    simpl. now rewrite attemptsOf_whenLimited_release.
  - destruct (afterAcquire_cases params attempt) as [E | (e & Hnet & Hlt & Hr)].
    + exists 1. repeat split; try lia. rewrite E.
      simpl. now rewrite attemptsOf_whenLimited_release.
    + destruct (IH (S attempt)) as (k & Hk1 & Hk2 & Hk); [lia|].
      exists (S k). repeat split; try lia.
      rewrite (afterAcquire_retry _ _ _ Hnet Hlt Hr). simpl fst.
      change (attemptsOf (?x :: ?y :: ?r)) with (attempt :: attemptsOf r).
      rewrite !attemptsOf_app, attemptsOf_whenLimited_acquire,
        attemptsOf_whenLimited_release, Hk.
      reflexivity.
Qed.

(** When every attempt fails with a retryable failure, all the attempts up
    to [RETRIES] are made and the last failure is the outcome. *)
Lemma attempts_exhausted (params : Params) (d attempt : nat) :
  RETRIES - attempt = d -> attempt <= RETRIES ->
  (forall a, a <= RETRIES ->
             exists e, net params a = Failure e /\ isRetryable e = true) ->
  attemptsOf (fst (afterAcquire params attempt)) = seq attempt (S d)
  /\ snd (afterAcquire params attempt) = net params RETRIES.
Proof.
  intros Hd Hle Hall. revert attempt Hd Hle.
  induction d as [|d IH]; intros attempt Hd Hle.
  - assert (attempt = RETRIES) by lia. subst attempt.
    rewrite afterAcquire_stop by (intros; lia).
    simpl. now rewrite attemptsOf_whenLimited_release.
  - destruct (Hall attempt Hle) as (e & Hnet & Hr).
    destruct (IH (S attempt)) as (Ha & Ho); try lia.
    rewrite (afterAcquire_retry _ _ _ Hnet) by (lia || assumption).
    simpl fst. simpl snd. split; [|exact Ho].
    change (attemptsOf (?x :: ?y :: ?r)) with (attempt :: attemptsOf r).
    rewrite !attemptsOf_app, attemptsOf_whenLimited_acquire,
      attemptsOf_whenLimited_release, Ha.
    reflexivity.
Qed.

(** Every request of a chain carries the parameters of the call. *)
Lemma requests_carry_params (params : Params) (d attempt : nat) :
  RETRIES - attempt = d ->
  forall a p, In (EvRequest a p) (fst (afterAcquire params attempt)) ->
              p = params.
Proof.
  revert attempt. induction d as [|d IH]; intros attempt Hd a p.
  all: destruct (afterAcquire_cases params attempt)
         as [E | (e & Hnet & Hlt & Hr)].
  all: try (exfalso; lia).
  1, 2: rewrite E; simpl; unfold whenLimited; destruct limited; simpl;
    intros [H | H]; try (injection H as _ <-; reflexivity);
    try contradiction; destruct H as [H | []]; discriminate H.
  rewrite (afterAcquire_retry _ _ _ Hnet Hlt Hr). simpl fst.
  intros [H | [H | H]].
  - now injection H as _ <-.
  - discriminate H.
  - apply in_app_or in H as [H | H].
    { unfold whenLimited in H. destruct limited; simpl in H;
        [destruct H as [H | []]; discriminate H | contradiction]. }
    apply in_app_or in H as [H | H].
    { unfold whenLimited in H. destruct limited; simpl in H;
        [destruct H as [H | []]; discriminate H | contradiction]. }
    apply (IH (S attempt)) with (a := a); [lia | exact H].
Qed.

Lemma attemptsOf_call (params : Params) (attempt : nat) :
  attemptsOf (fst (callTranslationAPI params attempt))
  = attemptsOf (fst (afterAcquire params attempt)).
Proof.
  unfold Executor.callTranslationAPI.
  destruct (afterAcquire params attempt) as [events outcome]. simpl.
  now rewrite attemptsOf_app, attemptsOf_whenLimited_acquire.
Qed.

Lemma outcome_call (params : Params) (attempt : nat) :
  snd (callTranslationAPI params attempt) = snd (afterAcquire params attempt).
Proof.
  unfold Executor.callTranslationAPI.
  now destruct (afterAcquire params attempt).
Qed.

End ExecutorFacts.

Section RetryPolicy.
Import Executor.

Variables Params Response : Type.
Variable RETRIES : nat.
Variable isRetryable : JsError -> bool.
Variable delay : nat -> Z.
Variable limited : bool.
Variable net : Params -> nat -> Outcome Response.

Local Abbreviation afterAcquire :=
  (afterAcquire RETRIES isRetryable delay limited net).
Local Abbreviation callTranslationAPI :=
  (callTranslationAPI RETRIES isRetryable delay limited net).

(** A failed attempt below the limit is followed by the next attempt exactly
    when [isRetryable] accepts the failure. *)
Lemma retried_iff_retryable (params : Params) (attempt : nat) (e : JsError) :
  attempt < RETRIES -> net params attempt = Failure e ->
  In (S attempt) (attemptsOf (fst (callTranslationAPI params attempt)))
  <-> isRetryable e = true.
Proof.
  intros Hlt Hnet. rewrite attemptsOf_call. split.
  - intros Hin. destruct (isRetryable e) eqn:Hr; [reflexivity|].
    rewrite afterAcquire_stop in Hin.
    + simpl in Hin. rewrite attemptsOf_whenLimited_release in Hin.
      simpl in Hin. destruct Hin as [Hin | []]. lia.
    + intros e' He' _. congruence.
  - intros Hr. rewrite (afterAcquire_retry _ _ _ _ _ _ _ _ _ _ Hnet Hlt Hr).
    simpl fst.
    change (attemptsOf (?x :: ?y :: ?r)) with (attempt :: attemptsOf r).
    rewrite !attemptsOf_app, attemptsOf_whenLimited_acquire,
      attemptsOf_whenLimited_release.
    destruct (attempts_consecutive _ _ RETRIES isRetryable delay limited net
                params (RETRIES - S attempt) (S attempt) eq_refl)
      as (k & Hk1 & _ & Hk).
    rewrite Hk. right. simpl. destruct k as [|k]; [lia|]. now left.
Qed.

(** A failure that [isRetryable] rejects settles the call at once. *)
Lemma not_retryable_propagates (params : Params) (attempt : nat) (e : JsError) :
  net params attempt = Failure e -> isRetryable e = false ->
  callTranslationAPI params attempt
  = (whenLimited limited (EvAcquire attempt)
       ++ EvRequest attempt params :: whenLimited limited (EvRelease attempt),
     Failure e).
Proof.
  intros Hnet Hr. unfold Executor.callTranslationAPI.
  rewrite afterAcquire_stop.
  - now rewrite Hnet.
  - intros e' He' _. congruence.
Qed.

End RetryPolicy.

Section Classification.
Import Executor.
Local Open Scope Z_scope.

Lemma codeIs_true (e : JsError) (c : string) :
  codeIs e c = true <-> code e = Some c.
Proof.
  unfold codeIs. destruct (code e) as [c'|].
  - rewrite String.eqb_eq. split; [now intros -> | now intros [= ->]].
  - split; discriminate.
Qed.

Lemma isRetryableFree_spec (e : JsError) :
  isRetryableFree e = true <-> retriedByFree e.
Proof.
  unfold isRetryableFree, retriedByFree, statusOr500.
  rewrite andb_true_iff, !orb_true_iff, codeIs_true.
  apply and_iff_compat_l.
  destruct (responseStatus e) as [s|].
  - destruct (Z.eqb_spec s 0) as [-> | Hs0].
    + simpl. split; [intros _; right; right; now left|]. intros _. right. reflexivity.
    + rewrite Z.eqb_eq, Z.geb_le. split.
      * intros [[H | H] | H].
        -- now left.
        -- subst s. right; right; right; now left.
        -- right; right; right; right. now exists s.
      * intros [H | [H | [H | [H | (s' & H & Hs')]]]].
        -- left; now left.
        -- discriminate.
        -- injection H as ->. contradiction.
        -- injection H as ->. left; now right.
        -- injection H as ->. now right.
  - simpl. split; [intros _; right; now left|]. intros _. now right.
Qed.

Lemma isRetryableKeyed_spec (e : JsError) :
  isRetryableKeyed e = true <-> retriedByKeyed e.
Proof.
  unfold isRetryableKeyed, retriedByKeyed, statusOr500.
  rewrite andb_true_iff, !orb_true_iff, codeIs_true.
  apply and_iff_compat_l.
  destruct (responseStatus e) as [s|].
  - destruct (Z.eqb_spec s 0) as [-> | Hs0].
    + simpl. split; [intros _; right; right; now left|]. intros _. right. reflexivity.
    + rewrite Z.geb_le. split.
      * intros [H | H].
        -- now left.
        -- right; right; right. now exists s.
      * intros [H | [H | [H | (s' & H & Hs')]]].
        -- now left.
        -- discriminate.
        -- injection H as ->. contradiction.
        -- injection H as ->. now right.
  - simpl. split; [intros _; right; now left|]. intros _. now right.
Qed.

End Classification.

(** ** Retry policy, exhaustion and permits of the clients *)

Section ClientsRetry.
Import JsString Executor Samples.

(** C4, as the code has it.  In both limited clients a failed attempt below
    the retry limit is followed by another attempt exactly when the failure
    is an axios error that is a timeout, or has no response status (the code
    reads a missing status as 500), or has a status of 500 or more, or, in
    the free client only, the status 429; any other failure settles the call
    at once with that failure. *)
Theorem retry_policy_of_the_clients :
  (forall (jitter : nat -> Z)
          (net : Free.Params -> nat -> Outcome Free.Response) params attempt e,
      attempt < Free.RETRIES -> net params attempt = Failure e ->
      (In (S attempt)
          (attemptsOf (fst (Free.callTranslationAPI jitter net params attempt)))
       <-> retriedByFree e)
      /\ (~ retriedByFree e ->
          Free.callTranslationAPI jitter net params attempt
          = ([EvAcquire attempt; EvRequest attempt params; EvRelease attempt],
             Failure e)))
  /\ (forall (net : Keyed.Params -> nat -> Outcome Keyed.Body) params attempt e,
         attempt < Keyed.RETRIES -> net params attempt = Failure e ->
         (In (S attempt)
             (attemptsOf (fst (Keyed.callTranslationAPI net params attempt)))
          <-> retriedByKeyed e)
         /\ (~ retriedByKeyed e ->
             Keyed.callTranslationAPI net params attempt
             = ([EvAcquire attempt; EvRequest attempt params; EvRelease attempt],
                Failure e))).
Proof.
  split; [intros jitter|]; intros net params attempt e Hlt Hnet; split.
  - rewrite <- isRetryableFree_spec. now apply retried_iff_retryable.
  - intros Hn. unfold Free.callTranslationAPI.
    rewrite (not_retryable_propagates _ _ _ _ _ _ _ _ _ e Hnet); [reflexivity|].
    destruct (isRetryableFree e) eqn:E; [|reflexivity].
    apply isRetryableFree_spec in E. contradiction.
  - rewrite <- isRetryableKeyed_spec. now apply retried_iff_retryable.
  - intros Hn. unfold Keyed.callTranslationAPI.
    rewrite (not_retryable_propagates _ _ _ _ _ _ _ _ _ e Hnet); [reflexivity|].
    destruct (isRetryableKeyed e) eqn:E; [|reflexivity].
    apply isRetryableKeyed_spec in E. contradiction.
Qed.

Lemma retry_policy_of_the_clients_witness :
  retriedByFree (statusError 503)
  /\ In 1 (attemptsOf
             (fst (Free.callTranslationAPI someJitter
                     (alwaysFails (statusError 503)) holaFree 0))).
Proof.
  assert (H : retriedByFree (statusError 503)).
  { split; [reflexivity|]. right; right; right; right.
    exists 503%Z. split; [reflexivity | lia]. }
  split; [exact H|].
  apply (proj1 retry_policy_of_the_clients someJitter
           (alwaysFails (statusError 503)) holaFree 0 (statusError 503)).
  - unfold Free.RETRIES. lia.
  - reflexivity.
  - exact H.
Defined.

(** C4 as stated fails twice.  A request that got no response and did not
    time out is none of "timeout, 429, status >= 500", yet the free client
    retries it; a 429 is one of them, yet the keyed client does not retry
    it. *)
Lemma retry_policy_counterexample :
  (specRetryable networkError = false
   /\ attemptsOf
        (fst (Free.callTranslationAPI someJitter
                (failsFirst 1 networkError helloResponse) holaFree 0))
      = [0; 1])
  /\ (specRetryable (statusError 429) = true
      /\ Keyed.callTranslationAPI (alwaysFails (statusError 429)) holaKeyed 0
         = ([EvAcquire 0; EvRequest 0 holaKeyed; EvRelease 0],
            Failure (statusError 429))).
Proof.
  repeat split.
Qed.

(** C5.  When every attempt of a call fails with a retryable failure, the
    requests sent are those of the attempts [0] to [RETRIES], one each, and
    the call settles with the failure of the last one.  Whatever the network
    does, a call sends at most [RETRIES + 1] requests: the recursion is on
    [RETRIES - attempt], which every retry decreases. *)
Theorem retries_exhausted_after_all_attempts
  (Params Response : Type) (RETRIES : nat) (isRetryable : JsError -> bool)
  (delay : nat -> Z) (limited : bool)
  (net : Params -> nat -> Outcome Response) (params : Params) :
  (forall a, a <= RETRIES ->
             exists e, net params a = Failure e /\ isRetryable e = true) ->
  attemptsOf
    (fst (callTranslationAPI RETRIES isRetryable delay limited net params 0))
  = seq 0 (RETRIES + 1)
  /\ snd (callTranslationAPI RETRIES isRetryable delay limited net params 0)
     = net params RETRIES
  /\ (exists e,
        snd (callTranslationAPI RETRIES isRetryable delay limited net params 0)
        = Failure e)
  /\ (forall net' : Params -> nat -> Outcome Response,
        List.length
          (attemptsOf
             (fst (callTranslationAPI RETRIES isRetryable delay limited net'
                     params 0)))
        <= RETRIES + 1).
Proof.
  intros Hall.
  destruct (attempts_exhausted _ _ RETRIES isRetryable delay limited net params
              RETRIES 0 (Nat.sub_0_r _) (Nat.le_0_l _) Hall) as [Ha Ho].
  rewrite attemptsOf_call, outcome_call, Nat.add_1_r.
  repeat split; try assumption.
  - destruct (Hall RETRIES (Nat.le_refl _)) as (e & He & _).
    exists e. now rewrite Ho.
  - intros net'. rewrite attemptsOf_call.
    destruct (attempts_consecutive _ _ RETRIES isRetryable delay limited net'
                params RETRIES 0 (Nat.sub_0_r _)) as (k & _ & Hk & E).
    rewrite E, length_seq. lia.
Qed.

Lemma retries_exhausted_after_all_attempts_witness :
  attemptsOf
    (fst (Free.callTranslationAPI someJitter (alwaysFails timeoutError)
            holaFree 0))
  = [0; 1; 2; 3; 4; 5]
  /\ snd (Free.callTranslationAPI someJitter (alwaysFails timeoutError)
            holaFree 0)
     = Failure timeoutError.
Proof.
  destruct (retries_exhausted_after_all_attempts
              Free.Params Free.Response Free.RETRIES isRetryableFree
              (Free.retryDelay someJitter) true (alwaysFails timeoutError)
              holaFree)
    as (Ha & Ho & _).
  - intros a _. exists timeoutError. split; reflexivity.
  - split; [exact Ha | exact Ho].
Defined.

End ClientsRetry.

(** ** Permits held along a retry chain *)

Section PermitsAlongRetries.
Import JsString Executor Samples.
Local Open Scope Z_scope.

Variables Params Response : Type.
Variable RETRIES : nat.
Variable isRetryable : JsError -> bool.
Variable delay : nat -> Z.
Variable net : Params -> nat -> Outcome Response.

Local Abbreviation afterAcquire :=
  (afterAcquire RETRIES isRetryable delay true net).

Lemma holding_afterAcquire (params : Params) (d attempt : nat) :
  (RETRIES - attempt)%nat = d ->
  Forall (@permitsInHand Params)
    (holding 1 (fst (afterAcquire params attempt)))
  /\ heldAfter 1 (fst (afterAcquire params attempt)) = 0
  /\ handsOver (fst (afterAcquire params attempt)).
Proof.
  revert attempt. induction d as [|d IH]; intros attempt Hd.
  all: destruct (afterAcquire_cases _ _ RETRIES isRetryable delay true net
                   params attempt) as [E | (e & Hnet & Hlt & Hr)].
  all: try (exfalso; lia).
  1, 2: rewrite E; simpl; repeat split;
    [ repeat constructor; unfold permitsInHand; simpl; lia
    | intros [|x [|y [|z pre]]] a ms post H; discriminate H ].
  rewrite (afterAcquire_retry _ _ _ _ _ _ _ _ _ _ Hnet Hlt Hr).
  destruct (IH (S attempt)) as (Hf & Hend & Hover); [lia|].
  simpl. repeat split.
  - repeat (constructor; [unfold permitsInHand; simpl; lia|]). exact Hf.
  - exact Hend.
  - intros pre a ms post H.
    destruct pre as [|x pre]; [discriminate H|].
    injection H as _ H.
    destruct pre as [|y pre].
    { injection H as -> _ <-. eexists. reflexivity. }
    injection H as _ H.
    destruct pre as [|z pre]; [discriminate H|]. injection H as _ H.
    destruct pre as [|u pre]; [discriminate H|]. injection H as _ H.
    exact (Hover pre a ms post H).
Qed.

End PermitsAlongRetries.

Section PermitsOfTheFreeClient.
Import JsString Executor Samples.
Local Open Scope Z_scope.

(** C10, as the code has it.  In a limited client the permit of an attempt is
    held while its request is in flight and during its backoff delay; it is
    given back by [finally] as soon as the retry has been started, that is
    right after the next attempt has called [acquire()], because the retry's
    promise is returned without being awaited.  So one permit is in hand at
    every request and every delay, two only between the [acquire()] of a retry
    and the [release()] that follows it at once, and none when the call has
    settled. *)
Theorem permit_handed_over_at_retry
  (Params Response : Type) (RETRIES : nat) (isRetryable : JsError -> bool)
  (delay : nat -> Z) (net : Params -> nat -> Outcome Response)
  (params : Params) :
  Forall (@permitsInHand Params)
    (holding 0
       (fst (callTranslationAPI RETRIES isRetryable delay true net params 0)))
  /\ heldAfter 0
       (fst (callTranslationAPI RETRIES isRetryable delay true net params 0))
     = 0
  /\ handsOver
       (fst (callTranslationAPI RETRIES isRetryable delay true net params 0)).
Proof.
  destruct (holding_afterAcquire Params Response RETRIES isRetryable delay net
              params (RETRIES - 0) 0 eq_refl) as (Hf & Hend & Hover).
  unfold callTranslationAPI.
  destruct (afterAcquire RETRIES isRetryable delay true net params 0)
    as [events outcome].
  simpl in *. repeat split.
  - constructor; [unfold permitsInHand; simpl; lia | exact Hf].
  - exact Hend.
  - intros pre a ms post H.
    destruct pre as [|x pre]; [discriminate H|].
    injection H as _ H. exact (Hover pre a ms post H).
Qed.

(** C10 as stated fails: with two failures with status 500 and then a
    success, the permit of attempt 0 is released before the request of
    attempt 1 is sent, and one permit, not three, is in hand when the request
    of attempt 2 is sent. *)
Lemma permits_in_retry_chain_counterexample :
  fst (Free.callTranslationAPI someJitter
         (failsFirst 2 (statusError 500) helloResponse) holaFree 0)
  = [EvAcquire 0; EvRequest 0 holaFree; EvDelay 0 620;
     EvAcquire 1; EvRelease 0; EvRequest 1 holaFree; EvDelay 1 1275;
     EvAcquire 2; EvRelease 1; EvRequest 2 holaFree; EvRelease 2]
  /\ In (EvRequest 2 holaFree, 1)
       (holding 0
          (fst (Free.callTranslationAPI someJitter
                  (failsFirst 2 (statusError 500) helloResponse) holaFree 0)))
  /\ ~ In (EvRequest 2 holaFree, 3)
         (holding 0
            (fst (Free.callTranslationAPI someJitter
                    (failsFirst 2 (statusError 500) helloResponse) holaFree 0))).
Proof.
  assert (E : fst (Free.callTranslationAPI someJitter
                     (failsFirst 2 (statusError 500) helloResponse) holaFree 0)
              = [EvAcquire 0; EvRequest 0 holaFree; EvDelay 0 620;
                 EvAcquire 1; EvRelease 0; EvRequest 1 holaFree; EvDelay 1 1275;
                 EvAcquire 2; EvRelease 1; EvRequest 2 holaFree; EvRelease 2])
    by reflexivity.
  rewrite E. split; [reflexivity|]. split.
  - simpl. do 9 right. now left.
  - simpl. intros H.
    repeat (destruct H as [H | H]; [discriminate H|]). exact H.
Qed.

End PermitsOfTheFreeClient.

(** ** Insertion-ordered maps *)

Section JsMapFacts.
Import JsString.
Variable V : Type.
Implicit Types (m : JsMap.t V) (k key : jsstring) (v : V).

Lemma get_set_same key v m : JsMap.get key (JsMap.set key v m) = Some v.
Proof.
  induction m as [|[k x] r IH]; simpl.
  - now rewrite eqb_refl.
  - destruct (eqb k key) eqn:E; simpl; rewrite E; [reflexivity | exact IH].
Qed.

Lemma get_none_iff key m : JsMap.get key m = None <-> ~ In key (JsMap.keys m).
Proof.
  induction m as [|[k x] r IH]; simpl.
  - split; [intros _ [] | reflexivity].
  - destruct (eqb k key) eqn:E.
    + apply eqb_eq in E. subst k. split; [discriminate|]. intros H. elim H. now left.
    + apply eqb_neq in E. rewrite IH. split.
      * intros H [H1 | H1]; [congruence | contradiction].
      * intros H H1. apply H. now right.
Qed.

Lemma set_absent key v m :
  ~ In key (JsMap.keys m) -> JsMap.set key v m = m ++ [(key, v)].
Proof.
  induction m as [|[k x] r IH]; simpl; intros H; [reflexivity|].
  destruct (eqb k key) eqn:E.
  - apply eqb_eq in E. elim H. now left.
  - f_equal. apply IH. intros H1. apply H. now right.
Qed.

Lemma length_set_le key v m :
  List.length (JsMap.set key v m) <= S (List.length m).
Proof.
  induction m as [|[k x] r IH]; simpl; [lia|].
  destruct (eqb k key); simpl; lia.
Qed.

Lemma length_delete_le key m :
  List.length (JsMap.delete key m) <= List.length m.
Proof.
  induction m as [|[k x] r IH]; simpl; [lia|].
  destruct (eqb k key); simpl; lia.
Qed.

Lemma length_delete_present key m :
  In key (JsMap.keys m) ->
  S (List.length (JsMap.delete key m)) = List.length m.
Proof.
  induction m as [|[k x] r IH]; simpl; intros H; [contradiction|].
  destruct (eqb k key) eqn:E; [reflexivity|].
  apply eqb_neq in E. destruct H as [H | H]; [congruence|].
  simpl. f_equal. now apply IH.
Qed.

Lemma keys_delete_incl key m :
  incl (JsMap.keys (JsMap.delete key m)) (JsMap.keys m).
Proof.
  induction m as [|[k x] r IH]; simpl; [apply incl_refl|].
  destruct (eqb k key); simpl.
  - apply incl_tl, incl_refl.
  - intros y [<- | Hy]; [now left | right; now apply IH].
Qed.

Lemma keys_set_incl key v m :
  incl (JsMap.keys (JsMap.set key v m)) (key :: JsMap.keys m).
Proof.
  induction m as [|[k x] r IH]; simpl.
  - apply incl_refl.
  - destruct (eqb k key); simpl.
    + intros y Hy. now right.
    + intros y [<- | Hy]; [right; now left|].
      destruct (IH y Hy) as [<- | H]; [now left | right; now right].
Qed.

End JsMapFacts.

(** ** The cache with expiry *)

Section TtlCacheFacts.
Import JsString TtlCache.
Local Open Scope Z_scope.

Local Abbreviation sweep c now := (fold_left (dropExpired c now)).

Lemma dropExpired_eq c now (m : JsMap.t CacheEntry) kv :
  dropExpired c now m kv
  = if expired c now (snd kv) then JsMap.delete (fst kv) m else m.
Proof. reflexivity. Qed.

Lemma older_eq k t (kv : jsstring * CacheEntry) :
  older (Some k, Some t) kv
  = if timestamp (snd kv) <? t
    then (Some (fst kv), Some (timestamp (snd kv)))
    else (Some k, Some t).
Proof. reflexivity. Qed.

Lemma sweep_shrinks c now (l : list (jsstring * CacheEntry))
  (m : JsMap.t CacheEntry) :
  (List.length (sweep c now l m) <= List.length m)%nat
  /\ incl (JsMap.keys (sweep c now l m)) (JsMap.keys m).
Proof.
  revert m. induction l as [|kv l IH]; intros m; simpl.
  - split; [lia | apply incl_refl].
  - rewrite !dropExpired_eq. destruct (expired c now (snd kv)).
    + destruct (IH (JsMap.delete (fst kv) m)) as [H1 H2]. split.
      * pose proof (length_delete_le _ (fst kv) m). lia.
      * eapply incl_tran; [exact H2 | apply keys_delete_incl].
    + apply IH.
Qed.

Lemma sweep_nothing c now (l : list (jsstring * CacheEntry))
  (m : JsMap.t CacheEntry) :
  (forall kv, In kv l -> expired c now (snd kv) = false) ->
  sweep c now l m = m.
Proof.
  revert m. induction l as [|kv l IH]; intros m H; simpl; [reflexivity|].
  rewrite dropExpired_eq, (H kv) by now left. apply IH. intros kv' H'. apply H. now right.
Qed.

Local Abbreviation scan := (fold_left older).

Lemma scan_from_some (l : list (jsstring * CacheEntry)) k t :
  exists k' t', scan l (Some k, Some t) = (Some k', Some t')
                /\ In k' (k :: map fst l).
Proof.
  revert k t. induction l as [|kv l IH]; intros k t; cbn [fold_left].
  - exists k, t. split; [reflexivity | now left].
  - rewrite older_eq. destruct (timestamp (snd kv) <? t).
    + destruct (IH (fst kv) (timestamp (snd kv))) as (k' & t' & E & Hin).
      exists k', t'. split; [exact E|]. right. exact Hin.
    + destruct (IH k t) as (k' & t' & E & Hin).
      exists k', t'. split; [exact E|].
      destruct Hin as [<- | Hin]; [now left | right; now right].
Qed.

Lemma scan_keeps_oldest (l : list (jsstring * CacheEntry)) k t :
  (forall kv, In kv l -> t <= timestamp (snd kv)) ->
  scan l (Some k, Some t) = (Some k, Some t).
Proof.
  revert k t; induction l as [|kv l IH]; intros k t H; cbn [fold_left];
    [reflexivity|].
  rewrite older_eq.
  destruct (Z.ltb_spec (timestamp (snd kv)) t) as [Hlt|_].
  - specialize (H kv (or_introl eq_refl)). lia.
  - apply IH. intros kv' H'. apply H. now right.
Qed.

Lemma findOldestEntry_in c :
  cache c <> [] ->
  exists k, findOldestEntry c = Some k /\ In k (JsMap.keys (cache c)).
Proof.
  unfold findOldestEntry. destruct (cache c) as [|kv l]; [congruence|].
  intros _.
  change (scan (kv :: l) (None, None))
    with (scan l (Some (fst kv), Some (timestamp (snd kv)))).
  destruct (scan_from_some l (fst kv) (timestamp (snd kv))) as (k' & t' & E & Hin).
  rewrite E. exists k'. split; [reflexivity | exact Hin].
Qed.

Lemma findOldestEntry_head c k e l :
  cache c = (k, e) :: l ->
  (forall kv, In kv l -> timestamp e <= timestamp (snd kv)) ->
  findOldestEntry c = Some k.
Proof.
  intros Hc H. unfold findOldestEntry. rewrite Hc.
  change (scan ((k, e) :: l) (None, None))
    with (scan l (Some k, Some (timestamp e))).
  now rewrite scan_keeps_oldest.
Qed.

Lemma scan_minimal (l : list (jsstring * CacheEntry)) : forall k e,
  exists k' e',
    scan l (Some k, Some (timestamp e)) = (Some k', Some (timestamp e'))
    /\ In (k', e') ((k, e) :: l)
    /\ timestamp e' <= timestamp e
    /\ (forall kv, In kv l -> timestamp e' <= timestamp (snd kv)).
Proof.
  induction l as [|[k1 e1] l IH]; intros k e; cbn [fold_left].
  - exists k, e. repeat split; [now left | lia | intros kv []].
  - rewrite older_eq. cbn [fst snd].
    destruct (Z.ltb_spec (timestamp e1) (timestamp e)) as [Hlt|Hge].
    + destruct (IH k1 e1) as (k' & e' & E & Hin & Hle & Hall).
      exists k', e'. repeat split; [exact E | now right | lia |].
      intros kv [<- | Hkv]; [exact Hle | now apply Hall].
    + destruct (IH k e) as (k' & e' & E & Hin & Hle & Hall).
      exists k', e'. repeat split; [exact E | | exact Hle |].
      * destruct Hin as [Hin | Hin]; [now left | right; now right].
      * intros kv [<- | Hkv]; [simpl; lia | now apply Hall].
Qed.

(** [findOldestEntry] gives the key of an entry of least timestamp. *)
Lemma findOldestEntry_minimal c :
  cache c <> [] ->
  exists k e,
    findOldestEntry c = Some k
    /\ In (k, e) (cache c)
    /\ (forall kv, In kv (cache c) -> timestamp e <= timestamp (snd kv)).
Proof.
  unfold findOldestEntry. destruct (cache c) as [|[k0 e0] l]; [congruence|].
  intros _.
  change (scan ((k0, e0) :: l) (None, None))
    with (scan l (Some k0, Some (timestamp e0))).
  destruct (scan_minimal l k0 e0) as (k & e & E & Hin & Hle & Hall).
  rewrite E. exists k, e. repeat split; [exact Hin|].
  intros kv [<- | Hkv]; [exact Hle | now apply Hall].
Qed.

(** Size at most [maxSize] and no empty key. *)
Lemma set_keeps_sound nowClean nowStamp key value c :
  1 <= maxSize c -> truthy key = true -> sound c ->
  sound (set nowClean nowStamp key value c)
  /\ maxSize (set nowClean nowStamp key value c) = maxSize c
  /\ ttl (set nowClean nowStamp key value c) = ttl c.
Proof.
  intros Hmax Hkey [Hsize Hkeys].
  unfold set.
  set (c1 := cleanExpired nowClean c).
  assert (H1 : (List.length (cache c1) <= List.length (cache c))%nat
               /\ incl (JsMap.keys (cache c1)) (JsMap.keys (cache c))).
  { apply sweep_shrinks. }
  destruct H1 as [Hlen1 Hincl1].
  assert (Hm1 : maxSize c1 = maxSize c) by reflexivity.
  match goal with
  | |- context [withCache ?x _] => set (c2 := x)
  end.
  assert (H2 : (Z.of_nat (List.length (cache c2)) + 1 <= maxSize c)
               /\ incl (JsMap.keys (cache c2)) (JsMap.keys (cache c))
               /\ maxSize c2 = maxSize c /\ ttl c2 = ttl c).
  { subst c2. unfold JsMap.size in *.
    destruct (Z.geb_spec (Z.of_nat (List.length (cache c1))) (maxSize c1)) as [Hge|Hlt].
    - assert (Hne : cache c1 <> []).
      { intros E. rewrite E in Hge. simpl in Hge. lia. }
      destruct (findOldestEntry_in c1 Hne) as (k & -> & Hin).
      assert (Hk : truthy k = true).
      { apply (proj1 (Forall_forall _ _) Hkeys). now apply Hincl1. }
      rewrite Hk.
      pose proof (length_delete_present _ k (cache c1) Hin).
      unfold c1, cleanExpired in *. simpl in *.
      split; [lia|]. split; [|split; reflexivity].
      eapply incl_tran; [apply keys_delete_incl | exact Hincl1].
    - split; [lia|]. split; [exact Hincl1 | split; reflexivity]. }
  destruct H2 as (Hlen2 & Hincl2 & Hm2 & Ht2).
  split; [split|split]; simpl; try assumption.
  - unfold JsMap.size. rewrite Hm2.
    pose proof (length_set_le _ key {| value := value; timestamp := nowStamp |}
                  (cache c2)).
    lia.
  - apply Forall_forall. intros k Hk.
    apply keys_set_incl in Hk. destruct Hk as [<- | Hk]; [exact Hkey|].
    apply (proj1 (Forall_forall _ _) Hkeys). now apply Hincl2.
Qed.

End TtlCacheFacts.

Section TtlCacheRuns.
Import JsString TtlCache.
Local Open Scope Z_scope.

Lemma cleanExpired_nothing now c :
  (forall kv, In kv (cache c) -> expired c now (snd kv) = false) ->
  cleanExpired now c = withCache c (cache c).
Proof.
  intros H. unfold cleanExpired. now rewrite sweep_nothing.
Qed.

(** Below capacity, with nothing expired, [set] of a new key appends. *)
Lemma set_appends nowClean nowStamp key value c :
  (forall kv, In kv (cache c) -> expired c nowClean (snd kv) = false) ->
  JsMap.size (cache c) < maxSize c ->
  ~ In key (JsMap.keys (cache c)) ->
  set nowClean nowStamp key value c
  = withCache c
      (cache c ++ [(key, {| value := value; timestamp := nowStamp |})]).
Proof.
  intros Hfresh Hsize Hnew. unfold set.
  rewrite cleanExpired_nothing by assumption. simpl.
  destruct (Z.geb_spec (JsMap.size (cache c)) (maxSize c)) as [Hge|_]; [lia|].
  simpl. unfold withCache. simpl. now rewrite set_absent.
Qed.

(** At capacity, with nothing expired and the oldest entry first, [set] of a
    new key drops the first entry and appends. *)
Lemma set_evicts_head nowClean nowStamp key value c k e l :
  cache c = (k, e) :: l ->
  (forall kv, In kv (cache c) -> expired c nowClean (snd kv) = false) ->
  maxSize c <= JsMap.size (cache c) ->
  (forall kv, In kv l -> timestamp e <= timestamp (snd kv)) ->
  truthy k = true ->
  ~ In key (JsMap.keys l) ->
  set nowClean nowStamp key value c
  = withCache c (l ++ [(key, {| value := value; timestamp := nowStamp |})]).
Proof.
  intros Hc Hfresh Hsize Hold Hk Hnew. unfold set.
  rewrite cleanExpired_nothing by assumption. simpl.
  destruct (Z.geb_spec (JsMap.size (cache c)) (maxSize c)) as [_|Hlt]; [|lia].
  rewrite (findOldestEntry_head (withCache c (cache c)) k e l Hc Hold), Hk.
  unfold withCache. simpl. rewrite Hc. simpl. rewrite eqb_refl.
  now rewrite set_absent.
Qed.

(** When the purge leaves the cache at capacity, [set] deletes one of the
    entries that are left, one of least timestamp, and then stores the new
    one. *)
Lemma set_at_capacity nowClean nowStamp key value c :
  1 <= maxSize c <= JsMap.size (cache (cleanExpired nowClean c)) ->
  Forall (fun k => truthy k = true) (JsMap.keys (cache c)) ->
  exists k e,
    In (k, e) (cache (cleanExpired nowClean c))
    /\ (forall kv, In kv (cache (cleanExpired nowClean c)) ->
                   timestamp e <= timestamp (snd kv))
    /\ cache (set nowClean nowStamp key value c)
       = JsMap.set key {| value := value; timestamp := nowStamp |}
           (JsMap.delete k (cache (cleanExpired nowClean c))).
Proof.
  intros Hsize Hkeys. unfold set.
  set (c1 := cleanExpired nowClean c) in *.
  assert (Hm1 : maxSize c1 = maxSize c) by reflexivity.
  destruct (Z.geb_spec (JsMap.size (cache c1)) (maxSize c1)) as [_|Hlt]; [|lia].
  assert (Hne : cache c1 <> []).
  { intros E. rewrite E in Hsize. unfold JsMap.size in Hsize.
    simpl in Hsize. lia. }
  destruct (findOldestEntry_minimal c1 Hne) as (k & e & -> & Hin & Hmin).
  assert (Hk : truthy k = true).
  { apply (proj1 (Forall_forall _ _) Hkeys).
    apply (proj2 (sweep_shrinks c nowClean (cache c) (cache c))).
    change k with (fst (k, e)). apply in_map. exact Hin. }
  rewrite Hk. exists k, e. repeat split; assumption.
Qed.

Lemma setAll_app ops ops' c :
  setAll (ops ++ ops') c = setAll ops' (setAll ops c).
Proof. apply fold_left_app. Qed.

(** While there is room and nothing expires, a run of [set] calls with new
    keys appends its entries in order. *)
Lemma setAll_fills ops : forall c,
  NoDup (map keyOf ops) ->
  (forall op, In op ops -> ~ In (keyOf op) (JsMap.keys (cache c))) ->
  (forall kv op, In kv (cache c) -> In op ops ->
                 expired c (cleanTimeOf op) (snd kv) = false) ->
  (forall op op', In op ops -> In op' ops ->
                  cleanTimeOf op' - stampOf op <= ttl c) ->
  Z.of_nat (List.length (cache c) + List.length ops) <= maxSize c ->
  setAll ops c = withCache c (cache c ++ map entryOf ops).
Proof.
  induction ops as [|op ops IH]; intros c Hnd Hnew Hfresh Httl Hroom.
  - simpl. rewrite app_nil_r. now destruct c.
  - destruct op as [[[key value] nowClean] nowStamp] eqn:Eop.
    change (setAll ((key, value, nowClean, nowStamp) :: ops) c)
      with (setAll ops (set nowClean nowStamp key value c)).
    inversion Hnd as [|? ? Hhead Hrest]; subst.
    rewrite set_appends.
    + rewrite IH.
      * unfold withCache. simpl. now rewrite <- app_assoc.
      * exact Hrest.
      * intros op' Hop'. simpl. unfold JsMap.keys. rewrite map_app.
        intros Hin. apply in_app_or in Hin. destruct Hin as [Hin | [Hin | []]].
        -- revert Hin. apply Hnew. now right.
        -- simpl in Hin. apply Hhead. change (In key (map keyOf ops)).
           rewrite Hin. now apply in_map.
      * intros kv op' Hkv Hop'. simpl in Hkv.
        apply in_app_or in Hkv. destruct Hkv as [Hkv | [<- | []]].
        -- apply (Hfresh kv op' Hkv). now right.
        -- unfold expired. simpl.
           pose proof (Httl (key, value, nowClean, nowStamp) op'
                         (or_introl eq_refl) (or_intror Hop')) as Hle.
           unfold stampOf in Hle. simpl in Hle.
           destruct (Z.gtb_spec (cleanTimeOf op' - nowStamp) (ttl c)); [lia|].
           reflexivity.
      * intros o o' Ho Ho'. simpl. apply Httl; now right.
      * simpl. rewrite length_app. simpl in *. lia.
    + intros kv Hkv. apply (Hfresh kv (key, value, nowClean, nowStamp) Hkv).
      now left.
    + unfold JsMap.size. simpl in Hroom. lia.
    + apply (Hnew (key, value, nowClean, nowStamp)). now left.
Qed.

(** [maxSize + 1] new keys into an empty cache, nothing expiring on the way:
    the entries of all but the first operation remain. *)
Lemma setAll_overflow (size ttl0 : Z) ops :
  1 <= size ->
  Z.of_nat (List.length ops) = size + 1 ->
  NoDup (map keyOf ops) ->
  Forall (fun op => truthy (keyOf op) = true) ops ->
  withinTtl ttl0 ops ->
  cache (setAll ops (new size ttl0)) = map entryOf (tl ops).
Proof.
  intros Hsize Hlen Hnd Hkeys [Httl Hsorted].
  destruct (exists_last (l:=ops)) as (front & last & ->).
  { intros ->. simpl in Hlen. lia. }
  rewrite length_app in Hlen. simpl in Hlen.
  rewrite setAll_app.
  assert (Hfront : setAll front (new size ttl0)
                   = withCache (new size ttl0) (map entryOf front)).
  { rewrite setAll_fills; simpl.
    - reflexivity.
    - rewrite map_app in Hnd. now apply NoDup_app_remove_r in Hnd.
    - intros op _ [].
    - intros kv op [].
    - intros op op' Ho Ho'. apply Httl; apply in_or_app; now left.
    - lia. }
  rewrite Hfront.
  destruct front as [|first front']; [simpl in Hlen; lia|].
  destruct last as [[[key value] nowClean] nowStamp].
  change (setAll [(key, value, nowClean, nowStamp)] ?c)
    with (set nowClean nowStamp key value c).
  destruct (entryOf first) as [k e] eqn:Ef.
  rewrite (set_evicts_head nowClean nowStamp key value _ k e
             (map entryOf front')).
  - simpl. now rewrite map_app.
  - simpl. now rewrite Ef.
  - intros kv Hkv. cbn [cache withCache] in Hkv.
    apply in_map_iff in Hkv as (op & <- & Hop).
    unfold expired. simpl.
    assert (Hle : cleanTimeOf (key, value, nowClean, nowStamp) - stampOf op
                  <= ttl0).
    { apply Httl; apply in_or_app; [now left | right; now left]. }
    unfold stampOf in Hle. simpl in Hle.
    destruct (Z.gtb_spec (nowClean - timestamp (snd (entryOf op))) ttl0);
      [lia | reflexivity].
  - unfold JsMap.size. simpl. rewrite length_map. simpl in Hlen. lia.
  - intros kv Hkv. apply in_map_iff in Hkv as (op & <- & Hop).
    simpl in Hsorted. apply StronglySorted_inv in Hsorted as [_ Hall].
    rewrite Forall_forall in Hall.
    assert (Hin : In (stampOf op)
                    (map stampOf (front' ++ [(key, value, nowClean, nowStamp)]))).
    { apply in_map, in_or_app. now left. }
    specialize (Hall _ Hin). unfold stampOf in Hall. rewrite Ef in Hall.
    exact Hall.
  - rewrite Forall_forall in Hkeys.
    specialize (Hkeys first (or_introl eq_refl)).
    unfold keyOf in Hkeys. now rewrite Ef in Hkeys.
  - simpl in Hnd. apply NoDup_cons_iff in Hnd as [_ Hnd].
    rewrite map_app in Hnd. simpl in Hnd.
    apply NoDup_remove_2 in Hnd. rewrite app_nil_r in Hnd.
    unfold JsMap.keys. rewrite map_map. exact Hnd.
Qed.

End TtlCacheRuns.

(** ** The cache without expiry *)

Section FifoCacheRuns.
Import JsString FifoCache.
Local Open Scope Z_scope.

Lemma fifo_set_keeps_capacity key value c :
  1 <= maxSize c -> JsMap.size (cache c) <= maxSize c ->
  JsMap.size (cache (set key value c)) <= maxSize (set key value c).
Proof.
  intros Hmax Hsize. unfold set, JsMap.size in *. simpl.
  pose proof (length_set_le _ key value (cache c)) as H0.
  destruct (Z.geb_spec (Z.of_nat (List.length (cache c))) (maxSize c)) as [Hge|Hlt].
  - destruct (cache c) as [|[k v] l] eqn:Ec; simpl in *; [lia|].
    rewrite eqb_refl.
    pose proof (length_set_le _ key value l). lia.
  - lia.
Qed.

Lemma fifo_set_appends key value c :
  JsMap.size (cache c) < maxSize c ->
  ~ In key (JsMap.keys (cache c)) ->
  set key value c = withCache c (cache c ++ [(key, value)]).
Proof.
  intros Hsize Hnew. unfold set.
  destruct (Z.geb_spec (JsMap.size (cache c)) (maxSize c)) as [Hge|_]; [lia|].
  now rewrite set_absent.
Qed.

Lemma fifo_set_evicts_head key value c k v l :
  cache c = (k, v) :: l ->
  maxSize c <= JsMap.size (cache c) ->
  ~ In key (JsMap.keys l) ->
  set key value c = withCache c (l ++ [(key, value)]).
Proof.
  intros Hc Hsize Hnew. unfold set.
  destruct (Z.geb_spec (JsMap.size (cache c)) (maxSize c)) as [_|Hlt]; [|lia].
  rewrite Hc. simpl. rewrite eqb_refl. now rewrite set_absent.
Qed.

(** At capacity, [set] deletes the first entry and then stores the new
    one. *)
Lemma fifo_set_at_capacity key value c k v l :
  cache c = (k, v) :: l ->
  maxSize c <= JsMap.size (cache c) ->
  cache (set key value c) = JsMap.set key value l.
Proof.
  intros Hc Hsize. unfold set.
  destruct (Z.geb_spec (JsMap.size (cache c)) (maxSize c)) as [_|Hlt]; [|lia].
  rewrite Hc. simpl. now rewrite eqb_refl.
Qed.

Lemma fifo_setAll_app ops ops' c :
  setAll (ops ++ ops') c = setAll ops' (setAll ops c).
Proof. apply fold_left_app. Qed.

Lemma fifo_setAll_fills ops : forall c,
  NoDup (map fst ops) ->
  (forall op, In op ops -> ~ In (fst op) (JsMap.keys (cache c))) ->
  Z.of_nat (List.length (cache c) + List.length ops) <= maxSize c ->
  setAll ops c = withCache c (cache c ++ ops).
Proof.
  induction ops as [|[key value] ops IH]; intros c Hnd Hnew Hroom.
  - simpl. rewrite app_nil_r. now destruct c.
  - change (setAll ((key, value) :: ops) c) with (setAll ops (set key value c)).
    inversion Hnd as [|? ? Hhead Hrest]; subst.
    rewrite fifo_set_appends.
    + rewrite IH.
      * unfold withCache. simpl. now rewrite <- app_assoc.
      * exact Hrest.
      * intros op' Hop'. simpl. unfold JsMap.keys. rewrite map_app.
        intros Hin. apply in_app_or in Hin. destruct Hin as [Hin | [Hin | []]].
        -- revert Hin. apply Hnew. now right.
        -- simpl in Hin. apply Hhead. simpl. rewrite Hin. now apply in_map.
      * simpl. rewrite length_app. simpl in *. lia.
    + unfold JsMap.size. simpl in Hroom. lia.
    + apply (Hnew (key, value)). now left.
Qed.

Lemma fifo_setAll_overflow (size : Z) ops :
  1 <= size ->
  Z.of_nat (List.length ops) = size + 1 ->
  NoDup (map fst ops) ->
  cache (setAll ops (new size)) = tl ops.
Proof.
  intros Hsize Hlen Hnd.
  destruct (exists_last (l:=ops)) as (front & [key value] & ->).
  { intros ->. simpl in Hlen. lia. }
  rewrite length_app in Hlen. simpl in Hlen.
  rewrite fifo_setAll_app.
  assert (Hfront : setAll front (new size) = withCache (new size) front).
  { rewrite fifo_setAll_fills; simpl.
    - reflexivity.
    - rewrite map_app in Hnd. now apply NoDup_app_remove_r in Hnd.
    - intros op _ [].
    - lia. }
  rewrite Hfront.
  destruct front as [|[k v] front']; [simpl in Hlen; lia|].
  change (setAll [(key, value)] ?c) with (set key value c).
  rewrite (fifo_set_evicts_head key value _ k v front').
  - reflexivity.
  - reflexivity.
  - unfold JsMap.size. simpl. simpl in Hlen. lia.
  - simpl in Hnd. apply NoDup_cons_iff in Hnd as [_ Hnd].
    rewrite map_app in Hnd. simpl in Hnd.
    apply NoDup_remove_2 in Hnd. rewrite app_nil_r in Hnd. exact Hnd.
Qed.

End FifoCacheRuns.

(** ** Capacity and eviction of the two caches *)

Section CacheCapacity.
Import JsString.
Local Open Scope Z_scope.

Lemma generateCacheKey_truthy (sl tl text : jsstring) :
  truthy (generateCacheKey sl tl text) = true.
Proof. unfold generateCacheKey. now destruct sl. Qed.

Lemma tl_map (A B : Type) (f : A -> B) (l : list A) :
  tl (map f l) = map f (tl l).
Proof. now destruct l. Qed.

(** What is left once the first of the [size + 1] entries is gone. *)
Lemma tail_of_overflow (V : Type) (size : Z) (entries : JsMap.t V) :
  1 <= size ->
  Z.of_nat (List.length entries) = size + 1 ->
  NoDup (JsMap.keys entries) ->
  JsMap.size (tl entries) = size
  /\ JsMap.keys (tl entries) = tl (JsMap.keys entries)
  /\ (forall first, hd_error (JsMap.keys entries) = Some first ->
                    JsMap.get first (tl entries) = None).
Proof.
  intros Hsize Hlen Hnd.
  destruct entries as [|[k v] l]; [simpl in Hlen; lia|].
  change (List.length ((k, v) :: l)) with (S (List.length l)) in Hlen.
  rewrite Nat2Z.inj_succ in Hlen.
  change (JsMap.keys ((k, v) :: l)) with (k :: JsMap.keys l) in *.
  cbn [tl hd_error]. unfold JsMap.size. repeat split; [lia|].
  intros first [= <-]. apply get_none_iff.
  now apply NoDup_cons_iff in Hnd.
Qed.

(** C6, as the code has it.  For a capacity of at least one and keys that
    are not the empty string (every key built by [generateCacheKey] is such),
    [set] keeps either cache within its capacity.  At capacity, [set] deletes
    exactly one entry before it stores the new one: the first entry in the
    cache without expiry, and, in the cache with expiry, when the purge of the
    expired entries leaves it at capacity, one of the remaining entries of
    least timestamp.  Putting [maxSize + 1] distinct
    keys into an empty cache leaves exactly [maxSize] entries, those of all
    the keys but the first: always in the cache without expiry, and in the
    cache with expiry when no entry expires during the run and the clock does
    not go back. *)
Theorem cache_capacity_and_eviction :
  (forall sl tl text, truthy (generateCacheKey sl tl text) = true)
  /\ (forall nowClean nowStamp key value c,
         1 <= TtlCache.maxSize c -> truthy key = true -> TtlCache.sound c ->
         TtlCache.sound (TtlCache.set nowClean nowStamp key value c))
  /\ (forall nowClean nowStamp key value c,
         1 <= TtlCache.maxSize c
         <= JsMap.size (TtlCache.cache (TtlCache.cleanExpired nowClean c)) ->
         Forall (fun k => truthy k = true) (JsMap.keys (TtlCache.cache c)) ->
         exists k e,
           In (k, e) (TtlCache.cache (TtlCache.cleanExpired nowClean c))
           /\ (forall kv,
                  In kv (TtlCache.cache (TtlCache.cleanExpired nowClean c)) ->
                  TtlCache.timestamp e <= TtlCache.timestamp (snd kv))
           /\ TtlCache.cache (TtlCache.set nowClean nowStamp key value c)
              = JsMap.set key
                  {| TtlCache.value := value; TtlCache.timestamp := nowStamp |}
                  (JsMap.delete k
                     (TtlCache.cache (TtlCache.cleanExpired nowClean c))))
  /\ (forall size ttl ops,
         1 <= size -> Z.of_nat (List.length ops) = size + 1 ->
         NoDup (map TtlCache.keyOf ops) ->
         Forall (fun op => truthy (TtlCache.keyOf op) = true) ops ->
         TtlCache.withinTtl ttl ops ->
         let c := TtlCache.setAll ops (TtlCache.new size ttl) in
         JsMap.size (TtlCache.cache c) = size
         /\ JsMap.keys (TtlCache.cache c) = tl (map TtlCache.keyOf ops)
         /\ (forall first, hd_error (map TtlCache.keyOf ops) = Some first ->
                           JsMap.get first (TtlCache.cache c) = None))
  /\ (forall key value c,
         1 <= FifoCache.maxSize c ->
         JsMap.size (FifoCache.cache c) <= FifoCache.maxSize c ->
         JsMap.size (FifoCache.cache (FifoCache.set key value c))
         <= FifoCache.maxSize (FifoCache.set key value c))
  /\ (forall key value c k v l,
         FifoCache.cache c = (k, v) :: l ->
         FifoCache.maxSize c <= JsMap.size (FifoCache.cache c) ->
         FifoCache.cache (FifoCache.set key value c) = JsMap.set key value l)
  /\ (forall size ops,
         1 <= size -> Z.of_nat (List.length ops) = size + 1 ->
         NoDup (map fst ops) ->
         let c := FifoCache.setAll ops (FifoCache.new size) in
         JsMap.size (FifoCache.cache c) = size
         /\ JsMap.keys (FifoCache.cache c) = tl (map fst ops)
         /\ (forall first, hd_error (map fst ops) = Some first ->
                           JsMap.get first (FifoCache.cache c) = None)).
Proof.
  split; [exact generateCacheKey_truthy|].
  split; [intros; now apply set_keeps_sound|].
  split; [intros; now apply set_at_capacity|].
  split.
  { intros size ttl ops Hsize Hlen Hnd Hkeys Httl c. subst c.
    rewrite (setAll_overflow size ttl ops) by assumption.
    assert (Ek : JsMap.keys (map TtlCache.entryOf ops) = map TtlCache.keyOf ops).
    { unfold JsMap.keys, TtlCache.keyOf. now rewrite map_map. }
    destruct (tail_of_overflow _ size (map TtlCache.entryOf ops))
      as (H1 & H2 & H3).
    - exact Hsize.
    - now rewrite length_map.
    - now rewrite Ek.
    - rewrite Ek in *. rewrite <- tl_map. repeat split; assumption. }
  split; [intros; now apply fifo_set_keeps_capacity|].
  split; [intros; eapply fifo_set_at_capacity; eassumption|].
  intros size ops Hsize Hlen Hnd c. subst c.
  rewrite (fifo_setAll_overflow size ops) by assumption.
  now apply tail_of_overflow.
Qed.

Lemma cache_capacity_and_eviction_witness :
  JsMap.keys
    (FifoCache.cache
       (FifoCache.setAll
          [(str "es-en-a", str "A"); (str "es-en-b", str "B");
           (str "es-en-c", str "C")]
          (FifoCache.new 2)))
  = [str "es-en-b"; str "es-en-c"]
  /\ JsMap.keys
       (TtlCache.cache
          (TtlCache.setAll
             [(str "es-en-a", str "A", 0, 0); (str "es-en-b", str "B", 1, 1);
              (str "es-en-c", str "C", 9, 10)]
             (TtlCache.new 2 10)))
     = [str "es-en-b"; str "es-en-c"].
Proof.
  destruct cache_capacity_and_eviction as (_ & _ & _ & Httl & _ & _ & Hfifo).
  split.
  - refine (proj1 (proj2 (Hfifo 2
                            [(str "es-en-a", str "A"); (str "es-en-b", str "B");
                             (str "es-en-c", str "C")] _ _ _))).
    + lia.
    + reflexivity.
    + repeat constructor; simpl; intuition discriminate.
  - refine (proj1 (proj2 (Httl 2 10
                            [(str "es-en-a", str "A", 0, 0);
                             (str "es-en-b", str "B", 1, 1);
                             (str "es-en-c", str "C", 9, 10)] _ _ _ _ _))).
    + lia.
    + reflexivity.
    + repeat constructor; simpl; intuition discriminate.
    + repeat constructor.
    + split.
      * intros op op' H H'. simpl in H, H'.
        destruct H as [<- | [<- | [<- | []]]];
          destruct H' as [<- | [<- | [<- | []]]]; vm_compute; discriminate.
      * repeat (apply SSorted_cons || apply SSorted_nil
                || apply Forall_cons || apply Forall_nil);
          vm_compute; discriminate.
Defined.

(** C6 as stated fails in the cache with expiry: with a capacity of 2 and a
    time to live of 10, a third key put at time 100 after two keys put at
    times 0 and 1 finds both expired, and one entry is left, not two. *)
Lemma cache_capacity_counterexample :
  JsMap.keys
    (TtlCache.cache
       (TtlCache.setAll
          [(str "es-en-a", str "A", 0, 0); (str "es-en-b", str "B", 1, 1);
           (str "es-en-c", str "C", 100, 100)]
          (TtlCache.new 2 10)))
  = [str "es-en-c"]
  /\ JsMap.size
       (TtlCache.cache
          (TtlCache.setAll
             [(str "es-en-a", str "A", 0, 0); (str "es-en-b", str "B", 1, 1);
              (str "es-en-c", str "C", 100, 100)]
             (TtlCache.new 2 10)))
     <> 2.
Proof.
  split; [reflexivity|]. vm_compute. discriminate.
Qed.

End CacheCapacity.

(** ** The free client: a second call is served from the cache *)

Section FreeClientCache.
Import JsString Executor StateM Free.
Local Open Scope Z_scope.

Variable env : Env.

Lemma ttl_set nowClean nowStamp key value c :
  TtlCache.ttl (TtlCache.set nowClean nowStamp key value c) = TtlCache.ttl c.
Proof.
  unfold TtlCache.set. simpl.
  destruct (JsMap.size _ >=? _); [|reflexivity].
  destruct (TtlCache.findOldestEntry _) as [k|]; [|reflexivity].
  now destruct (truthy k).
Qed.

Lemma get_after_set nowClean nowStamp key value c :
  JsMap.get key (TtlCache.cache (TtlCache.set nowClean nowStamp key value c))
  = Some {| TtlCache.value := value; TtlCache.timestamp := nowStamp |}.
Proof. unfold TtlCache.set. simpl. apply get_set_same. Qed.

(** [cache.set] as the orchestrator sees it. *)
Lemma cacheSet_eq key value w :
  cacheSet env key value w
  = (tt, {| theCache :=
              TtlCache.set (clock env (ticks w)) (clock env (S (ticks w)))
                key value (theCache w);
            ticks := S (S (ticks w));
            calls := calls w |}).
Proof. reflexivity. Qed.

(** A response that [processTranslationResponse] accepts is stored under the
    key it was given. *)
Lemma processTranslationResponse_ok response key w v w' :
  processTranslationResponse env response key w = (Ok v, w') ->
  w' = snd (cacheSet env key v w).
Proof.
  unfold processTranslationResponse.
  destruct (Free.data response) as [| | | | |items|]; try discriminate.
  destruct items as [|main rest]; try discriminate.
  destruct main as [| | | | |sentences|]; try discriminate.
  destruct (translatedPartsOf sentences) as [|p ps]; try discriminate.
  unfold bind, ret. rewrite !cacheSet_eq. simpl.
  now intros [= <- <-].
Qed.

(** A hit: the entry is there, not expired, and not the empty string. *)
Lemma translate_hit targetLang sourceLang t w v stamp :
  truthy (normalizeText t) = true ->
  JsMap.get (generateCacheKey sourceLang targetLang (normalizeText t))
    (TtlCache.cache (theCache w))
  = Some {| TtlCache.value := v; TtlCache.timestamp := stamp |} ->
  clock env (ticks w) - stamp <= TtlCache.ttl (theCache w) ->
  truthy v = true ->
  translate env targetLang sourceLang t w
  = (Ok v, {| theCache := theCache w; ticks := S (ticks w); calls := calls w |}).
Proof.
  intros Hne Hget Hfresh Hv.
  unfold translate, translateStart, bind. rewrite Hne. simpl negb. cbv iota.
  unfold cacheGet, bind, dateNow. simpl.
  unfold TtlCache.get. rewrite Hget. unfold TtlCache.expired. simpl.
  destruct (Z.gtb_spec (clock env (ticks w) - stamp) (TtlCache.ttl (theCache w)));
    [lia|].
  rewrite Hv. reflexivity.
Qed.

(** The call after a miss: one invocation of [callTranslationAPI], and, when
    it succeeds, the translation stored under the key. *)
Lemma miss_then_resume targetLang sourceLang cleaned key w0 v w1 :
  len cleaned <= MAX_TEXT_LENGTH ->
  bind (startAfterMiss env targetLang sourceLang cleaned key)
    (translateResume env) w0
  = (Ok v, w1) ->
  calls w1
  = calls w0 ++ [{| source := sourceLang; target := targetLang; q := cleaned |}]
  /\ ticks w1 = S (S (ticks w0))
  /\ TtlCache.ttl (theCache w1) = TtlCache.ttl (theCache w0)
  /\ JsMap.get key (TtlCache.cache (theCache w1))
     = Some {| TtlCache.value := v;
               TtlCache.timestamp := clock env (S (ticks w0)) |}.
Proof.
  intros Hlen. unfold startAfterMiss.
  destruct (Z.gtb_spec (len cleaned) MAX_TEXT_LENGTH) as [Hgt|_]; [lia|].
  unfold bind, startCall, ret, translateResume.
  destruct (settle env _ _) as [response|error]; [|discriminate].
  unfold bind.
  destruct (processTranslationResponse env response key _) as [r w'] eqn:Ep.
  destruct r as [v'|m]; [|discriminate].
  unfold ret, wrapError. intros [= <- <-].
  apply processTranslationResponse_ok in Ep. subst w'.
  rewrite cacheSet_eq. cbn [snd theCache ticks calls].
  rewrite get_after_set, ttl_set.
  repeat split.
Qed.

Lemma cacheGet_world key w :
  calls (snd (cacheGet env key w)) = calls w
  /\ TtlCache.ttl (theCache (snd (cacheGet env key w)))
     = TtlCache.ttl (theCache w).
Proof.
  unfold cacheGet, bind, dateNow. unfold TtlCache.get.
  destruct (JsMap.get _ _) as [entry|]; [|now simpl].
  cbn [theCache ticks calls].
  destruct (TtlCache.expired _ _ _); now simpl.
Qed.

(** What a call that misses the cache and succeeds does. *)
Lemma translate_miss targetLang sourceLang t w v w1 :
  truthy (normalizeText t) = true ->
  len (normalizeText t) <= MAX_TEXT_LENGTH ->
  cacheMiss env (generateCacheKey sourceLang targetLang (normalizeText t)) w ->
  translate env targetLang sourceLang t w = (Ok v, w1) ->
  calls w1
  = calls w ++ [{| source := sourceLang; target := targetLang;
                   q := normalizeText t |}]
  /\ TtlCache.ttl (theCache w1) = TtlCache.ttl (theCache w)
  /\ exists lastTick,
       ticks w1 = S lastTick
       /\ JsMap.get (generateCacheKey sourceLang targetLang (normalizeText t))
            (TtlCache.cache (theCache w1))
          = Some {| TtlCache.value := v;
                    TtlCache.timestamp := clock env lastTick |}.
Proof.
  intros Hne Hlen Hmiss.
  unfold translate, translateStart. rewrite Hne. cbn [negb].
  unfold cacheMiss in Hmiss.
  destruct (cacheGet_world
              (generateCacheKey sourceLang targetLang (normalizeText t)) w)
    as (Hc0 & Httl0).
  unfold bind at 1 2.
  destruct (cacheGet env _ w) as [cached w0].
  simpl in Hmiss, Hc0, Httl0.
  intros Hrun.
  assert (Hrun' :
            bind (startAfterMiss env targetLang sourceLang (normalizeText t)
                    (generateCacheKey sourceLang targetLang (normalizeText t)))
              (translateResume env) w0
            = (Ok v, w1)).
  { destruct cached as [v0|]; [rewrite Hmiss in Hrun|]; exact Hrun. }
  destruct (miss_then_resume _ _ _ _ _ _ _ Hlen Hrun') as (H1 & H2 & H3 & H4).
  rewrite H1, H3, Hc0, Httl0. split; [reflexivity|]. split; [reflexivity|].
  exists (S (ticks w0)). split; [exact H2 | exact H4].
Qed.

End FreeClientCache.

Section FreeClientTwice.
Import JsString Executor StateM Free Samples Scenes.
Local Open Scope Z_scope.

(** C1, as the code has it.  Let the normal form of the text be non-empty
    and no longer than [MAX_TEXT_LENGTH], and let a first call of [translate]
    miss the cache and succeed with a non-empty translation [v].  Then that
    call invoked [callTranslationAPI] exactly once and stored [v] under the
    key of (source language, target language, normal form).  A second call
    with the same arguments, made while the entry is not older than
    [CACHE_TTL], returns [v] and invokes nothing. *)
Theorem second_translate_is_served_from_cache
  (env : Env) (targetLang sourceLang t : jsstring) (w : World)
  (v : jsstring) (w1 : World) :
  truthy (normalizeText t) = true ->
  len (normalizeText t) <= MAX_TEXT_LENGTH ->
  TtlCache.ttl (theCache w) = CACHE_TTL ->
  cacheMiss env (generateCacheKey sourceLang targetLang (normalizeText t)) w ->
  translate env targetLang sourceLang t w = (Ok v, w1) ->
  truthy v = true ->
  clock env (ticks w1) - clock env (Nat.pred (ticks w1)) <= CACHE_TTL ->
  calls w1
  = calls w ++ [{| source := sourceLang; target := targetLang;
                   q := normalizeText t |}]
  /\ JsMap.get (generateCacheKey sourceLang targetLang (normalizeText t))
       (TtlCache.cache (theCache w1))
     = Some {| TtlCache.value := v;
               TtlCache.timestamp := clock env (Nat.pred (ticks w1)) |}
  /\ exists w2,
       translate env targetLang sourceLang t w1 = (Ok v, w2)
       /\ calls w2 = calls w1.
Proof.
  intros Hne Hlen Httl Hmiss Hrun Hv Hfresh.
  destruct (translate_miss env _ _ _ _ _ _ Hne Hlen Hmiss Hrun)
    as (Hcalls & Httl1 & lastTick & Hticks & Hget).
  rewrite Hticks in *. cbn [Nat.pred] in *.
  repeat split; [exact Hcalls | exact Hget |].
  eexists. split.
  - apply (translate_hit env _ _ _ _ _ _ Hne Hget); [|exact Hv].
    rewrite Hticks, Httl1, Httl. exact Hfresh.
  - reflexivity.
Qed.

Lemma second_translate_is_served_from_cache_witness :
  exists w2,
    translate echo (str "en") (str "es") (str "  Hola ")
      (snd (translate echo (str "en") (str "es") (str "  Hola ") initialWorld))
    = (Ok (str "Hola"), w2)
    /\ calls w2 = [holaFree].
Proof.
  destruct (second_translate_is_served_from_cache
              echo (str "en") (str "es") (str "  Hola ") initialWorld
              (str "Hola")
              (snd (translate echo (str "en") (str "es") (str "  Hola ")
                      initialWorld)))
    as (Hcalls & _ & w2 & Hsecond & Hsame).
  - reflexivity.
  - vm_compute. discriminate.
  - reflexivity.
  - exact I.
  - reflexivity.
  - reflexivity.
  - vm_compute. discriminate.
  - exists w2. split; [exact Hsecond|]. rewrite Hsame. exact Hcalls.
Defined.

(** C1 as stated fails.  Once the entry is older than [CACHE_TTL], the
    second call invokes [callTranslationAPI] again; and an empty translation,
    though stored, is never served, because [if (cached)] rejects the empty
    string. *)
Lemma second_translate_counterexample :
  (fst (translate slowSecondCall (str "en") (str "es") (str "Hola") initialWorld)
   = Ok (str "Hello")
   /\ calls (snd (translate slowSecondCall (str "en") (str "es") (str "Hola")
                    initialWorld))
      = [holaFree]
   /\ calls (snd (translate slowSecondCall (str "en") (str "es") (str "Hola")
                    (snd (translate slowSecondCall (str "en") (str "es")
                            (str "Hola") initialWorld))))
      = [holaFree; holaFree])
  /\ (fst (translate emptyTranslation (str "en") (str "es") (str "Hola")
             initialWorld)
      = Ok []
      /\ calls (snd (translate emptyTranslation (str "en") (str "es") (str "Hola")
                       (snd (translate emptyTranslation (str "en") (str "es")
                               (str "Hola") initialWorld))))
         = [holaFree; holaFree]).
Proof.
  repeat split; vm_compute; reflexivity.
Qed.

End FreeClientTwice.

(** ** The keyed client: one combined call for the short texts *)

Section KeyedBatch.
Import JsString Executor StateM Keyed.
Local Open Scope Z_scope.

Variable env : Env.

Lemma assign_middle (A : Type) (prefix : list A) (x v : A) (rest : list A) :
  assign (List.length prefix) v (prefix ++ x :: rest) = prefix ++ v :: rest.
Proof.
  induction prefix as [|p prefix IH]; simpl; [reflexivity|]. now rewrite IH.
Qed.

Lemma sortText_short sl tl c st index text :
  shortAndUncached sl tl c text ->
  sortText sl tl c st (index, text)
  = {| finalTranslations := finalTranslations st;
       batchTexts := batchTexts st ++ [normalizeText text];
       batchIndices := batchIndices st ++ [index];
       longTexts := longTexts st |}.
Proof.
  intros (Hne & Hlen & Hget). unfold sortText. rewrite Hne. cbn [negb].
  destruct (Z.gtb_spec (len (normalizeText text)) MAX_CHUNK_LENGTH); [lia|].
  now rewrite Hget.
Qed.

Lemma sort_all_short sl tl c texts : forall start st,
  Forall (shortAndUncached sl tl c) texts ->
  fold_left (sortText sl tl c) (combine (seq start (List.length texts)) texts) st
  = {| finalTranslations := finalTranslations st;
       batchTexts := batchTexts st ++ map normalizeText texts;
       batchIndices := batchIndices st ++ seq start (List.length texts);
       longTexts := longTexts st |}.
Proof.
  induction texts as [|text texts IH]; intros start st Hall.
  - simpl. rewrite !app_nil_r. now destruct st.
  - inversion Hall as [|? ? Hhead Hrest]; subst.
    cbn [List.length seq combine fold_left map].
    rewrite sortText_short by assumption.
    rewrite IH by assumption. cbn [finalTranslations batchTexts batchIndices longTexts].
    now rewrite <- !app_assoc.
Qed.

Lemma distributeAll_fills sl tl results : forall prefix batch w,
  List.length batch = List.length results ->
  exists w',
    distributeAll sl tl (prefix ++ repeat None (List.length results))
      (combine results
         (combine (seq (List.length prefix) (List.length results)) batch)) w
    = (prefix ++ map Some results, w')
    /\ calls w' = calls w.
Proof.
  induction results as [|r results IH]; intros prefix batch w Hlen.
  - exists w. simpl. now rewrite app_nil_r.
  - destruct batch as [|b batch]; [discriminate|].
    injection Hlen as Hlen.
    cbn [List.length seq combine repeat distributeAll distribute].
    unfold bind at 1 2. unfold cacheSet at 1. unfold ret at 1.
    rewrite assign_middle.
    destruct (IH (prefix ++ [Some r]) batch
                {| theCache := FifoCache.set (generateCacheKey sl tl b) r (theCache w);
                   calls := calls w |}) as (w' & E & Hc); [exact Hlen|].
    rewrite length_app, Nat.add_1_r, <- !app_assoc in E. simpl in E.
    exists w'. split; [exact E | exact Hc].
Qed.

End KeyedBatch.

Section FreeMultiple.
Import JsString Executor StateM Free.
Local Open Scope Z_scope.

Variable env : Env.

Lemma calls_cacheSet key value w :
  calls (snd (cacheSet env key value w)) = calls w.
Proof. reflexivity. Qed.

Lemma calls_processTranslationResponse response key w :
  calls (snd (processTranslationResponse env response key w)) = calls w.
Proof.
  unfold processTranslationResponse.
  destruct (Free.data response) as [| | | | |items|]; try reflexivity.
  destruct items as [|main rest]; try reflexivity.
  destruct main as [| | | | |sentences|]; try reflexivity.
  destruct (translatedPartsOf sentences); reflexivity.
Qed.

Lemma calls_mapM (A B : Type) (f : A -> M World B) (l : list A) :
  (forall a w, calls (snd (f a w)) = calls w) ->
  forall w, calls (snd (mapM f l w)) = calls w.
Proof.
  intros Hf. induction l as [|a l IH]; intros w; [reflexivity|].
  cbn [mapM]. unfold bind.
  specialize (Hf a w). destruct (f a w) as [b w1]. simpl in Hf.
  specialize (IH w1). destruct (mapM f l w1) as [bs w2]. simpl in *.
  congruence.
Qed.

Lemma calls_chunkResume task w :
  calls (snd (chunkResume env task w)) = calls w.
Proof.
  destruct task as [v | n params key]; [reflexivity|].
  unfold chunkResume. destruct (settle env n params); [|reflexivity].
  apply calls_processTranslationResponse.
Qed.

(** Nothing is invoked once [translate] has passed its first [await]. *)
Lemma calls_translateResume p w :
  calls (snd (translateResume env p w)) = calls w.
Proof.
  destruct p as [r | n params key | tasks key]; [reflexivity| |].
  - unfold translateResume. destruct (settle env n params); [|reflexivity].
    unfold bind.
    pose proof (calls_processTranslationResponse response key w) as H.
    now destruct (processTranslationResponse env response key w).
  - unfold translateResume, bind.
    pose proof (calls_mapM _ _ (chunkResume env) tasks calls_chunkResume w) as H.
    destruct (mapM (chunkResume env) tasks w) as [results w1]. simpl in H.
    destruct (allOk results); [|exact H].
    unfold bind. rewrite cacheSet_eq. exact H.
Qed.

(** Non-empty after normalisation, no longer than [MAX_TEXT_LENGTH], and
    absent from the cache. *)
Lemma translateStart_uncached targetLang sourceLang text w :
  shortAndUncached sourceLang targetLang (theCache w) text ->
  theCache (snd (translateStart env targetLang sourceLang text w)) = theCache w
  /\ calls (snd (translateStart env targetLang sourceLang text w))
     = calls w ++ [{| source := sourceLang; target := targetLang;
                      q := normalizeText text |}].
Proof.
  intros (Hne & Hlen & Hget).
  unfold translateStart. rewrite Hne. cbn [negb].
  unfold bind, cacheGet, dateNow, bind. cbn [theCache ticks calls].
  unfold TtlCache.get. rewrite Hget.
  unfold startAfterMiss.
  destruct (Z.gtb_spec (len (normalizeText text)) MAX_TEXT_LENGTH); [lia|].
  split; reflexivity.
Qed.

Lemma starts_uncached targetLang sourceLang texts : forall w,
  Forall (shortAndUncached sourceLang targetLang (theCache w)) texts ->
  calls (snd (mapM (translateStart env targetLang sourceLang) texts w))
  = calls w
    ++ map (fun text => {| source := sourceLang; target := targetLang;
                           q := normalizeText text |}) texts.
Proof.
  induction texts as [|text texts IH]; intros w Hall.
  - simpl. now rewrite app_nil_r.
  - inversion Hall as [|? ? Hhead Hrest]; subst.
    cbn [mapM map]. unfold bind.
    destruct (translateStart_uncached targetLang sourceLang text w Hhead)
      as [Hc Hk].
    destruct (translateStart env targetLang sourceLang text w) as [p w1].
    simpl in Hc, Hk.
    specialize (IH w1). rewrite Hc in IH. specialize (IH Hrest).
    destruct (mapM (translateStart env targetLang sourceLang) texts w1)
      as [ps w2].
    simpl in *. rewrite IH, Hk. now rewrite <- app_assoc.
Qed.

End FreeMultiple.

Section MultipleTexts.
Import JsString Executor StateM Samples Scenes.
Local Open Scope Z_scope.

(** C8, as the code has it.  In the keyed client, [translateMultiple] called
    with a non-empty list of texts that are non-empty after normalisation, no
    longer than the chunking limit and absent from the cache, invokes
    [callTranslationAPI] exactly once, with the list of the normalised texts
    as [q]; when that invocation succeeds with as many translations as texts,
    the result has the length of the input and holds at index [i] the
    [i]-th translation.  In the free client, [translateMultiple] called with
    such texts invokes [callTranslationAPI] once for every text. *)
Theorem translateMultiple_calls :
  (forall (env : Keyed.Env) (Pending : Type)
          (translateStart : jsstring -> jsstring -> jsstring
                            -> M Keyed.World Pending)
          (translateResume : Pending -> M Keyed.World (Result jsstring))
          (texts : list jsstring) (tl sl : jsstring) (w : Keyed.World)
          (results : list jsstring),
      texts <> [] ->
      Forall (Keyed.shortAndUncached sl tl (Keyed.theCache w)) texts ->
      Keyed.settle env (List.length (Keyed.calls w))
        {| Keyed.q := Keyed.Many (map normalizeText texts);
           Keyed.source := sl; Keyed.target := tl |}
      = Success {| Keyed.translations := Some results |} ->
      List.length results = List.length texts ->
      exists w',
        Keyed.translateMultiple env translateStart translateResume texts tl sl w
        = (Ok (map Some results), w')
        /\ Keyed.calls w'
           = Keyed.calls w
             ++ [{| Keyed.q := Keyed.Many (map normalizeText texts);
                    Keyed.source := sl; Keyed.target := tl |}])
  /\ (forall (env : Free.Env) (texts : list jsstring)
             (targetLang sourceLang : jsstring) (w : Free.World),
         Forall (Free.shortAndUncached sourceLang targetLang (Free.theCache w))
           texts ->
         Free.calls
           (snd (Free.translateMultiple env texts targetLang sourceLang w))
         = Free.calls w
           ++ map (fun text => {| Free.source := sourceLang;
                                  Free.target := targetLang;
                                  Free.q := normalizeText text |}) texts).
Proof.
  split.
  - intros env Pending translateStart translateResume texts tl sl w results
      Hne Hall Hsettle Hlen.
    unfold Keyed.translateMultiple.
    destruct texts as [|text texts'] eqn:Et; [congruence|]. rewrite <- Et in *.
    rewrite (sort_all_short sl tl (Keyed.theCache w) texts 0) by assumption.
    cbn [Keyed.finalTranslations Keyed.batchTexts Keyed.batchIndices
         Keyed.longTexts app mapM].
    unfold bind at 1. unfold ret at 1.
    unfold bind at 1. unfold Keyed.translateBatch.
    cbn [Keyed.batchTexts Keyed.batchIndices Keyed.finalTranslations].
    destruct (map normalizeText texts) as [|b bs] eqn:Eb.
    { rewrite Et in Eb. discriminate. }
    rewrite <- Eb in Hsettle |- *.
    unfold bind at 1. unfold Keyed.startCall at 1.
    rewrite Hsettle. cbn [Keyed.translations].
    rewrite length_map, Hlen, Nat.eqb_refl. cbn [negb].
    unfold bind at 1.
    destruct (distributeAll_fills sl tl results [] (map normalizeText texts)
                {| Keyed.theCache := Keyed.theCache w;
                   Keyed.calls :=
                     Keyed.calls w
                     ++ [{| Keyed.q := Keyed.Many (map normalizeText texts);
                            Keyed.source := sl; Keyed.target := tl |}] |})
      as (w' & E & Hc).
    { now rewrite length_map. }
    cbn [app List.length] in E. rewrite <- Hlen, E.
    exists w'. split; [reflexivity | exact Hc].
  - intros env texts targetLang sourceLang w Hall.
    unfold Free.translateMultiple, bind.
    pose proof (starts_uncached env targetLang sourceLang texts w Hall) as Hs.
    destruct (mapM (Free.translateStart env targetLang sourceLang) texts w)
      as [pendings w1].
    pose proof (calls_mapM _ _ (Free.translateResume env) pendings
                  (calls_translateResume env) w1) as Hr.
    destruct (mapM (Free.translateResume env) pendings w1) as [rs w2].
    simpl in *. congruence.
Qed.

Lemma translateMultiple_calls_witness :
  exists w',
    Keyed.translateMultiple twoTranslations noLongStart noLongResume
      [str " Hola "; adios] (str "en") (str "es") Keyed.initialWorld
    = (Ok [Some (str "Hello"); Some (str "Goodbye")], w')
    /\ Keyed.calls w'
       = [{| Keyed.q := Keyed.Many [str "Hola"; adios];
             Keyed.source := str "es"; Keyed.target := str "en" |}].
Proof.
  apply (proj1 translateMultiple_calls twoTranslations unit noLongStart
           noLongResume [str " Hola "; adios] (str "en") (str "es")
           Keyed.initialWorld [str "Hello"; str "Goodbye"]).
  - discriminate.
  - repeat constructor; vm_compute; discriminate.
  - reflexivity.
  - reflexivity.
Defined.

(** C8 as stated fails in the free client: its [translateMultiple] maps
    [translate] over the texts, so two uncached short texts give two
    invocations of [callTranslationAPI], one text each. *)
Lemma translateMultiple_counterexample :
  fst (Free.translateMultiple echo [str "Hola"; adios] (str "en") (str "es")
         Free.initialWorld)
  = Ok [str "Hola"; adios]
  /\ Free.calls
       (snd (Free.translateMultiple echo [str "Hola"; adios] (str "en")
               (str "es") Free.initialWorld))
     = [{| Free.source := str "es"; Free.target := str "en";
           Free.q := str "Hola" |};
        {| Free.source := str "es"; Free.target := str "en";
           Free.q := adios |}].
Proof.
  split; vm_compute; reflexivity.
Qed.

End MultipleTexts.

(** ** The [options] argument of [translate] *)

Section AbortSignal.
Import JsString Executor StateM FreeNoCache Samples.

(** C9, where the code breaks it.  [translate] accepts [options] and never
    reads it: whatever signal the caller supplies, the call does what it does
    without one, and no request handed to axios carries a signal.  An abort of
    the caller's controller therefore cannot reach a request in flight. *)
Theorem abort_signal_never_reaches_axios
  (env : Env) (targetLang sourceLang text : jsstring)
  (options : option Options) (w : World) :
  translate env targetLang sourceLang text options w
  = translate env targetLang sourceLang text None w
  /\ (forall n params,
        Forall (fun cfg => cfgSignal cfg = None) (requestsOf env n params))
  /\ (forall n params,
        requestsOf env n params
        = map (fun _ => axiosConfig params)
            (attemptsOf
               (fst (callTranslationAPI (jitter env n) (upstream env n)
                       params 0)))).
Proof.
  split; [reflexivity|].
  assert (H : forall (events : list (Event Params)) q,
             (forall a p, In (EvRequest a p) events -> p = q) ->
             flat_map (fun ev => match ev with
                                 | EvRequest _ p => [axiosConfig p]
                                 | _ => []
                                 end) events
             = map (fun _ => axiosConfig q) (attemptsOf events)).
  { induction events as [|ev events IH]; intros q Hq; [reflexivity|].
    cbn [flat_map attemptsOf].
    rewrite (IH q) by (intros a p Hin; apply (Hq a p); now right).
    destruct ev as [a | a p | a ms | a]; try reflexivity.
    simpl. now rewrite (Hq a p (or_introl eq_refl)). }
  assert (Hsame : forall n params a p,
             In (EvRequest a p)
               (fst (callTranslationAPI (jitter env n) (upstream env n)
                       params 0)) ->
             p = params).
  { intros n params a p. unfold callTranslationAPI, Executor.callTranslationAPI.
    destruct (afterAcquire RETRIES isRetryableFree
                (retryDelay (jitter env n)) false
                (upstream env n) params 0) as [events outcome] eqn:E.
    simpl. intros Hin.
    assert (Hev : events = fst (afterAcquire RETRIES isRetryableFree
                                  (retryDelay (jitter env n))
                                  false (upstream env n) params 0))
      by now rewrite E.
    rewrite Hev in Hin. clear E Hev.
    eapply requests_carry_params; [reflexivity | exact Hin]. }
  split.
  - intros n params. unfold requestsOf.
    rewrite (H _ params (Hsame n params)).
    apply Forall_forall. intros cfg Hin.
    apply in_map_iff in Hin as (a & <- & _). reflexivity.
  - intros n params. unfold requestsOf. apply H. apply Hsame.
Qed.

End AbortSignal.

(** ** Where the chunk limit does hold *)

Section ChunkLimit.
Import JsString Chunker.
Local Open Scope Z_scope.

Lemma lastIndexOfFrom_le c s : forall i fromIndex acc,
  acc <= fromIndex -> lastIndexOfFrom c s i fromIndex acc <= fromIndex.
Proof.
  induction s as [|d r IH]; intros i fromIndex acc Hacc; simpl; [exact Hacc|].
  destruct (Z.ltb_spec fromIndex i); [exact Hacc|].
  apply IH. destruct (d =? c)%N; lia.
Qed.

Lemma substring_length text a b :
  0 <= a <= b -> b <= len text ->
  len (substring text a b) = b - a.
Proof.
  intros Ha Hb. unfold substring, clamp, len in *.
  rewrite length_firstn, length_skipn. lia.
Qed.

Lemma substringFrom_length text a :
  0 <= a <= len text -> len (substringFrom text a) = len text - a.
Proof.
  intros Ha. unfold substringFrom, clamp, len in *.
  rewrite length_skipn. lia.
Qed.

Lemma splitLoop_bounded text maxChunkLength :
  0 < maxChunkLength ->
  forall fuel chunks currentIndex,
    0 <= currentIndex <= len text ->
    len text - currentIndex < Z.of_nat fuel ->
    Forall (fun chunk => len chunk <= maxChunkLength) chunks ->
    exists result,
      splitLoop fuel text maxChunkLength chunks currentIndex = Some result
      /\ Forall (fun chunk => len chunk <= maxChunkLength) result.
Proof.
  intros Hmax. induction fuel as [|fuel IH]; intros chunks ci Hci Hfuel Hall.
  - simpl in Hfuel.
    (* no iteration left: the index is already past the end *)
    exfalso. lia.
  - cbn [splitLoop].
    destruct (Z.ltb_spec ci (len text)) as [Hlt|Hge].
    + destruct (Z.geb_spec (ci + maxChunkLength) (len text)) as [Hlast|Hmore].
      * eexists. split; [reflexivity|].
        apply Forall_app. split; [exact Hall|]. constructor; [|constructor].
        rewrite substringFrom_length by lia. lia.
      * pose proof (lastIndexOfFrom_le SP text 0
                      (Z.max (ci + maxChunkLength) 0) (-1) ltac:(lia)) as Hsp.
        fold (lastIndexOf SP text (ci + maxChunkLength)) in Hsp.
        set (si := if lastIndexOf SP text (ci + maxChunkLength) <=? ci
                   then ci + maxChunkLength
                   else lastIndexOf SP text (ci + maxChunkLength)).
        assert (Hsi : ci < si <= ci + maxChunkLength).
        { subst si.
          destruct (Z.leb_spec (lastIndexOf SP text (ci + maxChunkLength)) ci);
            lia. }
        apply IH; [lia | lia |].
        apply Forall_app. split; [exact Hall|]. constructor; [|constructor].
        rewrite substring_length by lia. lia.
    + eexists. split; [reflexivity | exact Hall].
Qed.

(** The keyed client's chunker ends, for every text and every positive
    limit, and none of its chunks is longer than the limit. *)
Lemma splitTextIntoChunks_bounded text maxChunkLength :
  0 < maxChunkLength ->
  exists chunks,
    splitTextIntoChunks text maxChunkLength = Some chunks
    /\ Forall (fun chunk => len chunk <= maxChunkLength) chunks.
Proof.
  intros Hmax. unfold splitTextIntoChunks.
  apply splitLoop_bounded; [exact Hmax | unfold len; lia | | constructor].
  unfold len. lia.
Qed.

End ChunkLimit.

Section SplitTextLimit.
Import JsString Chunker.
Local Open Scope Z_scope.

Lemma dropWhile_length p (s : jsstring) :
  (List.length (dropWhile p s) <= List.length s)%nat.
Proof.
  induction s as [|c r IH]; simpl; [lia|].
  destruct (p c); simpl; lia.
Qed.

Lemma dropWhile_snoc_space (s : jsstring) :
  dropWhile isWhiteSpace (s ++ [SP]) = []
  \/ dropWhile isWhiteSpace (s ++ [SP]) = dropWhile isWhiteSpace s ++ [SP].
Proof.
  induction s as [|c r IH]; simpl; [now left|].
  destruct (isWhiteSpace c); [exact IH | now right].
Qed.

(** Trimming a chunk under construction removes at least its final space. *)
Lemma trim_snoc_space_length (body : jsstring) :
  len (trim (body ++ [SP])) <= len body.
Proof.
  unfold trim, trimStart, trimEnd, len.
  destruct (dropWhile_snoc_space body) as [-> | ->].
  - simpl. lia.
  - rewrite rev_app_distr. simpl rev at 2. cbn [app dropWhile].
    change (isWhiteSpace SP) with true. cbv iota.
    rewrite length_rev.
    pose proof (dropWhile_length isWhiteSpace (rev (dropWhile isWhiteSpace body))).
    pose proof (dropWhile_length isWhiteSpace body).
    rewrite length_rev in *. lia.
Qed.

Lemma flush_fits maxLength st :
  fits maxLength st ->
  Forall (fun chunk => len chunk <= maxLength) (flush (fst st) (snd st)).
Proof.
  destruct st as [chunks cur]. intros [Hall Hcur]. simpl in *. unfold flush.
  destruct Hcur as [-> | (body & -> & Hbody)]; [exact Hall|].
  destruct (truthy (body ++ [SP])); [|exact Hall].
  apply Forall_app. split; [exact Hall|]. constructor; [|constructor].
  pose proof (trim_snoc_space_length body). lia.
Qed.

Lemma wordStep_fits maxLength st word :
  len word <= maxLength -> fits maxLength st ->
  fits maxLength (wordStep maxLength st word).
Proof.
  intros Hword Hst. pose proof (flush_fits maxLength st Hst) as Hflush.
  destruct st as [chunks cur]. destruct Hst as [Hall Hcur]. simpl in *.
  unfold wordStep.
  destruct (Z.leb_spec (len cur + len word + 1) maxLength) as [Hfit|_].
  - split; [exact Hall|]. right. exists (cur ++ word).
    split; [now rewrite app_assoc|]. unfold len in *. rewrite length_app. lia.
  - split; [exact Hflush|]. right. now exists word.
Qed.

Lemma words_fit maxLength words : forall st,
  (forall word, In word words -> len word <= maxLength) ->
  fits maxLength st ->
  fits maxLength (fold_left (wordStep maxLength) words st).
Proof.
  induction words as [|w ws IH]; intros st Hwords Hst; [exact Hst|].
  cbn [fold_left]. apply IH.
  - intros word Hin. apply Hwords. now right.
  - apply wordStep_fits; [apply Hwords; now left | exact Hst].
Qed.

Lemma sentenceStep_fits maxLength st sentence :
  (len sentence > maxLength ->
   forall word, In word (split SP sentence) -> len word <= maxLength) ->
  fits maxLength st ->
  fits maxLength (sentenceStep maxLength st sentence).
Proof.
  intros Hwords Hst. pose proof (flush_fits maxLength st Hst) as Hflush.
  destruct st as [chunks cur]. destruct Hst as [Hall Hcur]. simpl in *.
  unfold sentenceStep.
  destruct (Z.leb_spec (len cur + len sentence) maxLength) as [Hfit|_].
  - split; [exact Hall|]. right. exists (cur ++ sentence).
    split; [now rewrite app_assoc|]. unfold len in *. rewrite length_app. lia.
  - destruct (Z.gtb_spec (len sentence) maxLength) as [Hlong|Hshort].
    + apply words_fit; [apply Hwords; lia|]. split; [exact Hflush | now left].
    + split; [exact Hflush|]. right. exists sentence. split; [reflexivity | lia].
Qed.

Lemma sentences_fit maxLength sentences : forall st,
  (forall sentence, In sentence sentences -> len sentence > maxLength ->
     forall word, In word (split SP sentence) -> len word <= maxLength) ->
  fits maxLength st ->
  fits maxLength (fold_left (sentenceStep maxLength) sentences st).
Proof.
  induction sentences as [|s ss IH]; intros st Hwords Hst; [exact Hst|].
  cbn [fold_left]. apply IH.
  - intros sentence Hin. apply Hwords. now right.
  - apply sentenceStep_fits; [apply Hwords; now left | exact Hst].
Qed.

(** The free client's chunker keeps to the limit as long as no sentence
    longer than the limit holds a word longer than the limit. *)
Lemma splitText_bounded_when_words_fit text maxLength :
  (forall sentence,
     In sentence (split NL (markSentences false text)) ->
     len sentence > maxLength ->
     forall word, In word (split SP sentence) -> len word <= maxLength) ->
  Forall (fun chunk => len chunk <= maxLength) (splitText text maxLength).
Proof.
  intros Hwords. unfold splitText.
  destruct (Z.leb_spec (len text) maxLength) as [Hshort|_].
  - constructor; [exact Hshort | constructor].
  - pose proof (sentences_fit maxLength _ ([], []) Hwords) as Hfit.
    destruct (fold_left (sentenceStep maxLength)
                (split NL (markSentences false text)) ([], []))
      as [chunks cur].
    apply (flush_fits maxLength (chunks, cur)). apply Hfit.
    split; [constructor | now left].
Qed.

End SplitTextLimit.

(* ===================================================================== *)
(** * Further properties of the code *)
(* ===================================================================== *)

(** ** The normaliser *)

Section Normaliser.
Import JsString.
Local Open Scope Z_scope.

Lemma dropWhile_head (s : jsstring) :
  match dropWhile isWhiteSpace s with
  | [] => True
  | c :: _ => isWhiteSpace c = false
  end.
Proof.
  induction s as [|c r IH]; simpl; [exact I|].
  destruct (isWhiteSpace c) eqn:E; [exact IH | exact E].
Qed.

Lemma dropWhile_fixed (s : jsstring) :
  match s with [] => True | c :: _ => isWhiteSpace c = false end ->
  dropWhile isWhiteSpace s = s.
Proof. destruct s as [|c r]; simpl; [reflexivity|]. now intros ->. Qed.

(** [trimEnd] only removes a suffix. *)
Lemma dropWhile_suffix (s : jsstring) :
  exists gone, s = gone ++ dropWhile isWhiteSpace s.
Proof.
  induction s as [|c r IH]; simpl; [now exists []|].
  destruct (isWhiteSpace c).
  - destruct IH as [gone E]. exists (c :: gone). simpl. now f_equal.
  - now exists [].
Qed.

Lemma trimEnd_prefix (s : jsstring) : exists gone, s = trimEnd s ++ gone.
Proof.
  unfold trimEnd. destruct (dropWhile_suffix (rev s)) as [gone E].
  exists (rev gone).
  rewrite <- (rev_involutive s), E at 1. now rewrite rev_app_distr.
Qed.

Lemma trimEnd_ends (s : jsstring) : endsNonWhite (trimEnd s).
Proof.
  unfold endsNonWhite, trimEnd. rewrite rev_involutive.
  apply dropWhile_fixed.
  pose proof (dropWhile_head (rev s)) as H.
  destruct (dropWhile isWhiteSpace (rev s)) as [|c r]; [exact I|].
  simpl. now rewrite H.
Qed.

(** The result of [trim] neither starts nor ends with white space. *)
Lemma trim_ends (s : jsstring) :
  match trim s with [] => True | c :: _ => isWhiteSpace c = false end
  /\ endsNonWhite (trim s).
Proof.
  split; [|apply trimEnd_ends].
  unfold trim, trimStart.
  pose proof (dropWhile_head s) as H.
  destruct (trimEnd_prefix (dropWhile isWhiteSpace s)) as [gone E].
  destruct (trimEnd (dropWhile isWhiteSpace s)) as [|c r]; [exact I|].
  rewrite E in H. exact H.
Qed.

Lemma trim_fixed (s : jsstring) :
  match s with [] => True | c :: _ => isWhiteSpace c = false end ->
  endsNonWhite s -> trim s = s.
Proof.
  intros Hhead Hlast. unfold trim, trimStart, trimEnd.
  rewrite (dropWhile_fixed s Hhead). unfold endsNonWhite in Hlast.
  rewrite Hlast. apply rev_involutive.
Qed.

Lemma trim_idempotent (s : jsstring) : trim (trim s) = trim s.
Proof. destruct (trim_ends s). now apply trim_fixed. Qed.

Lemma endsNonWhite_tail (c : char) (r : jsstring) :
  endsNonWhite (c :: r) -> r <> [] -> endsNonWhite r.
Proof.
  unfold endsNonWhite. simpl. intros H Hr.
  destruct (rev r) as [|d q] eqn:E.
  - apply (f_equal (@rev char)) in E. rewrite rev_involutive in E. now elim Hr.
  - simpl in *. destruct (isWhiteSpace d); [|reflexivity].
    apply (f_equal (@List.length char)) in H.
    pose proof (dropWhile_length isWhiteSpace (q ++ [c])).
    simpl in H. lia.
Qed.

Lemma endsNonWhite_single (c : char) :
  endsNonWhite [c] -> isWhiteSpace c = false.
Proof.
  unfold endsNonWhite. simpl. destruct (isWhiteSpace c); [discriminate | reflexivity].
Qed.

Lemma collapse_spaced (u : jsstring) :
  u <> [] -> endsNonWhite u ->
  forall b, spacedFrom b (collapseSpaces b u) = true.
Proof.
  induction u as [|c r IH]; intros Hne Hend b; [now elim Hne|].
  destruct r as [|d r'].
  - pose proof (endsNonWhite_single c Hend) as Hc. simpl. rewrite Hc. simpl.
    now rewrite Hc.
  - assert (Hr : endsNonWhite (d :: r')) by (eapply endsNonWhite_tail; [eassumption | discriminate]).
    specialize (IH ltac:(discriminate) Hr).
    cbn [collapseSpaces]. destruct (isWhiteSpace c) eqn:Hc.
    + destruct b.
      * apply IH.
      * cbn [spacedFrom]. change (isWhiteSpace SP) with true. cbv iota.
        rewrite N.eqb_refl. simpl. apply IH.
    + cbn [spacedFrom]. rewrite Hc. apply IH.
Qed.

(** X1.  The result of [normalizeText] has no white space at its ends, and
    its only white space is single spaces between other characters. *)
Theorem normalizeText_wellSpaced (t : jsstring) :
  wellSpaced (normalizeText t) = true.
Proof.
  unfold normalizeText. destruct (trim_ends t) as [Hhead Hend].
  destruct (trim t) as [|c r] eqn:E; [reflexivity|].
  pose proof (collapse_spaced (c :: r) ltac:(discriminate) Hend false) as H.
  cbn [collapseSpaces] in *. rewrite Hhead in *.
  cbn [wellSpaced spacedFrom] in *. rewrite Hhead in *. exact H.
Qed.

Lemma spaced_collapse (s : jsstring) :
  (spacedFrom true s = true -> forall b, collapseSpaces b s = s)
  /\ (spacedFrom false s = true -> collapseSpaces false s = s).
Proof.
  induction s as [|c r [IHt IHf]]; [split; [discriminate | reflexivity]|].
  cbn [spacedFrom collapseSpaces]. destruct (isWhiteSpace c) eqn:Hc.
  - split; [rewrite andb_false_r; discriminate|].
    intros H. apply andb_true_iff in H as [H Hr].
    apply andb_true_iff in H as [H _]. apply N.eqb_eq in H. subst c.
    now rewrite (IHt Hr true).
  - split; intros H; [intros b|]; now rewrite (IHf H).
Qed.

Lemma spaced_ends (s : jsstring) (b : bool) :
  spacedFrom b s = true -> endsNonWhite s.
Proof.
  revert b. induction s as [|c r IH]; intros b H; [reflexivity|].
  cbn [spacedFrom] in H.
  assert (Hr : exists b', spacedFrom b' r = true
                          /\ (r = [] -> isWhiteSpace c = false)).
  { destruct (isWhiteSpace c) eqn:Hc.
    - apply andb_true_iff in H as [_ Hr]. exists true. split; [exact Hr|].
      intros ->. discriminate Hr.
    - exists false. split; [exact H | reflexivity]. }
  destruct Hr as (b' & Hr & Hsingle). specialize (IH b' Hr).
  unfold endsNonWhite in *. simpl.
  destruct (rev r) as [|d q] eqn:E.
  - apply (f_equal (@rev char)) in E. rewrite rev_involutive in E.
    simpl. now rewrite (Hsingle E).
  - simpl in *. destruct (isWhiteSpace d); [|reflexivity].
    apply (f_equal (@List.length char)) in IH.
    pose proof (dropWhile_length isWhiteSpace q). simpl in IH. lia.
Qed.

(** X2.  A string that is already in normal form is left as it is; so
    normalising twice is normalising once. *)
Theorem normalizeText_fixed_point (s : jsstring) :
  wellSpaced s = true -> normalizeText s = s.
Proof.
  destruct s as [|c r]; [reflexivity|]. cbn [wellSpaced]. intros H.
  unfold normalizeText. rewrite trim_fixed.
  - now apply (proj1 (spaced_collapse (c :: r))).
  - cbn [spacedFrom] in H. destruct (isWhiteSpace c); [|reflexivity].
    rewrite andb_false_r in H. discriminate.
  - eapply spaced_ends. exact H.
Qed.

Lemma normalizeText_fixed_point_witness :
  normalizeText (str "Hola mundo. Adios") = str "Hola mundo. Adios".
Proof.
  apply normalizeText_fixed_point. reflexivity.
Defined.

Lemma nonWhite_collapse (b : bool) (s : jsstring) :
  nonWhite (collapseSpaces b s) = nonWhite s.
Proof.
  revert b. induction s as [|c r IH]; intros b; [reflexivity|].
  cbn [collapseSpaces]. destruct (isWhiteSpace c) eqn:Hc.
  - destruct b; simpl; rewrite Hc; simpl; apply IH.
  - simpl. rewrite Hc. simpl. now rewrite IH.
Qed.

Lemma collapse_length (b : bool) (s : jsstring) :
  (List.length (collapseSpaces b s) <= List.length s)%nat.
Proof.
  revert b. induction s as [|c r IH]; intros b; [reflexivity|].
  cbn [collapseSpaces]. destruct (isWhiteSpace c).
  - destruct b; simpl; [specialize (IH true) | specialize (IH true)]; lia.
  - simpl. specialize (IH false). lia.
Qed.

Lemma collapse_nil (s : jsstring) (b : bool) :
  collapseSpaces b s = [] -> nonWhite s = [].
Proof. intros H. rewrite <- (nonWhite_collapse b s), H. reflexivity. Qed.

(** X3.  [normalizeText] keeps the characters that are not white space, all
    of them and in order, never makes a text longer, and gives the empty
    string exactly for the texts that hold nothing but white space. *)
Theorem normalizeText_content (t : jsstring) :
  nonWhite (normalizeText t) = nonWhite t
  /\ len (normalizeText t) <= len t
  /\ (normalizeText t = [] <-> nonWhite t = []).
Proof.
  assert (H1 : nonWhite (normalizeText t) = nonWhite t).
  { unfold normalizeText. now rewrite nonWhite_collapse, nonWhite_trim. }
  split; [exact H1|]. split.
  - unfold normalizeText, len, trim, trimEnd, trimStart.
    pose proof (collapse_length false
                  (rev (dropWhile isWhiteSpace (rev (dropWhile isWhiteSpace t))))).
    rewrite length_rev in H.
    pose proof (dropWhile_length isWhiteSpace (rev (dropWhile isWhiteSpace t))).
    rewrite length_rev in H0.
    pose proof (dropWhile_length isWhiteSpace t). lia.
  - split.
    + intros E. now rewrite <- H1, E.
    + intros E. rewrite <- (nonWhite_trim t) in E.
      unfold normalizeText. destruct (trim_ends t) as [Hhead _].
      destruct (trim t) as [|c r]; [reflexivity|].
      simpl in E. rewrite Hhead in E. discriminate.
Qed.

End Normaliser.

(** ** Cache keys *)

Section CacheKeys.
Import JsString.

Lemma first_dash (a a' x x' : jsstring) :
  dashFree a -> dashFree a' ->
  a ++ DASH :: x = a' ++ DASH :: x' -> a = a' /\ x = x'.
Proof.
  revert a'. induction a as [|c a IH]; intros [|c' a'] Ha Ha' E; simpl in E.
  - now injection E.
  - injection E as E _. elim Ha'. left. now symmetry.
  - injection E as E _. elim Ha. now left.
  - injection E as -> E.
    destruct (IH a') as [-> ->]; try assumption; [| |now split].
    + intros H. apply Ha. now right.
    + intros H. apply Ha'. now right.
Qed.

(** X4.  For language codes without a dash the cache key determines the
    languages and the text: two different requests never share an entry.  A
    target code with a dash breaks this: the request for [text] into the
    language [a-b] and the request for [b-text] into the language [a] have
    the same key. *)
Theorem generateCacheKey_collisions :
  (forall sl tl text sl' tl' text',
      dashFree sl -> dashFree tl -> dashFree sl' -> dashFree tl' ->
      generateCacheKey sl tl text = generateCacheKey sl' tl' text' ->
      sl = sl' /\ tl = tl' /\ text = text')
  /\ (forall sl a b text,
         generateCacheKey sl (a ++ [DASH] ++ b) text
         = generateCacheKey sl a (b ++ [DASH] ++ text)).
Proof.
  split.
  - intros sl tl text sl' tl' text' Hs Ht Hs' Ht' E.
    unfold generateCacheKey in E. simpl in E.
    destruct (first_dash _ _ _ _ Hs Hs' E) as [-> E1].
    destruct (first_dash _ _ _ _ Ht Ht' E1) as [-> ->].
    repeat split.
  - intros sl a b text. unfold generateCacheKey.
    now rewrite <- !app_assoc.
Qed.

Lemma generateCacheKey_collisions_witness :
  str "es" = str "es" /\ str "en" = str "en" /\ str "Hola" = str "Hola".
Proof.
  apply (proj1 generateCacheKey_collisions (str "es") (str "en") (str "Hola")
           (str "es") (str "en") (str "Hola")).
  1-4: intros H; simpl in H; intuition discriminate.
  reflexivity.
Defined.

End CacheKeys.

(** ** The chunker of the keyed client *)

Section KeyedChunker.
Import JsString Chunker.
Local Open Scope Z_scope.

Lemma firstn_add (A : Type) (a b : nat) (l : list A) :
  firstn (a + b) l = firstn a l ++ firstn b (skipn a l).
Proof.
  revert l. induction a as [|a IH]; intros l; [reflexivity|].
  destruct l as [|x l]; simpl; [now rewrite firstn_nil|]. now rewrite IH.
Qed.

Lemma substring_cut text a b :
  0 <= a <= b -> b <= len text ->
  firstn (Z.to_nat a) text ++ substring text a b = firstn (Z.to_nat b) text.
Proof.
  intros Ha Hb. unfold substring, clamp, len in *.
  replace (Z.min (Z.max a 0) (Z.of_nat (List.length text))) with a by lia.
  replace (Z.min (Z.max b 0) (Z.of_nat (List.length text))) with b by lia.
  replace (Nat.min (Z.to_nat a) (Z.to_nat b)) with (Z.to_nat a) by lia.
  replace (Nat.max (Z.to_nat a) (Z.to_nat b)) with (Z.to_nat b) by lia.
  rewrite <- firstn_add. f_equal. lia.
Qed.

Lemma substringFrom_cut text a :
  0 <= a <= len text ->
  firstn (Z.to_nat a) text ++ substringFrom text a = text.
Proof.
  intros Ha. unfold substringFrom, clamp, len in *.
  replace (Z.min (Z.max a 0) (Z.of_nat (List.length text))) with a by lia.
  apply firstn_skipn.
Qed.

Lemma lastIndexOfFrom_range c s : forall i fromIndex acc,
  acc < i + len s -> lastIndexOfFrom c s i fromIndex acc < i + len s.
Proof.
  induction s as [|d r IH]; intros i fromIndex acc Hacc; simpl; [exact Hacc|].
  unfold len in *. cbn [List.length] in *. rewrite Nat2Z.inj_succ in *.
  destruct (fromIndex <? i); [lia|].
  specialize (IH (i + 1) fromIndex (if (d =? c)%N then i else acc)).
  destruct (d =? c)%N; lia.
Qed.

Lemma cutsUpTo_snoc text maxChunkLength chunks ci chunk si :
  cutsUpTo text maxChunkLength chunks ci ->
  firstn (Z.to_nat ci) text ++ chunk = firstn (Z.to_nat si) text ->
  0 < len chunk <= maxChunkLength ->
  cutsUpTo text maxChunkLength (chunks ++ [chunk]) si.
Proof.
  intros [Hc Hall] Hcut Hlen. split.
  - rewrite concat_app. simpl. now rewrite app_nil_r, Hc.
  - apply Forall_app. split; [exact Hall|]. now constructor.
Qed.

Lemma splitLoop_cuts text maxChunkLength :
  0 < maxChunkLength ->
  forall fuel chunks currentIndex,
    0 <= currentIndex <= len text ->
    len text - currentIndex < Z.of_nat fuel ->
    cutsUpTo text maxChunkLength chunks currentIndex ->
    exists result,
      splitLoop fuel text maxChunkLength chunks currentIndex = Some result
      /\ cutsUpTo text maxChunkLength result (len text).
Proof.
  intros Hmax. induction fuel as [|fuel IH]; intros chunks ci Hci Hfuel Hcuts.
  - exfalso. simpl in Hfuel. lia.
  - cbn [splitLoop].
    destruct (Z.ltb_spec ci (len text)) as [Hlt|Hge].
    + destruct (Z.geb_spec (ci + maxChunkLength) (len text)) as [Hlast|Hmore].
      * eexists. split; [reflexivity|].
        apply (cutsUpTo_snoc _ _ _ ci); [exact Hcuts | |].
        -- rewrite substringFrom_cut by lia.
           unfold len. now rewrite Nat2Z.id, firstn_all.
        -- rewrite substringFrom_length by lia. lia.
      * pose proof (lastIndexOfFrom_le SP text 0
                      (Z.max (ci + maxChunkLength) 0) (-1) ltac:(lia)) as Hsp.
        fold (lastIndexOf SP text (ci + maxChunkLength)) in Hsp.
        set (si := if lastIndexOf SP text (ci + maxChunkLength) <=? ci
                   then ci + maxChunkLength
                   else lastIndexOf SP text (ci + maxChunkLength)).
        assert (Hsi : ci < si <= ci + maxChunkLength).
        { subst si.
          destruct (Z.leb_spec (lastIndexOf SP text (ci + maxChunkLength)) ci);
            lia. }
        apply IH; [lia | lia |].
        apply (cutsUpTo_snoc _ _ _ ci); [exact Hcuts | |].
        -- apply substring_cut; lia.
        -- rewrite substring_length by lia. lia.
    + eexists. split; [reflexivity|].
      replace (len text) with ci by lia. exact Hcuts.
Qed.

(** X5.  For every text and every positive limit, [splitTextIntoChunks]
    ends; its chunks, put one after the other, are the text, character for
    character; and no chunk is empty or longer than the limit. *)
Theorem splitTextIntoChunks_partitions (text : jsstring) (maxChunkLength : Z) :
  0 < maxChunkLength ->
  exists chunks,
    splitTextIntoChunks text maxChunkLength = Some chunks
    /\ List.concat chunks = text
    /\ Forall (fun chunk => 0 < len chunk <= maxChunkLength) chunks.
Proof.
  intros Hmax. unfold splitTextIntoChunks.
  destruct (splitLoop_cuts text maxChunkLength Hmax (S (List.length text)) [] 0)
    as (result & E & Hc & Hall).
  - unfold len. lia.
  - unfold len. lia.
  - split; [reflexivity | constructor].
  - exists result. split; [exact E|]. split; [|exact Hall].
    rewrite Hc. unfold len. now rewrite Nat2Z.id, firstn_all.
Qed.

Lemma splitTextIntoChunks_partitions_witness :
  exists chunks,
    splitTextIntoChunks (str "uno dos tres cuatro") 8 = Some chunks
    /\ List.concat chunks = str "uno dos tres cuatro"
    /\ Forall (fun chunk => 0 < len chunk <= 8) chunks.
Proof.
  apply splitTextIntoChunks_partitions. lia.
Defined.

Lemma splitLoop_never_ends text maxChunkLength :
  maxChunkLength <= 0 ->
  forall fuel chunks currentIndex,
    currentIndex < len text ->
    splitLoop fuel text maxChunkLength chunks currentIndex = None.
Proof.
  intros Hmax. induction fuel as [|fuel IH]; intros chunks ci Hci;
    [reflexivity|].
  cbn [splitLoop].
  destruct (Z.ltb_spec ci (len text)) as [_|Hge]; [|lia].
  destruct (Z.geb_spec (ci + maxChunkLength) (len text)) as [Hlast|_]; [lia|].
  apply IH.
  pose proof (lastIndexOfFrom_range SP text 0
                (Z.max (ci + maxChunkLength) 0) (-1)) as Hr.
  fold (lastIndexOf SP text (ci + maxChunkLength)) in Hr.
  destruct (lastIndexOf SP text (ci + maxChunkLength) <=? ci); [lia|].
  apply Hr. unfold len. lia.
Qed.

(** X6.  With a limit of zero or less, the loop of [splitTextIntoChunks]
    never ends on a text that is not empty: however many iterations it is
    given, it has not returned. *)
Theorem splitTextIntoChunks_needs_positive_limit
  (text : jsstring) (maxChunkLength : Z) (fuel : nat) :
  maxChunkLength <= 0 -> text <> [] ->
  splitLoop fuel text maxChunkLength [] 0 = None.
Proof.
  intros Hmax Hne. apply splitLoop_never_ends; [exact Hmax|].
  destruct text; [congruence|]. unfold len. simpl. lia.
Qed.

Lemma splitTextIntoChunks_needs_positive_limit_witness :
  splitLoop 1000 (str "Hola") 0 [] 0 = None.
Proof.
  apply splitTextIntoChunks_needs_positive_limit; [lia | discriminate].
Defined.

End KeyedChunker.

(** ** The chunks of the free client's chunker *)

Section SplitTextShape.
Import JsString Chunker.
Local Open Scope Z_scope.

Lemma flush_tidy chunks cur :
  Forall (fun chunk => trim chunk = chunk) chunks ->
  Forall (fun chunk => trim chunk = chunk) (flush chunks cur).
Proof.
  intros H. unfold flush. destruct (truthy cur); [|exact H].
  apply Forall_app. split; [exact H|].
  constructor; [apply trim_idempotent | constructor].
Qed.

Lemma wordStep_tidy maxLength st word :
  tidy st -> tidy (wordStep maxLength st word) /\ snd (wordStep maxLength st word) <> [].
Proof.
  destruct st as [chunks cur]. unfold tidy, wordStep. simpl. intros H.
  destruct (len cur + len word + 1 <=? maxLength); simpl.
  - split; [exact H|]. destruct cur; [destruct word|]; discriminate.
  - split; [now apply flush_tidy|]. destruct word; discriminate.
Qed.

Lemma words_tidy maxLength words : forall st,
  tidy st -> words <> [] ->
  tidy (fold_left (wordStep maxLength) words st)
  /\ snd (fold_left (wordStep maxLength) words st) <> [].
Proof.
  induction words as [|w ws IH]; intros st Hst Hne; [now elim Hne|].
  cbn [fold_left]. destruct (wordStep_tidy maxLength st w Hst) as [H1 H2].
  destruct ws as [|w' ws']; [now split|].
  apply IH; [exact H1 | discriminate].
Qed.

Lemma sentenceStep_tidy maxLength st sentence :
  tidy st ->
  tidy (sentenceStep maxLength st sentence)
  /\ snd (sentenceStep maxLength st sentence) <> [].
Proof.
  destruct st as [chunks cur]. unfold sentenceStep. intros H.
  destruct (len cur + len sentence <=? maxLength).
  - split; [exact H|]. simpl. destruct cur; [destruct sentence|]; discriminate.
  - destruct (len sentence >? maxLength).
    + apply words_tidy; [now apply flush_tidy | apply split_nonempty].
    + split; [now apply flush_tidy|]. simpl. destruct sentence; discriminate.
Qed.

Lemma sentences_tidy maxLength sentences : forall st,
  tidy st -> sentences <> [] ->
  tidy (fold_left (sentenceStep maxLength) sentences st)
  /\ snd (fold_left (sentenceStep maxLength) sentences st) <> [].
Proof.
  induction sentences as [|s ss IH]; intros st Hst Hne; [now elim Hne|].
  cbn [fold_left]. destruct (sentenceStep_tidy maxLength st s Hst) as [H1 H2].
  destruct ss as [|s' ss']; [now split|].
  apply IH; [exact H1 | discriminate].
Qed.

(** X7.  For a text longer than the limit, [splitText] gives at least one
    chunk and every chunk is trimmed (no white space at either end); and when
    no sentence longer than the limit holds a word longer than the limit, no
    chunk is longer than the limit. *)
Theorem splitText_chunks (text : jsstring) (maxLength : Z) :
  len text > maxLength ->
  splitText text maxLength <> []
  /\ Forall (fun chunk => trim chunk = chunk) (splitText text maxLength)
  /\ ((forall sentence,
         In sentence (split NL (markSentences false text)) ->
         len sentence > maxLength ->
         forall word, In word (split SP sentence) -> len word <= maxLength) ->
      Forall (fun chunk => len chunk <= maxLength) (splitText text maxLength)).
Proof.
  intros Hlong.
  split; [|split; [|apply splitText_bounded_when_words_fit]].
  all: unfold splitText.
  all: destruct (Z.leb_spec (len text) maxLength) as [Hshort|_]; [lia|].
  all: destruct (sentences_tidy maxLength
                   (split NL (markSentences false text)) ([], [])
                   (Forall_nil _) (split_nonempty _ _)) as [Htidy Hcur].
  all: destruct (fold_left (sentenceStep maxLength)
                   (split NL (markSentences false text)) ([], []))
         as [chunks cur].
  - unfold flush. simpl in Hcur. destruct cur as [|c r]; [congruence|].
    simpl. destruct chunks; discriminate.
  - now apply flush_tidy.
Qed.

Lemma splitText_chunks_witness :
  splitText (str "aaa bbb ccc ddd. ee") 7 <> []
  /\ Forall (fun chunk => trim chunk = chunk)
       (splitText (str "aaa bbb ccc ddd. ee") 7)
  /\ Forall (fun chunk => len chunk <= 7)
       (splitText (str "aaa bbb ccc ddd. ee") 7).
Proof.
  assert (H : len (str "aaa bbb ccc ddd. ee") > 7) by (vm_compute; reflexivity).
  destruct (splitText_chunks (str "aaa bbb ccc ddd. ee") 7 H) as (H1 & H2 & H3).
  split; [exact H1|]. split; [exact H2|]. apply H3.
  intros sentence Hin Hlen word Hw. vm_compute in Hin.
  destruct Hin as [<- | [<- | []]].
  - vm_compute in Hw.
    destruct Hw as [<- | [<- | [<- | [<- | []]]]]; vm_compute; discriminate.
  - vm_compute in Hlen. discriminate.
Defined.

End SplitTextShape.

(** ** Lookups in the insertion-ordered map *)

Section JsMapLookups.
Import JsString.
Variable V : Type.
Implicit Types (m : JsMap.t V) (k key : jsstring) (v : V).

Lemma get_set_other key key' v m :
  key' <> key -> JsMap.get key' (JsMap.set key v m) = JsMap.get key' m.
Proof.
  intros Hne. induction m as [|[k x] r IH]; simpl.
  - destruct (eqb key key') eqn:E; [|reflexivity].
    apply eqb_eq in E. congruence.
  - destruct (eqb k key) eqn:E; simpl.
    + apply eqb_eq in E. subst k.
      destruct (eqb key key') eqn:E'; [|reflexivity].
      apply eqb_eq in E'. congruence.
    + now rewrite IH.
Qed.

Lemma get_delete_other key key' m :
  key' <> key -> JsMap.get key' (JsMap.delete key m) = JsMap.get key' m.
Proof.
  intros Hne. induction m as [|[k x] r IH]; simpl; [reflexivity|].
  destruct (eqb k key) eqn:E; simpl.
  - apply eqb_eq in E. subst k.
    destruct (eqb key key') eqn:E'; [|reflexivity].
    apply eqb_eq in E'. congruence.
  - now rewrite IH.
Qed.

Lemma get_in key m v : JsMap.get key m = Some v -> In (key, v) m.
Proof.
  induction m as [|[k x] r IH]; simpl; [discriminate|].
  destruct (eqb k key) eqn:E.
  - apply eqb_eq in E. subst k. intros [= ->]. now left.
  - intros H. right. now apply IH.
Qed.

Lemma in_keys k v m : In (k, v) m -> In k (JsMap.keys m).
Proof. intros H. change k with (fst (k, v)). now apply in_map. Qed.

Lemma distinct_delete key m :
  NoDup (JsMap.keys m) -> NoDup (JsMap.keys (JsMap.delete key m)).
Proof.
  induction m as [|[k x] r IH]; simpl; intros H; [exact H|].
  apply NoDup_cons_iff in H as [Hk Hr].
  destruct (eqb k key); [exact Hr|].
  simpl. constructor; [|now apply IH].
  intros Hin. apply Hk. now apply (keys_delete_incl V key r).
Qed.

Lemma distinct_set key v m :
  NoDup (JsMap.keys m) -> NoDup (JsMap.keys (JsMap.set key v m)).
Proof.
  induction m as [|[k x] r IH]; simpl; intros H.
  - constructor; [intros [] | constructor].
  - apply NoDup_cons_iff in H as [Hk Hr].
    destruct (eqb k key) eqn:E; simpl.
    + now constructor.
    + constructor; [|now apply IH].
      intros Hin. apply (keys_set_incl V key v r) in Hin.
      destruct Hin as [<- | Hin]; [|contradiction].
      rewrite eqb_refl in E. discriminate.
Qed.

Lemma get_delete_same key m :
  NoDup (JsMap.keys m) -> JsMap.get key (JsMap.delete key m) = None.
Proof.
  intros H. apply get_none_iff.
  induction m as [|[k x] r IH]; simpl; [intros []|].
  apply NoDup_cons_iff in H as [Hk Hr].
  destruct (eqb k key) eqn:E.
  - apply eqb_eq in E. now subst k.
  - simpl. intros [-> | Hin]; [|now apply IH].
    rewrite eqb_refl in E. discriminate.
Qed.

(** With distinct keys, [delete] takes away the one entry of the key. *)
Lemma delete_filter key m :
  NoDup (JsMap.keys m) ->
  JsMap.delete key m = filter (fun kv => negb (eqb (fst kv) key)) m.
Proof.
  induction m as [|[k x] r IH]; simpl; intros H; [reflexivity|].
  apply NoDup_cons_iff in H as [Hk Hr].
  destruct (eqb k key) eqn:E; simpl.
  - apply eqb_eq in E. subst k. symmetry.
    rewrite <- (IH Hr). clear IH.
    induction r as [|[k' x'] r IH]; [reflexivity|]. simpl in *.
    destruct (eqb k' key) eqn:E'.
    + apply eqb_eq in E'. elim Hk. now left.
    + f_equal. apply IH.
      * intros Hin. apply Hk. now right.
      * now apply NoDup_cons_iff in Hr.
  - now rewrite IH.
Qed.

Lemma distinct_filter (p : jsstring * V -> bool) m :
  NoDup (JsMap.keys m) -> NoDup (JsMap.keys (filter p m)).
Proof.
  induction m as [|kv r IH]; simpl; intros H; [exact H|].
  apply NoDup_cons_iff in H as [Hk Hr].
  destruct (p kv); [|now apply IH].
  simpl. constructor; [|now apply IH].
  intros Hin. apply Hk. unfold JsMap.keys in *.
  apply in_map_iff in Hin as (x & E & Hx). apply filter_In in Hx as [Hx _].
  rewrite <- E. now apply in_map.
Qed.

Lemma same_key_same_entry m (a b : jsstring * V) :
  NoDup (JsMap.keys m) -> In a m -> In b m -> fst a = fst b -> a = b.
Proof.
  induction m as [|kv r IH]; simpl; intros H Ha Hb E; [contradiction|].
  apply NoDup_cons_iff in H as [Hk Hr].
  destruct Ha as [-> | Ha], Hb as [-> | Hb]; try reflexivity.
  - elim Hk. rewrite E. now apply in_map.
  - elim Hk. rewrite <- E. now apply in_map.
  - now apply IH.
Qed.

Lemma get_filter (p : jsstring * V -> bool) key m v :
  JsMap.get key m = Some v -> p (key, v) = true ->
  JsMap.get key (filter p m) = Some v.
Proof.
  induction m as [|[k x] r IH]; simpl; [discriminate|].
  destruct (eqb k key) eqn:E.
  - apply eqb_eq in E. subst k. intros [= ->] Hp. rewrite Hp. simpl.
    now rewrite eqb_refl.
  - intros Hget Hp. destruct (p (k, x)); [|now apply IH].
    simpl. rewrite E. now apply IH.
Qed.

End JsMapLookups.

(** ** Lookups in the cache with expiry *)

Section TtlCacheLookups.
Import JsString TtlCache.
Local Open Scope Z_scope.

Local Abbreviation sweep c now := (fold_left (dropExpired c now)).
Local Abbreviation unexpired c now :=
  (fun kv : jsstring * CacheEntry => negb (expired c now (snd kv))).

Lemma filter_all (A : Type) (p : A -> bool) (l : list A) :
  (forall x, In x l -> p x = true) -> filter p l = l.
Proof.
  induction l as [|x r IH]; simpl; intros H; [reflexivity|].
  rewrite (H x (or_introl eq_refl)). f_equal. apply IH.
  intros y Hy. apply H. now right.
Qed.

Lemma filter_filter (A : Type) (p q : A -> bool) (l : list A) :
  filter p (filter q l) = filter (fun x => q x && p x) l.
Proof.
  induction l as [|x r IH]; simpl; [reflexivity|].
  destruct (q x); simpl; [destruct (p x)|]; now rewrite IH.
Qed.

(** The sweep over a snapshot [l] takes away the entries of the keys that
    have an expired entry in [l]. *)
Lemma sweep_filter c now (l : list (jsstring * CacheEntry)) :
  forall m : JsMap.t CacheEntry,
  NoDup (JsMap.keys m) ->
  sweep c now l m
  = filter (fun kv' =>
              negb (existsb (fun kv => expired c now (snd kv)
                                       && eqb (fst kv') (fst kv)) l)) m.
Proof.
  induction l as [|kv l IH]; intros m Hm.
  - simpl. symmetry. now apply filter_all.
  - cbn [fold_left existsb]. rewrite dropExpired_eq.
    destruct (expired c now (snd kv)) eqn:E.
    + rewrite IH by now apply distinct_delete.
      rewrite delete_filter by exact Hm. rewrite filter_filter.
      apply filter_ext. intros kv'. simpl.
      now rewrite negb_orb.
    + rewrite IH by exact Hm. apply filter_ext. intros kv'. reflexivity.
Qed.

Lemma cleanExpired_as_filter now c :
  NoDup (JsMap.keys (cache c)) ->
  cache (cleanExpired now c) = filter (unexpired c now) (cache c).
Proof.
  intros Hm. unfold cleanExpired. cbn [cache withCache].
  rewrite sweep_filter by exact Hm.
  apply filter_ext_in. intros kv' Hin. f_equal.
  destruct (expired c now (snd kv')) eqn:E.
  - apply existsb_exists. exists kv'. rewrite E, eqb_refl. now split.
  - destruct (existsb _ (cache c)) eqn:Ex; [|reflexivity].
    apply existsb_exists in Ex as (kv & Hkv & H).
    apply andb_true_iff in H as [He Hk]. apply eqb_eq in Hk.
    assert (kv' = kv) by (eapply same_key_same_entry; eassumption).
    subst kv. congruence.
Qed.

Lemma cleanExpired_distinct now c :
  NoDup (JsMap.keys (cache c)) ->
  NoDup (JsMap.keys (cache (cleanExpired now c))).
Proof.
  intros Hm. rewrite cleanExpired_as_filter by exact Hm.
  now apply distinct_filter.
Qed.

Lemma ttl_set_distinct nowClean nowStamp key value c :
  NoDup (JsMap.keys (cache c)) ->
  NoDup (JsMap.keys (cache (set nowClean nowStamp key value c))).
Proof.
  intros Hm. pose proof (cleanExpired_distinct nowClean c Hm) as H1.
  unfold set.
  destruct (JsMap.size (cache (cleanExpired nowClean c))
            >=? maxSize (cleanExpired nowClean c)).
  - destruct (findOldestEntry (cleanExpired nowClean c)) as [k|].
    + destruct (truthy k); cbn [cache withCache]; apply distinct_set;
        [apply distinct_delete|]; exact H1.
    + cbn [cache withCache]. now apply distinct_set.
  - cbn [cache withCache]. now apply distinct_set.
Qed.

(** X8.  [cleanExpired()] removes exactly the entries whose age at the time
    of the call is above the time to live: what stays are the other entries,
    in their order, and the configuration of the cache is untouched.  (A
    [Map] holds each key once.) *)
Theorem cleanExpired_keeps_exactly_the_unexpired (now : Z)
  (c : TranslationCache) :
  NoDup (JsMap.keys (cache c)) ->
  cache (cleanExpired now c)
  = filter (fun kv => now - timestamp (snd kv) <=? ttl c) (cache c)
  /\ maxSize (cleanExpired now c) = maxSize c
  /\ ttl (cleanExpired now c) = ttl c.
Proof.
  intros Hm. split; [|split; reflexivity].
  rewrite cleanExpired_as_filter by exact Hm.
  apply filter_ext. intros kv. unfold expired.
  rewrite Z.gtb_ltb, Z.leb_antisym. reflexivity.
Qed.

Lemma cleanExpired_keeps_exactly_the_unexpired_witness :
  let entry v t := {| value := v; timestamp := t |} in
  let c := withCache (new 10 100)
             [(str "a", entry (str "uno") 0); (str "b", entry (str "dos") 50);
              (str "c", entry (str "tres") 20)] in
  cache (cleanExpired 130 c) = [(str "b", entry (str "dos") 50)].
Proof.
  intros entry c.
  assert (Hm : NoDup (JsMap.keys (cache c))).
  { repeat constructor; simpl; intuition discriminate. }
  rewrite (proj1 (cleanExpired_keeps_exactly_the_unexpired 130 c Hm)).
  reflexivity.
Defined.

(** X9.  Reading back what was just stored: [get(key)] after
    [set(key, value)] gives [value] and leaves the cache alone as long as the
    age of the entry is at most the time to live; once it is older, [get]
    gives nothing and deletes the entry, so the cache has one entry less. *)
Theorem get_after_set_within_ttl (nowClean nowStamp now : Z)
  (key value : jsstring) (c : TranslationCache) :
  NoDup (JsMap.keys (cache c)) ->
  let c' := set nowClean nowStamp key value c in
  (now - nowStamp <= ttl c -> get now key c' = (Some value, c'))
  /\ (ttl c < now - nowStamp ->
      fst (get now key c') = None
      /\ JsMap.get key (cache (snd (get now key c'))) = None
      /\ JsMap.size (cache (snd (get now key c'))) = JsMap.size (cache c') - 1).
Proof.
  intros Hm c'.
  pose proof (get_after_set nowClean nowStamp key value c) as Hget.
  fold c' in Hget.
  assert (Httl : ttl c' = ttl c) by apply ttl_set.
  unfold get. rewrite Hget. unfold expired. rewrite Httl.
  cbn [timestamp TtlCache.value]. split; intros H.
  - destruct (Z.gtb_spec (now - nowStamp) (ttl c)); [lia | reflexivity].
  - destruct (Z.gtb_spec (now - nowStamp) (ttl c)); [|lia].
    cbn [fst snd cache withCache]. split; [reflexivity|]. split.
    + apply get_delete_same. now apply ttl_set_distinct.
    + assert (Hin : In key (JsMap.keys (cache c'))).
      { eapply in_keys, get_in, Hget. }
      pose proof (length_delete_present _ key (cache c') Hin).
      unfold JsMap.size. lia.
Qed.

Lemma get_after_set_within_ttl_witness :
  let c' := set 0 0 (str "es-en-hola") (str "hello") (new 100 1800000) in
  get 1800000 (str "es-en-hola") c' = (Some (str "hello"), c')
  /\ fst (get 1800001 (str "es-en-hola") c') = None.
Proof.
  intros c'.
  destruct (get_after_set_within_ttl 0 0 1800000 (str "es-en-hola")
              (str "hello") (new 100 1800000) (NoDup_nil _)) as [Hfresh _].
  destruct (get_after_set_within_ttl 0 0 1800001 (str "es-en-hola")
              (str "hello") (new 100 1800000) (NoDup_nil _)) as [_ Hstale].
  split.
  - apply Hfresh. simpl. lia.
  - apply Hstale. simpl. lia.
Defined.

Lemma get_delete_none (key k : jsstring) (m : JsMap.t CacheEntry) :
  JsMap.get key m = None -> JsMap.get key (JsMap.delete k m) = None.
Proof.
  rewrite !get_none_iff. intros H Hin. apply H.
  now apply (keys_delete_incl _ k m).
Qed.

(** X10.  What [set(key, value)] does to the entry of another key.  An
    entry that is expired at the time of the call is gone afterwards.  An
    unexpired entry is still there, unchanged, when the cache is below its
    capacity after the purge, or when some other unexpired entry has a
    smaller timestamp (the eviction takes an entry of least timestamp). *)
Theorem set_and_the_other_entries (nowClean nowStamp : Z)
  (key value key' : jsstring) (e : CacheEntry) (c : TranslationCache) :
  NoDup (JsMap.keys (cache c)) ->
  key' <> key ->
  JsMap.get key' (cache c) = Some e ->
  let c' := set nowClean nowStamp key value c in
  (expired c nowClean e = true -> JsMap.get key' (cache c') = None)
  /\ (expired c nowClean e = false ->
      JsMap.size (cache (cleanExpired nowClean c)) < maxSize c
      \/ (exists k2 e2, In (k2, e2) (cache c)
                        /\ expired c nowClean e2 = false
                        /\ timestamp e2 < timestamp e) ->
      JsMap.get key' (cache c') = Some e).
Proof.
  intros Hm Hne Hget c'.
  pose proof (cleanExpired_as_filter nowClean c Hm) as Hclean.
  pose proof (cleanExpired_distinct nowClean c Hm) as Hm1.
  set (c1 := cleanExpired nowClean c) in *.
  assert (Hc' : exists m2,
             cache c'
             = JsMap.set key {| value := value; timestamp := nowStamp |} m2
             /\ (m2 = cache c1
                 \/ exists k, findOldestEntry c1 = Some k
                              /\ maxSize c <= JsMap.size (cache c1)
                              /\ m2 = JsMap.delete k (cache c1))).
  { unfold c', set. fold c1.
    destruct (Z.geb_spec (JsMap.size (cache c1)) (maxSize c1)) as [Hge|Hlt].
    - destruct (findOldestEntry c1) as [k|] eqn:Ek.
      + destruct (truthy k); cbn [cache withCache]; eexists; split;
          try reflexivity; [right | now left].
        exists k. repeat split. exact Hge.
      + cbn [cache withCache]. eexists; split; [reflexivity | now left].
    - cbn [cache withCache]. eexists; split; [reflexivity | now left]. }
  destruct Hc' as (m2 & -> & Hm2).
  rewrite get_set_other by exact Hne.
  split.
  - intros Hexp.
    assert (Hnone : JsMap.get key' (cache c1) = None).
    { apply get_none_iff. rewrite Hclean. intros Hin.
      unfold JsMap.keys in Hin. apply in_map_iff in Hin as (kv & Ek & Hkv).
      apply filter_In in Hkv as [Hkv Hp].
      assert (kv = (key', e)).
      { eapply same_key_same_entry; [exact Hm | exact Hkv | | exact Ek].
        now apply get_in. }
      subst kv. simpl in Hp. rewrite Hexp in Hp. discriminate. }
    destruct Hm2 as [-> | (k & _ & _ & ->)]; [exact Hnone|].
    now apply get_delete_none.
  - intros Hexp Hroom.
    assert (Hkept : JsMap.get key' (cache c1) = Some e).
    { rewrite Hclean. apply get_filter; [exact Hget|].
      simpl. now rewrite Hexp. }
    destruct Hm2 as [-> | (k & Ek & Hfull & ->)]; [exact Hkept|].
    destruct Hroom as [Hroom | (k2 & e2 & Hin2 & Hexp2 & Hlt)]; [lia|].
    rewrite get_delete_other; [exact Hkept|].
    intros ->.
    assert (Hne1 : cache c1 <> []).
    { intros E. rewrite E in Hkept. discriminate. }
    destruct (findOldestEntry_minimal c1 Hne1) as (k0 & e0 & Ek0 & Hin0 & Hmin).
    rewrite Ek in Ek0. injection Ek0 as <-.
    assert (E0 : (k, e0) = (k, e)).
    { eapply same_key_same_entry; [exact Hm1 | exact Hin0 | | reflexivity].
      now apply get_in. }
    injection E0 as ->.
    assert (Hin2' : In (k2, e2) (cache c1)).
    { rewrite Hclean. apply filter_In. split; [exact Hin2|].
      simpl. now rewrite Hexp2. }
    specialize (Hmin _ Hin2'). simpl in Hmin. lia.
Qed.

Lemma set_and_the_other_entries_witness :
  let entry v t := {| value := v; timestamp := t |} in
  let c := withCache (new 2 100)
             [(str "a", entry (str "uno") 30); (str "b", entry (str "dos") 10)] in
  JsMap.get (str "a") (cache (set 50 50 (str "c") (str "tres") c))
  = Some (entry (str "uno") 30).
Proof.
  intros entry c.
  assert (Hm : NoDup (JsMap.keys (cache c))).
  { repeat constructor; simpl; intuition discriminate. }
  assert (Hne : str "a" <> str "c") by discriminate.
  apply (proj2 (set_and_the_other_entries 50 50 (str "c") (str "tres")
                  (str "a") (entry (str "uno") 30) c Hm Hne eq_refl)).
  - reflexivity.
  - right. exists (str "b"), (entry (str "dos") 10).
    split; [right; left; reflexivity|]. split; [reflexivity|]. simpl. lia.
Defined.

(** X11.  An oldest entry stored under the empty key is never evicted:
    [if (oldestKey)] takes the empty string for "no entry found".  With the
    cache full, nothing expired and the empty key holding the least
    timestamp, [set] of a new key deletes nothing and the cache grows beyond
    its maximum. *)
Theorem empty_oldest_key_is_not_evicted (nowClean nowStamp : Z)
  (key value : jsstring) (e : CacheEntry) (l : JsMap.t CacheEntry)
  (c : TranslationCache) :
  cache c = ([], e) :: l ->
  (forall kv, In kv (cache c) -> expired c nowClean (snd kv) = false) ->
  (forall kv, In kv l -> timestamp e <= timestamp (snd kv)) ->
  maxSize c <= JsMap.size (cache c) ->
  ~ In key (JsMap.keys (cache c)) ->
  cache (set nowClean nowStamp key value c)
  = cache c ++ [(key, {| value := value; timestamp := nowStamp |})]
  /\ JsMap.size (cache (set nowClean nowStamp key value c)) > maxSize c.
Proof.
  intros Hc Hfresh Hmin Hfull Hnew.
  assert (E : cache (set nowClean nowStamp key value c)
              = cache c ++ [(key, {| value := value; timestamp := nowStamp |})]).
  { unfold set. rewrite (cleanExpired_nothing nowClean c Hfresh).
    cbn [cache withCache maxSize].
    destruct (Z.geb_spec (JsMap.size (cache c)) (maxSize c)) as [_|]; [|lia].
    rewrite (findOldestEntry_head (withCache c (cache c)) [] e l Hc Hmin).
    cbn [truthy cache withCache]. now apply set_absent. }
  split; [exact E|].
  rewrite E. unfold JsMap.size in *. rewrite length_app. simpl. lia.
Qed.

Lemma empty_oldest_key_is_not_evicted_witness :
  let entry v t := {| value := v; timestamp := t |} in
  let c := withCache (new 2 100)
             [([], entry (str "uno") 10); (str "b", entry (str "dos") 20)] in
  JsMap.size (cache (set 30 30 (str "c") (str "tres") c)) = 3.
Proof.
  intros entry c.
  rewrite (proj1 (empty_oldest_key_is_not_evicted 30 30 (str "c") (str "tres")
                    (entry (str "uno") 10) [(str "b", entry (str "dos") 20)] c eq_refl
                    ltac:(intros kv [<- | [<- | []]]; reflexivity)
                    ltac:(intros kv [<- | []]; simpl; lia)
                    ltac:(vm_compute; discriminate)
                    ltac:(simpl; intuition discriminate))).
  reflexivity.
Defined.

End TtlCacheLookups.

(** ** Lookups in the cache without expiry *)

Section FifoCacheLookups.
Import JsString FifoCache.
Local Open Scope Z_scope.

Lemma firstKey_head (V : Type) (m : JsMap.t V) (k0 : jsstring) :
  JsMap.firstKey m = Some k0 -> exists v l, m = (k0, v) :: l.
Proof.
  destruct m as [|[k v] l]; simpl; [discriminate|].
  intros [= ->]. now exists v, l.
Qed.

(** X12.  Lookups after [set(key, value)] in the cache of the keyed client:
    the key reads back its value; below the capacity every other key reads
    as before; at capacity every other key but the first one of the map
    reads as before, and the first one is gone. *)
Theorem fifo_lookups_after_set (key value : jsstring) (c : TranslationCache) :
  get key (set key value c) = Some value
  /\ (forall key', key' <> key ->
        JsMap.size (cache c) < maxSize c ->
        get key' (set key value c) = get key' c)
  /\ (forall key' k0, key' <> key ->
        maxSize c <= JsMap.size (cache c) ->
        JsMap.firstKey (cache c) = Some k0 ->
        NoDup (JsMap.keys (cache c)) ->
        get key' (set key value c) = if eqb k0 key' then None else get key' c).
Proof.
  unfold get, set. cbn [cache withCache]. split; [apply get_set_same|].
  split.
  - intros key' Hne Hlt. rewrite get_set_other by exact Hne.
    destruct (Z.geb_spec (JsMap.size (cache c)) (maxSize c)); [lia|].
    reflexivity.
  - intros key' k0 Hne Hfull Hk Hm. rewrite get_set_other by exact Hne.
    destruct (Z.geb_spec (JsMap.size (cache c)) (maxSize c)); [|lia].
    rewrite Hk. destruct (eqb k0 key') eqn:E.
    + apply eqb_eq in E. subst key'. now apply get_delete_same.
    + apply get_delete_other. intros ->. rewrite eqb_refl in E. discriminate.
Qed.

Lemma fifo_lookups_after_set_witness :
  let c := withCache (new 2) [(str "a", str "uno"); (str "b", str "dos")] in
  get (str "a") (set (str "c") (str "tres") c) = None
  /\ get (str "b") (set (str "c") (str "tres") c) = Some (str "dos").
Proof.
  intros c.
  assert (Hm : NoDup (JsMap.keys (cache c))).
  { repeat constructor; simpl; intuition discriminate. }
  destruct (fifo_lookups_after_set (str "c") (str "tres") c) as (_ & _ & H).
  split.
  - rewrite (H (str "a") (str "a")); [reflexivity | discriminate | | | exact Hm].
    + vm_compute. discriminate.
    + reflexivity.
  - rewrite (H (str "b") (str "a")); [reflexivity | discriminate | | | exact Hm].
    + vm_compute. discriminate.
    + reflexivity.
Defined.

(** X13.  In a full cache, [set] of a key that is already cached (and is
    not the first key of the map) still deletes the first key before it
    overwrites: no room was needed, and the cache ends with one entry less
    than before. *)
Theorem fifo_overwrite_in_a_full_cache_evicts (key value k0 v0 : jsstring)
  (l : JsMap.t jsstring) (c : TranslationCache) :
  cache c = (k0, v0) :: l ->
  maxSize c <= JsMap.size (cache c) ->
  In key (JsMap.keys l) ->
  cache (set key value c) = JsMap.set key value l
  /\ JsMap.size (cache (set key value c)) = JsMap.size (cache c) - 1
  /\ (~ In k0 (JsMap.keys l) -> get k0 (set key value c) = None).
Proof.
  intros Hc Hfull Hin.
  pose proof (fifo_set_at_capacity key value c k0 v0 l Hc Hfull) as E.
  split; [exact E|]. split.
  - rewrite E, Hc. unfold JsMap.size. simpl List.length.
    assert (H : List.length (JsMap.set key value l) = List.length l).
    { clear -Hin. induction l as [|[k x] r IH]; simpl in *; [contradiction|].
      destruct (eqb k key) eqn:Ek; simpl; [reflexivity|].
      f_equal. apply IH. destruct Hin as [-> | Hin]; [|exact Hin].
      rewrite eqb_refl in Ek. discriminate. }
    rewrite H. lia.
  - intros Hk0. unfold get. rewrite E. apply get_none_iff.
    intros H. apply (keys_set_incl _ key value l) in H.
    destruct H as [<- | H]; contradiction.
Qed.

Lemma fifo_overwrite_in_a_full_cache_evicts_witness :
  let c := withCache (new 2) [(str "a", str "uno"); (str "b", str "dos")] in
  cache (set (str "b") (str "two") c) = [(str "b", str "two")].
Proof.
  intros c.
  rewrite (proj1 (fifo_overwrite_in_a_full_cache_evicts (str "b") (str "two")
                    (str "a") (str "uno") [(str "b", str "dos")] c eq_refl
                    ltac:(vm_compute; discriminate)
                    ltac:(simpl; now left))).
  reflexivity.
Defined.

End FifoCacheLookups.

(** ** The order of admission by the semaphore *)

Section SemaphoreOrder.
Import Sem.
Local Open Scope Z_scope.

Lemma callers_acquire (who : nat) (rest : list Op) :
  callers (Acquire who :: rest) = who :: callers rest.
Proof. reflexivity. Qed.

Lemma callers_release (who : nat) (rest : list Op) :
  callers (Release who :: rest) = callers rest.
Proof. reflexivity. Qed.

Lemma admissions_in_call_order_from (ops : list Op) :
  forall st0 st,
    (tasks (sem st0) <> [] -> count (sem st0) <= 0) ->
    run ops st0 = Some st ->
    tasks (sem st0) ++ callers ops = admissions ops st0 ++ tasks (sem st)
    /\ (tasks (sem st) <> [] -> count (sem st) <= 0).
Proof.
  induction ops as [|op rest IH]; intros st0 st Hq Hrun.
  - simpl in Hrun. injection Hrun as <-. simpl. rewrite app_nil_r.
    split; [reflexivity | exact Hq].
  - cbn [run] in Hrun. cbn [admissions].
    destruct (step op st0) as [st1|] eqn:Es; [|discriminate].
    destruct op as [who|who]; cbn [step admittedBy] in *.
    + rewrite callers_acquire. unfold acquire in *.
      destruct (Z.gtb_spec (count (sem st0)) 0) as [Hc|Hc].
      * injection Es as <-.
        assert (Ht : tasks (sem st0) = []).
        { destruct (tasks (sem st0)); [reflexivity|].
          assert (count (sem st0) <= 0) by (apply Hq; discriminate). lia. }
        apply IH in Hrun as [E Hq'];
          [|cbn [sem tasks count]; rewrite Ht; intros C; now elim C].
        cbn [sem tasks count] in E. rewrite Ht in *.
        cbn [snd app] in *. split; [now rewrite E | exact Hq'].
      * injection Es as <-.
        apply IH in Hrun as [E Hq']; [|cbn [sem tasks count]; intros _; lia].
        cbn [sem tasks count] in E. cbn [snd app].
        rewrite <- E, <- app_assoc. split; [reflexivity | exact Hq'].
    + rewrite callers_release.
      destruct (removeOne who (inside st0)) as [left|]; [|discriminate].
      unfold release in *. cbn [tasks count] in *.
      destruct (tasks (sem st0)) as [|next q] eqn:Et.
      * injection Es as <-.
        apply IH in Hrun as [E Hq'];
          [|cbn [sem tasks count]; intros C; now elim C].
        cbn [sem tasks count] in E. cbn [snd app] in *.
        split; [exact E | exact Hq'].
      * injection Es as <-.
        assert (count (sem st0) <= 0) by (apply Hq; discriminate).
        apply IH in Hrun as [E Hq']; [|cbn [sem tasks count]; intros _; lia].
        cbn [sem tasks count] in E. cbn [snd app] in *.
        rewrite <- E. split; [reflexivity | exact Hq'].
Qed.

(** X14.  No overtaking: along any run of matching [acquire] / [release]
    calls, the callers get their permit in exactly the order in which they
    called [acquire()], and the callers still waiting at the end are the
    latest ones, in the order of their calls.  Nobody waits while the count
    is positive. *)
Theorem permits_are_granted_in_call_order (n : Z) (ops : list Op)
  (st : System) :
  run ops (init n) = Some st ->
  callers ops = admissions ops (init n) ++ tasks (sem st)
  /\ (tasks (sem st) <> [] -> count (sem st) <= 0).
Proof.
  intros Hrun.
  apply (admissions_in_call_order_from ops (init n) st); [|exact Hrun].
  simpl. intros C. now elim C.
Qed.

Lemma permits_are_granted_in_call_order_witness :
  let ops := [Acquire 1; Acquire 2; Acquire 3; Acquire 4; Release 2;
              Acquire 5; Release 1] in
  exists st,
    run ops (init 2) = Some st
    /\ admissions ops (init 2) = [1; 2; 3; 4]%nat
    /\ tasks (sem st) = [5%nat]
    /\ callers ops = admissions ops (init 2) ++ tasks (sem st).
Proof.
  intros ops. eexists. split; [reflexivity|].
  split; [reflexivity|]. split; [reflexivity|].
  exact (proj1 (permits_are_granted_in_call_order 2 ops _ eq_refl)).
Defined.

End SemaphoreOrder.

(** ** Where a call settles *)

Section CallSettles.
Import Executor Samples.

Variables Params Response : Type.
Variable RETRIES : nat.
Variable isRetryable : JsError -> bool.
Variable delay : nat -> Z.
Variable limited : bool.
Variable net : Params -> nat -> Outcome Response.

Local Abbreviation afterAcquire :=
  (afterAcquire RETRIES isRetryable delay limited net).
Local Abbreviation callTranslationAPI :=
  (callTranslationAPI RETRIES isRetryable delay limited net).
Local Abbreviation settlesAt := (settlesAt RETRIES isRetryable net).

Lemma delaysOf_app (a b : list (Event Params)) :
  delaysOf (a ++ b) = delaysOf a ++ delaysOf b.
Proof. unfold delaysOf. apply flat_map_app. Qed.

Lemma delaysOf_whenLimited_acquire (a : nat) :
  delaysOf (whenLimited limited (@EvAcquire Params a)) = [].
Proof. unfold whenLimited. now destruct limited. Qed.

Lemma delaysOf_whenLimited_release (a : nat) :
  delaysOf (whenLimited limited (@EvRelease Params a)) = [].
Proof. unfold whenLimited. now destruct limited. Qed.

Lemma chain_up_to (params : Params) (k d : nat) : forall attempt,
  k - attempt = d -> attempt <= k ->
  settlesAt params k ->
  snd (afterAcquire params attempt) = net params k
  /\ attemptsOf (fst (afterAcquire params attempt)) = seq attempt (S d)
  /\ delaysOf (fst (afterAcquire params attempt)) = map delay (seq attempt d).
Proof.
  induction d as [|d IH]; intros attempt Hd Hle (Hk & Hbefore & Hlast).
  - assert (attempt = k) by lia. subst attempt.
    rewrite afterAcquire_stop by exact Hlast. cbn [fst snd].
    split; [reflexivity|]. split.
    + change (EvRequest k params :: whenLimited limited (EvRelease k))
        with ([EvRequest k params] ++ whenLimited limited (EvRelease k)).
      rewrite attemptsOf_app, attemptsOf_whenLimited_release. reflexivity.
    + change (EvRequest k params :: whenLimited limited (EvRelease k))
        with ([EvRequest k params] ++ whenLimited limited (EvRelease k)).
      rewrite delaysOf_app, delaysOf_whenLimited_release. reflexivity.
  - assert (Hlt : attempt < k) by lia.
    assert (Hlt' : attempt < RETRIES) by lia.
    destruct (Hbefore attempt Hlt) as (e & He & Hr).
    rewrite (afterAcquire_retry _ _ _ _ _ _ _ params attempt e He Hlt' Hr).
    cbn [fst snd].
    assert (Hd' : k - S attempt = d) by lia.
    destruct (IH (S attempt) Hd' Hlt (conj Hk (conj Hbefore Hlast)))
      as (H1 & H2 & H3).
    split; [exact H1|]. split.
    + change (EvRequest attempt params :: EvDelay attempt (delay attempt)
                :: ?l)
        with ([EvRequest attempt params; EvDelay attempt (delay attempt)] ++ l).
      rewrite !attemptsOf_app, attemptsOf_whenLimited_acquire,
        attemptsOf_whenLimited_release, H2. reflexivity.
    + change (EvRequest attempt params :: EvDelay attempt (delay attempt)
                :: ?l)
        with ([EvRequest attempt params; EvDelay attempt (delay attempt)] ++ l).
      rewrite !delaysOf_app, delaysOf_whenLimited_acquire,
        delaysOf_whenLimited_release, H3. reflexivity.
Qed.

Lemma settles_somewhere (params : Params) (d : nat) : forall attempt,
  RETRIES - attempt = d -> attempt <= RETRIES ->
  (forall a, a < attempt ->
     exists e, net params a = Failure e /\ isRetryable e = true) ->
  exists k, settlesAt params k.
Proof.
  induction d as [|d IH]; intros attempt Hd Hle Hbefore.
  - exists attempt. split; [exact Hle|]. split; [exact Hbefore|].
    intros e _ Hlt. lia.
  - destruct (net params attempt) as [r|e] eqn:En.
    + exists attempt. split; [exact Hle|]. split; [exact Hbefore|].
      intros e He. congruence.
    + destruct (isRetryable e) eqn:Er.
      * apply (IH (S attempt)); [lia | lia |].
        intros a Ha. destruct (Nat.eq_dec a attempt) as [-> | Hne].
        -- now exists e.
        -- apply Hbefore. lia.
      * exists attempt. split; [exact Hle|]. split; [exact Hbefore|].
        intros e' He' _. congruence.
Qed.

End CallSettles.

(** X15.  Where a call settles.  Let attempt [k <= RETRIES] be the first
    one that succeeds, or fails with a failure that is not retried, or is
    attempt [RETRIES].  Then the call sends the requests of the attempts [0]
    to [k], one each, waits [delay 0], ..., [delay (k - 1)] between them, and
    settles with the outcome of the request of attempt [k]: a success after
    failures is not lost, and the failures before it are not reported.  Such
    a [k] always exists. *)
Theorem call_settles_with_its_last_attempt
  (Params Response : Type) (RETRIES : nat)
  (isRetryable : Executor.JsError -> bool) (delay : nat -> Z) (limited : bool)
  (net : Params -> nat -> Executor.Outcome Response) (params : Params) :
  (exists k, Executor.settlesAt RETRIES isRetryable net params k)
  /\ forall k, Executor.settlesAt RETRIES isRetryable net params k ->
       snd (Executor.callTranslationAPI RETRIES isRetryable delay limited net
              params 0)
       = net params k
       /\ Executor.attemptsOf
            (fst (Executor.callTranslationAPI RETRIES isRetryable delay limited
                    net params 0))
          = seq 0 (S k)
       /\ Executor.delaysOf
            (fst (Executor.callTranslationAPI RETRIES isRetryable delay limited
                    net params 0))
          = map delay (seq 0 k).
Proof.
  split.
  - apply (settles_somewhere _ _ RETRIES isRetryable net params RETRIES 0);
      [lia | lia | intros a Ha; lia].
  - intros k Hk.
    destruct (chain_up_to _ _ RETRIES isRetryable delay limited net params
                k k 0 ltac:(lia) ltac:(lia) Hk) as (H1 & H2 & H3).
    rewrite outcome_call, attemptsOf_call. split; [exact H1|].
    split; [exact H2|].
    unfold Executor.callTranslationAPI.
    destruct (Executor.afterAcquire RETRIES isRetryable delay limited net
                params 0) as [events outcome] eqn:E.
    cbn [fst] in *. rewrite delaysOf_app, delaysOf_whenLimited_acquire.
    exact H3.
Qed.

Lemma call_settles_with_its_last_attempt_witness :
  let hello := {| Keyed.translations := Some [JsString.str "Hello"] |} in
  let net := fun (_ : Keyed.Params) attempt =>
               if Nat.ltb attempt 2
               then Executor.Failure Samples.timeoutError
               else Executor.Success hello in
  snd (Keyed.callTranslationAPI net Samples.holaKeyed 0)
  = Executor.Success hello
  /\ Executor.delaysOf (fst (Keyed.callTranslationAPI net Samples.holaKeyed 0))
     = [300; 600]%Z.
Proof.
  intros hello net.
  assert (Hk : Executor.settlesAt Keyed.RETRIES Executor.isRetryableKeyed
                 net Samples.holaKeyed 2).
  { split; [unfold Keyed.RETRIES; lia|]. split.
    - intros a Ha. exists Samples.timeoutError.
      destruct a as [|[|a]]; [now split | now split | lia].
    - intros e He. discriminate. }
  destruct (proj2 (call_settles_with_its_last_attempt _ _ Keyed.RETRIES
                     Executor.isRetryableKeyed Keyed.retryDelay true
                     net Samples.holaKeyed) 2 Hk) as (H1 & _ & H3).
  split; [exact H1 | exact H3].
Defined.

(** ** Blank texts *)

Section BlankTexts.
Import JsString.
Local Open Scope Z_scope.

Lemma normalizeText_blank (t : jsstring) :
  nonWhite t = [] -> normalizeText t = [].
Proof.
  intros E. rewrite <- (nonWhite_trim t) in E.
  unfold normalizeText. destruct (trim_ends t) as [Hhead _].
  destruct (trim t) as [|c r]; [reflexivity|].
  simpl in E. rewrite Hhead in E. discriminate.
Qed.

Lemma normalizeText_not_blank (t : jsstring) :
  nonWhite t <> [] -> truthy (normalizeText t) = true.
Proof.
  intros H. destruct (normalizeText t) eqn:E; [|reflexivity].
  elim H. unfold normalizeText in E. apply collapse_nil in E.
  now rewrite nonWhite_trim in E.
Qed.

Lemma normalizeText_not_longer (t : jsstring) :
  len (normalizeText t) <= len t.
Proof.
  unfold normalizeText, len, trim, trimEnd, trimStart.
  pose proof (collapse_length false
                (rev (dropWhile isWhiteSpace (rev (dropWhile isWhiteSpace t))))).
  rewrite length_rev in H.
  pose proof (dropWhile_length isWhiteSpace (rev (dropWhile isWhiteSpace t))).
  rewrite length_rev in H0.
  pose proof (dropWhile_length isWhiteSpace t). lia.
Qed.

End BlankTexts.

(** ** How a call of [translate] of the free client ends *)

Section FreeTranslateOutcomes.
Import JsString Executor StateM Free.
Local Open Scope Z_scope.

Variable env : Env.

(** What [translate] can be waiting for when its text is not blank. *)
Local Abbreviation started p :=
  (match p with
   | Settled (Thrown _) => False
   | _ => True
   end).

Local Abbreviation okOrWrapped r :=
  (match r with
   | Ok _ => True
   | Thrown m => exists m', m = msgErrorPrefix ++ m'
   end).

Lemma wrapError_shape (r : Result jsstring) : okOrWrapped (wrapError r).
Proof. destruct r as [v|m]; simpl; [exact I | now exists m]. Qed.

Lemma translateStart_started targetLang sourceLang text w :
  truthy (normalizeText text) = true ->
  started (fst (translateStart env targetLang sourceLang text w)).
Proof.
  intros Hne. unfold translateStart. rewrite Hne. cbn [negb].
  unfold bind at 1. destruct (cacheGet env _ w) as [cached w0].
  assert (Hmiss : forall key,
             started (fst (startAfterMiss env targetLang sourceLang
                             (normalizeText text) key w0))).
  { intros key. unfold startAfterMiss.
    destruct (len (normalizeText text) >? MAX_TEXT_LENGTH).
    - unfold bind. destruct (mapM _ _ w0). exact I.
    - unfold bind. destruct (startCall _ w0). exact I. }
  destruct cached as [v|]; [destruct (truthy v)|]; try apply Hmiss.
  exact I.
Qed.

Lemma translateResume_shape p w :
  started p -> okOrWrapped (fst (translateResume env p w)).
Proof.
  destruct p as [[v|m]|n params key|tasks key]; simpl; intros Hp.
  - exact I.
  - contradiction.
  - destruct (settle env n params) as [response|error].
    + unfold bind. destruct (processTranslationResponse env response key w).
      apply wrapError_shape.
    + apply (wrapError_shape (Thrown (message error))).
  - unfold bind. destruct (mapM (chunkResume env) tasks w) as [results w1].
    destruct (allOk results) as [chunks|m].
    + destruct (cacheSet env key _ w1). exact I.
    + apply (wrapError_shape (Thrown m)).
Qed.

End FreeTranslateOutcomes.

Section FreeTranslateEnds.
Import JsString Executor StateM Free.
Local Open Scope Z_scope.

(** X16.  How [translate] of the free client ends.  A text with nothing but
    white space is rejected with the empty-text message before anything else
    happens: no clock reading, no cache access, no request.  For any other
    text the call either returns a string or is rejected with a message that
    starts with the translation prefix; the empty-text message is never one
    of those. *)
Theorem translate_of_blank_and_other_texts (env : Env)
  (targetLang sourceLang text : jsstring) (w : World) :
  (nonWhite text = [] ->
   translate env targetLang sourceLang text w = (Thrown msgEmptyText, w))
  /\ (nonWhite text <> [] ->
      ((exists v, fst (translate env targetLang sourceLang text w) = Ok v)
       \/ (exists m, fst (translate env targetLang sourceLang text w)
                     = Thrown (msgErrorPrefix ++ m)))
      /\ fst (translate env targetLang sourceLang text w) <> Thrown msgEmptyText).
Proof.
  split.
  - intros Hblank. unfold translate, translateStart.
    rewrite (normalizeText_blank text Hblank). reflexivity.
  - intros Hne. apply normalizeText_not_blank in Hne.
    pose proof (translateStart_started env targetLang sourceLang text w Hne)
      as Hp.
    unfold translate, bind.
    destruct (translateStart env targetLang sourceLang text w) as [p w0].
    cbn [fst] in Hp.
    pose proof (translateResume_shape env p w0 Hp) as Hr.
    destruct (translateResume env p w0) as [[v|m] w1]; cbn [fst] in *.
    + split; [left; now exists v | discriminate].
    + destruct Hr as (m' & ->). split; [right; now exists m'|].
      intros E. vm_compute in E. discriminate.
Qed.

Lemma translate_of_blank_and_other_texts_witness :
  translate Scenes.echo (str "en") (str "es") [SP; NL; SP] initialWorld
  = (Thrown msgEmptyText, initialWorld).
Proof.
  apply (proj1 (translate_of_blank_and_other_texts Scenes.echo (str "en")
                  (str "es") [SP; NL; SP] initialWorld)).
  reflexivity.
Defined.

(** X17.  A translation that fails is not cached.  When [translate] of a
    short, uncached text is rejected (the request failed for good, or the
    response had no translation in it), the cache is as it was before the
    call; the one invocation of [callTranslationAPI] carried the normalised
    text, and the rejection carries the translation prefix. *)
Theorem failed_translation_is_not_cached (env : Env)
  (targetLang sourceLang text m : jsstring) (w w' : World) :
  shortAndUncached sourceLang targetLang (theCache w) text ->
  translate env targetLang sourceLang text w = (Thrown m, w') ->
  theCache w' = theCache w
  /\ calls w' = calls w ++ [{| source := sourceLang; target := targetLang;
                               q := normalizeText text |}]
  /\ exists m', m = msgErrorPrefix ++ m'.
Proof.
  intros (Hne & Hlen & Hget).
  unfold translate, translateStart. rewrite Hne. cbn [negb].
  unfold bind at 1 2. unfold cacheGet, dateNow, bind.
  cbn [theCache ticks calls]. unfold TtlCache.get. rewrite Hget.
  unfold startAfterMiss.
  destruct (Z.gtb_spec (len (normalizeText text)) MAX_TEXT_LENGTH); [lia|].
  unfold bind, startCall, ret. cbn [translateResume theCache ticks calls].
  destruct (settle env _ _) as [response|error].
  - unfold bind.
    destruct (processTranslationResponse env response _ _) as [r w1] eqn:Ep.
    destruct r as [v|m1]; unfold ret, wrapError; [discriminate|].
    intros [= <- <-].
    assert (Hw : w1 = {| theCache := theCache w; ticks := ticks w;
                         calls := calls w
                                  ++ [{| source := sourceLang;
                                         target := targetLang;
                                         q := normalizeText text |}] |}).
    { unfold processTranslationResponse in Ep.
      destruct (data response) as [| | | | |items|]; try (now inversion Ep).
      destruct items as [|main rest]; [now inversion Ep|].
      destruct main as [| | | | |sentences|]; try (now inversion Ep).
      destruct (translatedPartsOf sentences) as [|part parts];
        [now inversion Ep|].
      unfold bind in Ep. destruct (cacheSet env _ _ _). discriminate. }
    subst w1. cbn [theCache calls].
    split; [reflexivity|]. split; [reflexivity|]. now exists m1.
  - unfold wrapError. intros [= <- <-]. cbn [theCache calls].
    split; [reflexivity|]. split; [reflexivity|]. now exists (message error).
Qed.

Lemma failed_translation_is_not_cached_witness :
  let env := {| clock := fun _ => 0;
                upstream := fun _ => Samples.alwaysFails (Samples.statusError 403);
                jitter := fun _ => Samples.someJitter |} in
  exists m w',
    translate env (str "en") (str "es") (str "Hola") initialWorld
    = (Thrown m, w')
    /\ theCache w' = theCache initialWorld.
Proof.
  intros env. eexists. eexists. split; [reflexivity|].
  refine (proj1 (failed_translation_is_not_cached env (str "en") (str "es")
                   (str "Hola") _ initialWorld _ _ eq_refl)).
  split; [reflexivity|]. split; [vm_compute; discriminate | reflexivity].
Defined.

End FreeTranslateEnds.

(** ** Punctuation and entities in the answers *)

Section AnswerText.
Import JsString FreeNoCache.
Local Open Scope Z_scope.

Lemma punctuation_is_not_white (c : char) :
  isPunctuation c = true -> isWhiteSpace c = false.
Proof.
  unfold isPunctuation. rewrite !orb_true_iff, !N.eqb_eq.
  intros [[[[[-> | ->] | ->] | ->] | ->] | ->]; reflexivity.
Qed.

Lemma white_is_not_punctuation (c : char) :
  isWhiteSpace c = true -> isPunctuation c = false.
Proof.
  intros H. destruct (isPunctuation c) eqn:E; [|reflexivity].
  apply punctuation_is_not_white in E. congruence.
Qed.

Lemma tighten_head (s : jsstring) :
  startsWithPunctuation (tightenPunctuation s) = punctuationAhead s.
Proof.
  induction s as [|c r IH]; [reflexivity|].
  cbn [tightenPunctuation punctuationAhead].
  destruct (isWhiteSpace c) eqn:Ew; cbn [andb].
  - destruct (punctuationAhead r) eqn:Ep.
    + now rewrite IH.
    + cbn [startsWithPunctuation]. now apply white_is_not_punctuation.
  - reflexivity.
Qed.

Lemma tighten_tight (s : jsstring) :
  spaceBeforePunctuation (tightenPunctuation s) = false.
Proof.
  induction s as [|c r IH]; [reflexivity|].
  cbn [tightenPunctuation].
  destruct (isWhiteSpace c && punctuationAhead r) eqn:E; [exact IH|].
  cbn [spaceBeforePunctuation]. rewrite IH, tighten_head, E. reflexivity.
Qed.

Lemma ahead_is_loose (s : jsstring) :
  punctuationAhead s = true ->
  startsWithPunctuation s = true \/ spaceBeforePunctuation s = true.
Proof.
  induction s as [|c r IH]; [discriminate|].
  cbn [punctuationAhead startsWithPunctuation spaceBeforePunctuation].
  destruct (isWhiteSpace c) eqn:Ew; cbn [andb].
  - intros H. right. destruct (IH H) as [-> | ->]; [reflexivity|].
    apply orb_true_r.
  - intros H. now left.
Qed.

Lemma tighten_fixed (s : jsstring) :
  spaceBeforePunctuation s = false -> tightenPunctuation s = s.
Proof.
  induction s as [|c r IH]; [reflexivity|].
  cbn [spaceBeforePunctuation tightenPunctuation]. intros H.
  apply orb_false_iff in H as [H1 H2].
  destruct (isWhiteSpace c && punctuationAhead r) eqn:E.
  - apply andb_true_iff in E as [Ew Ep].
    destruct (ahead_is_loose r Ep) as [Hs | Hs]; [|congruence].
    rewrite Ew, Hs in H1. discriminate.
  - f_equal. now apply IH.
Qed.

Lemma tighten_nonWhite (s : jsstring) :
  nonWhite (tightenPunctuation s) = nonWhite s.
Proof.
  induction s as [|c r IH]; [reflexivity|].
  cbn [tightenPunctuation nonWhite filter].
  destruct (isWhiteSpace c) eqn:Ew; cbn [andb negb].
  - destruct (punctuationAhead r); [exact IH|].
    cbn [nonWhite filter]. rewrite Ew. exact IH.
  - cbn [nonWhite filter]. rewrite Ew. cbn [negb]. f_equal. exact IH.
Qed.

Lemma tighten_length (s : jsstring) :
  len (tightenPunctuation s) <= len s.
Proof.
  unfold len. induction s as [|c r IH]; [simpl; lia|].
  cbn [tightenPunctuation].
  destruct (isWhiteSpace c && punctuationAhead r); simpl List.length; lia.
Qed.

(** X18.  [replace(/\s+([.,!?;:])/g, '$1')] only removes white space: the
    other characters stay, in their order, and the text does not grow.
    Afterwards no white space character stands right before one of the marks
    [. , ! ? ; :], and a text in which none did is returned as it is. *)
Theorem tightenPunctuation_removes_space_before_marks (s : jsstring) :
  nonWhite (tightenPunctuation s) = nonWhite s
  /\ len (tightenPunctuation s) <= len s
  /\ spaceBeforePunctuation (tightenPunctuation s) = false
  /\ (spaceBeforePunctuation s = false -> tightenPunctuation s = s).
Proof.
  split; [apply tighten_nonWhite|]. split; [apply tighten_length|].
  split; [apply tighten_tight | apply tighten_fixed].
Qed.

Lemma tightenPunctuation_removes_space_before_marks_witness :
  tightenPunctuation (str "Hola , mundo  !") = str "Hola, mundo!"
  /\ tightenPunctuation (str "Hola, mundo!") = str "Hola, mundo!".
Proof.
  split; [reflexivity|].
  apply (proj2 (proj2 (proj2
    (tightenPunctuation_removes_space_before_marks (str "Hola, mundo!"))))).
  reflexivity.
Defined.

End AnswerText.

Section AnswerEntities.
Import JsString FreeNoCache.
Local Open Scope Z_scope.

Lemma spaceBefore_app (a b : jsstring) :
  spaceBeforePunctuation (a ++ b) = false ->
  spaceBeforePunctuation a = false /\ spaceBeforePunctuation b = false.
Proof.
  induction a as [|c r IH]; [now split|].
  cbn [app spaceBeforePunctuation]. intros H.
  apply orb_false_iff in H as [H1 H2]. destruct (IH H2) as [Ha Hb].
  split; [|exact Hb]. rewrite Ha, orb_false_r.
  destruct (isWhiteSpace c); [|reflexivity]. cbn [andb] in *.
  destruct r; [reflexivity | exact H1].
Qed.

Lemma spaceBefore_trim (s : jsstring) :
  spaceBeforePunctuation s = false -> spaceBeforePunctuation (trim s) = false.
Proof.
  intros H. unfold trim, trimStart.
  destruct (dropWhile_suffix s) as (gone & E). rewrite E in H.
  apply spaceBefore_app in H as [_ H].
  destruct (trimEnd_prefix (dropWhile isWhiteSpace s)) as (gone' & E').
  rewrite E' in H. now apply spaceBefore_app in H as [H _].
Qed.

(** X19.  The text that [processTranslationResponse] returns has no white
    space at its ends and no white space right before a punctuation mark. *)
Theorem processTranslationResponse_answer_is_tidy (response : Response)
  (answer : jsstring) :
  processTranslationResponse response = Ok answer ->
  trim answer = answer /\ spaceBeforePunctuation answer = false.
Proof.
  unfold processTranslationResponse.
  destruct (data response) as [| | | | |items|]; try discriminate.
  destruct items as [|main rest]; [discriminate|].
  destruct main as [| | | | |sentences|]; try discriminate.
  destruct (flat_map _ sentences) as [|part parts]; [discriminate|].
  intros [= <-]. split.
  - apply trim_idempotent.
  - apply spaceBefore_trim, tighten_tight.
Qed.

Lemma processTranslationResponse_answer_is_tidy_witness :
  let response :=
    {| data := JArray [JArray [JArray [JString (str " Hola , mundo")];
                               JArray [JString (str "adios !")]]] |} in
  processTranslationResponse response = Ok (str "Hola, mundo adios!")
  /\ spaceBeforePunctuation (str "Hola, mundo adios!") = false.
Proof.
  intros response. split; [reflexivity|].
  exact (proj2 (processTranslationResponse_answer_is_tidy response
                  (str "Hola, mundo adios!") eq_refl)).
Defined.

Lemma isPrefix_length (p s : jsstring) :
  isPrefix p s = true -> (List.length p <= List.length s)%nat.
Proof.
  revert s. induction p as [|x p IH]; intros s H; simpl; [lia|].
  destruct s as [|y s]; [discriminate|]. simpl in *.
  apply andb_true_iff in H as [_ H]. apply IH in H. lia.
Qed.

Lemma replaceAllFrom_length (pattern replacement : jsstring) :
  (List.length replacement <= List.length pattern)%nat ->
  forall s skip,
    (List.length (replaceAllFrom skip pattern replacement s)
     + Nat.min skip (List.length s)
     <= List.length s)%nat.
Proof.
  intros Hrep. induction s as [|c r IH]; intros skip.
  - simpl. lia.
  - cbn [replaceAllFrom]. destruct skip as [|k].
    + destruct (isPrefix pattern (c :: r)) eqn:E.
      * apply isPrefix_length in E. simpl in E.
        specialize (IH (List.length pattern - 1)%nat).
        rewrite length_app. simpl. lia.
      * specialize (IH 0%nat). simpl. lia.
    + specialize (IH k). simpl. lia.
Qed.

Lemma replaceAll_length (pattern replacement s : jsstring) :
  (List.length replacement <= List.length pattern)%nat ->
  len (replaceAll pattern replacement s) <= len s.
Proof.
  intros H. pose proof (replaceAllFrom_length pattern replacement H s 0).
  unfold replaceAll, len. lia.
Qed.

Lemma replaceAll_absent (p0 : char) (pattern replacement s : jsstring) :
  ~ In p0 s -> replaceAll (p0 :: pattern) replacement s = s.
Proof.
  unfold replaceAll. induction s as [|c r IH]; intros H; [reflexivity|].
  cbn [replaceAllFrom isPrefix].
  destruct (N.eqb_spec p0 c) as [-> | _]; [elim H; now left|].
  cbn [andb]. f_equal. apply IH. intros Hin. apply H. now right.
Qed.

(** X20.  [decodeHtmlEntities] leaves a text without [&] as it is, and
    never makes a text longer. *)
Theorem decodeHtmlEntities_only_touches_entities (s : jsstring) :
  (~ In AMP s -> decodeHtmlEntities s = s)
  /\ len (decodeHtmlEntities s) <= len s.
Proof.
  unfold decodeHtmlEntities. destruct (negb (truthy s)); [split; [reflexivity | lia]|].
  split.
  - intros H.
    change (str "&amp;") with (AMP :: str "amp;").
    change (str "&lt;") with (AMP :: str "lt;").
    change (str "&gt;") with (AMP :: str "gt;").
    change (str "&quot;") with (AMP :: str "quot;").
    change (str "&#39;") with (AMP :: str "#39;").
    rewrite (replaceAll_absent AMP (str "amp;") (str "&") s H).
    rewrite (replaceAll_absent AMP (str "lt;") (str "<") s H).
    rewrite (replaceAll_absent AMP (str "gt;") (str ">") s H).
    rewrite (replaceAll_absent AMP (str "quot;") [34%N] s H).
    apply (replaceAll_absent AMP (str "#39;") (str "'") s H).
  - repeat (etransitivity; [apply replaceAll_length; simpl; lia|]).
    lia.
Qed.

Lemma decodeHtmlEntities_only_touches_entities_witness :
  decodeHtmlEntities (str "Hola <mundo>") = str "Hola <mundo>".
Proof.
  apply (proj1 (decodeHtmlEntities_only_touches_entities (str "Hola <mundo>"))).
  unfold AMP. simpl. intros H.
  repeat (destruct H as [H | H]; [discriminate H|]). exact H.
Defined.

End AnswerEntities.

(** ** Language detection *)

Section Detection.
Import JsString Chunker Executor StateM FreeNoCache.
Local Open Scope Z_scope.

Lemma normalizeText_idempotent (t : jsstring) :
  normalizeText (normalizeText t) = normalizeText t.
Proof.
  assert (Hw : wellSpaced (normalizeText t) = true).
  { unfold normalizeText. destruct (trim_ends t) as [Hhead Hend].
    destruct (trim t) as [|c r] eqn:E; [reflexivity|].
    pose proof (collapse_spaced (c :: r) ltac:(discriminate) Hend false) as H.
    cbn [collapseSpaces] in *. rewrite Hhead in *.
    cbn [wellSpaced spacedFrom] in *. rewrite Hhead in *. exact H. }
  destruct (normalizeText t) as [|c r]; [reflexivity|].
  cbn [wellSpaced] in Hw. unfold normalizeText. rewrite trim_fixed.
  - now apply (proj1 (spaced_collapse (c :: r))).
  - cbn [spacedFrom] in Hw. destruct (isWhiteSpace c); [|reflexivity].
    rewrite andb_false_r in Hw. discriminate.
  - eapply spaced_ends. exact Hw.
Qed.

Lemma substring_head_length (text : jsstring) (n : Z) :
  0 <= n -> len (substring text 0 n) <= n.
Proof.
  intros Hn. unfold substring, clamp, len.
  rewrite length_firstn, length_skipn. lia.
Qed.

Variable env : Env.

Local Abbreviation detectParams cleaned :=
  {| q := substring cleaned 0 1000; source := str "auto"; target := str "en" |}.

Lemma detectLanguage_calls (text : jsstring) (w : World) :
  truthy (normalizeText text) = true ->
  calls (snd (detectLanguage env text w))
  = calls w ++ [detectParams (normalizeText text)]
  /\ match fst (detectLanguage env text w) with
     | Ok _ => True
     | Thrown m => exists m', m = msgDetectPrefix ++ m'
     end.
Proof.
  intros Hne. unfold detectLanguage. rewrite Hne. cbn [negb].
  unfold bind, callAPI.
  destruct (snd (callTranslationAPI _ _ _ 0)) as [response|error].
  - destruct (data response) as [| | | | |items|];
      try (split; [reflexivity | now exists msgNoDetect]).
    destruct items as [|a [|b [|[| | | |lang| |] rest]]];
      try (split; [reflexivity | now exists msgNoDetect]).
    split; [reflexivity | exact I].
  - split; [reflexivity | now exists (message error)].
Qed.

Lemma translateChunk_calls (targetLang effectiveSource chunk : jsstring)
  (w : World) :
  calls (snd (translateChunk env targetLang effectiveSource chunk w))
  = calls w ++ [{| q := chunk; source := effectiveSource;
                   target := targetLang |}].
Proof.
  unfold translateChunk, bind, callAPI.
  destruct (snd (callTranslationAPI _ _ _ 0)); reflexivity.
Qed.

Lemma translateChunks_calls (targetLang effectiveSource : jsstring)
  (chunks : list jsstring) : forall w,
  calls (snd (mapM (translateChunk env targetLang effectiveSource) chunks w))
  = calls w ++ map (fun chunk => {| q := chunk; source := effectiveSource;
                                    target := targetLang |}) chunks.
Proof.
  induction chunks as [|chunk rest IH]; intros w.
  - simpl. now rewrite app_nil_r.
  - cbn [mapM map]. unfold bind.
    pose proof (translateChunk_calls targetLang effectiveSource chunk w) as H.
    destruct (translateChunk env targetLang effectiveSource chunk w) as [r w1].
    cbn [snd] in H. specialize (IH w1).
    destruct (mapM _ rest w1) as [rs w2]. cbn [snd ret] in *.
    rewrite IH, H, <- app_assoc. reflexivity.
Qed.

End Detection.

Section DetectionAndTranslation.
Import JsString Chunker Executor StateM FreeNoCache.
Local Open Scope Z_scope.

(** X21.  [detectLanguage] rejects a blank text at once, without a request.
    For any other text it makes one invocation of [callTranslationAPI], from
    language [auto] to [en], with at most the first 1000 code units of the
    normalised text; every rejection then carries the detection prefix. *)
Theorem detectLanguage_sends_one_short_request (env : Env) (text : jsstring)
  (w : World) :
  (nonWhite text = [] ->
   detectLanguage env text w = (Thrown msgEmptyDetect, w))
  /\ (nonWhite text <> [] ->
      exists sample,
        calls (snd (detectLanguage env text w))
        = calls w ++ [{| q := sample; source := str "auto";
                         target := str "en" |}]
        /\ sample = substring (normalizeText text) 0 1000
        /\ len sample <= 1000
        /\ forall m, fst (detectLanguage env text w) = Thrown m ->
                     exists m', m = msgDetectPrefix ++ m').
Proof.
  split.
  - intros Hblank. unfold detectLanguage.
    rewrite (normalizeText_blank text Hblank). reflexivity.
  - intros Hne. apply normalizeText_not_blank in Hne.
    destruct (detectLanguage_calls env text w Hne) as [Hcalls Hshape].
    exists (substring (normalizeText text) 0 1000).
    split; [exact Hcalls|]. split; [reflexivity|].
    split; [apply substring_head_length; lia|].
    intros m Hm. rewrite Hm in Hshape. exact Hshape.
Qed.

Lemma detectLanguage_sends_one_short_request_witness :
  let env := {| upstream := fun _ _ _ =>
                  Success {| data := JArray [JNull; JNull; JString (str "es")] |};
                jitter := fun _ => Samples.someJitter |} in
  detectLanguage env [SP] {| calls := [] |} = (Thrown msgEmptyDetect, {| calls := [] |})
  /\ exists sample,
       calls (snd (detectLanguage env (str " Hola  mundo ") {| calls := [] |}))
       = [{| q := sample; source := str "auto"; target := str "en" |}]
       /\ sample = str "Hola mundo".
Proof.
  intros env.
  destruct (detectLanguage_sends_one_short_request env [SP] {| calls := [] |})
    as [Hblank _].
  destruct (detectLanguage_sends_one_short_request env (str " Hola  mundo ")
              {| calls := [] |}) as [_ Hother].
  split; [apply Hblank; reflexivity|].
  destruct Hother as (sample & Hc & Hs & _); [vm_compute; discriminate|].
  exists sample. split; [exact Hc|]. rewrite Hs. reflexivity.
Defined.

(** X22.  The requests of one [translate] of the client with [options].
    With a source language other than [auto] and [auto-detect], the
    invocations of [callTranslationAPI] are one for each chunk of the
    normalised text (one in all for a text within the length limit), in the
    order of the chunks, from the given source language.  With [auto] or
    [auto-detect] a detection request comes first, and the chunks are then
    sent from the detected language, or from [auto] when the detection was
    rejected: a failed detection does not fail the translation. *)
Theorem translate_requests (env : Env)
  (targetLang sourceLang text : jsstring) (options : option Options)
  (w : World) :
  nonWhite text <> [] ->
  let cleaned := normalizeText text in
  let requests effectiveSource :=
    map (fun chunk => {| q := chunk; source := effectiveSource;
                         target := targetLang |})
      (splitText cleaned MAX_TEXT_LENGTH) in
  let detected := fst (detectLanguage env cleaned w) in
  calls (snd (translate env targetLang sourceLang text options w))
  = if eqb sourceLang (str "auto") || eqb sourceLang (str "auto-detect")
    then calls w
         ++ {| q := substring cleaned 0 1000; source := str "auto";
               target := str "en" |}
         :: requests match detected with
                     | Ok lang => lang
                     | Thrown _ => str "auto"
                     end
    else calls w ++ requests sourceLang.
Proof.
  intros Hne cleaned requests detected.
  apply normalizeText_not_blank in Hne. fold cleaned in Hne.
  assert (Hrest : forall effectiveSource w1,
    calls (snd (
      (if len cleaned >? MAX_TEXT_LENGTH
       then
         bind (mapM (translateChunk env targetLang effectiveSource)
                 (splitText cleaned MAX_TEXT_LENGTH))
           (fun translatedChunks =>
              match allOk translatedChunks with
              | Ok parts => ret (Ok (join [SP] parts))
              | Thrown m => ret (wrapError (Thrown m))
              end)
       else
         bind (translateChunk env targetLang effectiveSource cleaned)
           (fun r => ret (wrapError r))) w1))
    = calls w1 ++ requests effectiveSource).
  { intros effectiveSource w1. unfold requests.
    destruct (Z.gtb_spec (len cleaned) MAX_TEXT_LENGTH) as [Hgt|Hle].
    - unfold bind.
      pose proof (translateChunks_calls env targetLang effectiveSource
                    (splitText cleaned MAX_TEXT_LENGTH) w1) as H.
      destruct (mapM _ _ w1) as [rs w2]. cbn [snd] in H.
      destruct (allOk rs); exact H.
    - unfold splitText.
      destruct (Z.leb_spec (len cleaned) MAX_TEXT_LENGTH) as [_|]; [|lia].
      unfold bind.
      pose proof (translateChunk_calls env targetLang effectiveSource cleaned
                    w1) as H.
      destruct (translateChunk env targetLang effectiveSource cleaned w1).
      exact H. }
  unfold translate. fold cleaned. rewrite Hne. cbn [negb].
  destruct (eqb sourceLang (str "auto") || eqb sourceLang (str "auto-detect")).
  - unfold bind at 1 2.
    assert (Hne' : truthy (normalizeText cleaned) = true).
    { unfold cleaned. now rewrite normalizeText_idempotent. }
    destruct (detectLanguage_calls env cleaned w Hne') as [Hcalls _].
    change (normalizeText cleaned) with (normalizeText (normalizeText text))
      in Hcalls.
    rewrite normalizeText_idempotent in Hcalls.
    fold cleaned in Hcalls. unfold detected.
    destruct (detectLanguage env cleaned w) as [[lang|m] w1];
      cbn [fst snd ret] in *.
    + rewrite (Hrest lang w1), Hcalls, <- app_assoc. reflexivity.
    + rewrite (Hrest (str "auto") w1), Hcalls, <- app_assoc. reflexivity.
  - unfold bind at 1. cbn [ret]. apply Hrest.
Qed.

Lemma translate_requests_witness :
  let env := {| upstream := fun _ _ _ => Failure Samples.networkError;
                jitter := fun _ => Samples.someJitter |} in
  calls (snd (translate env (str "en") (str "auto") (str "Hola") None
                {| calls := [] |}))
  = [{| q := str "Hola"; source := str "auto"; target := str "en" |};
     {| q := str "Hola"; source := str "auto"; target := str "en" |}].
Proof.
  intros env.
  rewrite (translate_requests env (str "en") (str "auto") (str "Hola") None
             {| calls := [] |});
    [reflexivity | vm_compute; discriminate].
Defined.

End DetectionAndTranslation.

(** ** The rotation of user agents *)

Section Rotation.
Import JsString Rotator.

Lemma rotation_from (pool : list jsstring) (n : nat) : forall i,
  pool <> [] -> i < List.length pool ->
  getNextAgents n {| agents := pool; currentIndex := At i |}
  = map (fun k => nth_error pool ((i + k) mod List.length pool)) (seq 0 n).
Proof.
  induction n as [|n IH]; intros i Hne Hi; [reflexivity|].
  cbn [getNextAgents getNextAgent agents currentIndex].
  destruct (List.length pool) as [|m] eqn:El; [lia|].
  cbn [seq map]. f_equal.
  - rewrite Nat.add_0_r, Nat.mod_small by exact Hi. reflexivity.
  - rewrite <- El in *. rewrite IH; [|exact Hne | apply Nat.mod_upper_bound; lia].
    rewrite <- seq_shift, map_map. apply map_ext. intros k.
    f_equal. rewrite Nat.Div0.add_mod_idemp_l. f_equal. lia.
Qed.

Lemma rotation_of_nothing (n : nat) : forall index,
  getNextAgents n {| agents := []; currentIndex := index |} = repeat None n.
Proof.
  induction n as [|n IH]; intros index; [reflexivity|].
  cbn [getNextAgents getNextAgent agents currentIndex repeat].
  f_equal.
  - destruct index as [[|i]|]; reflexivity.
  - destruct index; apply IH.
Qed.

(** X23.  The rotator hands out its agents in turn: the call number [k]
    (from 0) of [getNextAgent()] returns the agent at index [k] modulo the
    number of agents, so every agent is used once in each round and the
    result is never [undefined].  A rotator made with an empty list returns
    [undefined] at every call. *)
Theorem agents_are_handed_out_in_turn (pool : list jsstring) (n : nat) :
  (pool <> [] ->
   getNextAgents n (new pool)
   = map (fun k => nth_error pool (k mod List.length pool)) (seq 0 n)
   /\ Forall (fun agent => exists a, agent = Some a /\ In a pool)
        (getNextAgents n (new pool)))
  /\ (pool = [] -> getNextAgents n (new pool) = repeat None n).
Proof.
  split.
  - intros Hne.
    assert (Hlen : 0 < List.length pool).
    { destruct pool; [congruence | simpl; lia]. }
    assert (E : getNextAgents n (new pool)
                = map (fun k => nth_error pool (k mod List.length pool))
                    (seq 0 n)).
    { unfold new. rewrite rotation_from by assumption. reflexivity. }
    split; [exact E|]. rewrite E. apply Forall_forall.
    intros agent Hin. apply in_map_iff in Hin as (k & <- & _).
    destruct (nth_error pool (k mod List.length pool)) as [a|] eqn:Ea.
    + exists a. split; [reflexivity|]. eapply nth_error_In, Ea.
    + apply nth_error_None in Ea.
      pose proof (Nat.mod_upper_bound k (List.length pool)). lia.
  - intros ->. apply rotation_of_nothing.
Qed.

Lemma agents_are_handed_out_in_turn_witness :
  getNextAgents 5 (new [str "A"; str "B"; str "C"])
  = [Some (str "A"); Some (str "B"); Some (str "C"); Some (str "A");
     Some (str "B")]
  /\ getNextAgents 2 (new []) = [None; None].
Proof.
  split.
  - rewrite (proj1 (proj1 (agents_are_handed_out_in_turn
                             [str "A"; str "B"; str "C"] 5)
                      ltac:(discriminate))).
    reflexivity.
  - exact (proj2 (agents_are_handed_out_in_turn [] 2) eq_refl).
Defined.

End Rotation.

(** ** [translate] of the keyed client *)

Section KeyedTranslate.
Import JsString Chunker Executor StateM Keyed.
Local Open Scope Z_scope.

Variable env : Env.

Local Abbreviation notLong text := (len (normalizeText text) <= MAX_CHUNK_LENGTH).

Lemma sortText_not_long sl tl c st index text :
  notLong text ->
  longTexts (sortText sl tl c st (index, text)) = longTexts st
  /\ incl (batchTexts (sortText sl tl c st (index, text)))
       (batchTexts st ++ [normalizeText text]).
Proof.
  intros Hlen. unfold sortText.
  destruct (negb (truthy (normalizeText text))).
  - split; [reflexivity | apply incl_appl, incl_refl].
  - destruct (Z.gtb_spec (len (normalizeText text)) MAX_CHUNK_LENGTH); [lia|].
    destruct (FifoCache.get _ c) as [cached|];
      [destruct (truthy cached)|]; cbn [longTexts batchTexts];
      split; try reflexivity; try apply incl_refl.
    apply incl_appl, incl_refl.
Qed.

Lemma sort_not_long sl tl c texts : forall start st,
  Forall (fun text => notLong text) texts ->
  longTexts (fold_left (sortText sl tl c)
               (combine (seq start (List.length texts)) texts) st)
  = longTexts st
  /\ incl (batchTexts (fold_left (sortText sl tl c)
                         (combine (seq start (List.length texts)) texts) st))
       (batchTexts st ++ map normalizeText texts).
Proof.
  induction texts as [|text texts IH]; intros start st Hall.
  - simpl. split; [reflexivity|]. rewrite app_nil_r. apply incl_refl.
  - inversion Hall as [|? ? Hhead Hrest]; subst.
    cbn [List.length seq combine fold_left map].
    destruct (sortText_not_long sl tl c st start text Hhead) as [Hl Hb].
    destruct (IH (S start) (sortText sl tl c st (start, text)) Hrest)
      as [Hl' Hb'].
    split; [now rewrite Hl', Hl|].
    eapply incl_tran; [exact Hb'|].
    intros x Hx. apply in_app_iff in Hx as [Hx | Hx].
    + apply Hb in Hx. apply in_app_iff in Hx as [Hx | Hx];
        apply in_app_iff; [now left | right].
      destruct Hx as [<- | []]. now left.
    + apply in_app_iff. right. now right.
Qed.

Lemma distributeAll_calls sl tl rows : forall final w,
  calls (snd (distributeAll sl tl final rows w)) = calls w.
Proof.
  induction rows as [|[translatedText [originalIndex batchText]] rest IH];
    intros final w; [reflexivity|].
  cbn [distributeAll]. unfold bind at 1. unfold distribute, bind, cacheSet, ret.
  rewrite IH. reflexivity.
Qed.

Lemma translateBatch_calls sl tl st w :
  calls (snd (translateBatch env sl tl st w)) = calls w
  \/ calls (snd (translateBatch env sl tl st w))
     = calls w ++ [{| q := Many (batchTexts st); source := sl; target := tl |}].
Proof.
  unfold translateBatch. destruct (batchTexts st) as [|t ts] eqn:Eb.
  - now left.
  - right. unfold bind at 1. unfold startCall at 1.
    destruct (settle env _ _) as [body|error]; [|reflexivity].
    destruct (negb _); [reflexivity|].
    unfold bind. 
    pose proof (distributeAll_calls sl tl
                  (combine
                     match translations body with Some l => l | None => [] end
                     (combine (batchIndices st) (t :: ts)))
                  (finalTranslations st)
                  {| theCache := theCache w;
                     calls := calls w
                              ++ [{| q := Many (t :: ts); source := sl;
                                     target := tl |}] |}) as H.
    destruct (distributeAll _ _ _ _ _) as [final w']. exact H.
Qed.

(** With no long text among them, [translateMultiple] is the forEach pass
    and the combined call: the [translate] it holds for long texts is not
    called. *)
Lemma translateMultiple_not_long (Pending : Type)
  (translateStart : jsstring -> jsstring -> jsstring -> M World Pending)
  (translateResume : Pending -> M World (Result jsstring))
  texts tl sl w :
  texts <> [] ->
  Forall (fun text => notLong text) texts ->
  translateMultiple env translateStart translateResume texts tl sl w
  = translateBatch env sl tl
      (fold_left (sortText sl tl (theCache w))
         (combine (seq 0 (List.length texts)) texts)
         {| finalTranslations := repeat None (List.length texts);
            batchTexts := []; batchIndices := []; longTexts := [] |}) w.
Proof.
  intros Hne Hall. unfold translateMultiple.
  destruct texts as [|text texts'] eqn:Et; [congruence|]. rewrite <- Et in *.
  destruct (sort_not_long sl tl (theCache w) texts 0
              {| finalTranslations := repeat None (List.length texts);
                 batchTexts := []; batchIndices := []; longTexts := [] |} Hall)
    as [Hl _].
  cbn [longTexts] in Hl. rewrite Hl. cbn [mapM]. unfold bind at 1.
  unfold ret at 1. unfold bind.
  destruct (translateBatch env sl tl _ w) as [[final|m] w']; reflexivity.
Qed.

End KeyedTranslate.

Section KeyedTranslateEnds.
Import JsString Chunker Executor StateM Keyed.
Local Open Scope Z_scope.

(** X24.  [translate] of the keyed client on a text that is longer than
    [MAX_CHUNK_LENGTH] after normalisation.  The splitting loop ends, and its
    chunks are the normalised text cut in pieces of at most
    [MAX_CHUNK_LENGTH] code units; [translateMultiple] therefore finds no long
    text among the chunks and never calls back into [translate]: whatever is
    put for that inner [translate], the result and the effects are the same.
    The whole text costs at most one invocation of [callTranslationAPI], the
    combined one, whose texts are normalised chunks. *)
Theorem keyed_translate_of_a_long_text (env : Env) (Pending : Type)
  (translateStart : jsstring -> jsstring -> jsstring -> M World Pending)
  (translateResume : Pending -> M World (Result jsstring))
  (tl sl text : jsstring) (w : World) :
  len (normalizeText text) > MAX_CHUNK_LENGTH ->
  exists chunks r w',
    splitTextIntoChunks (normalizeText text) MAX_CHUNK_LENGTH = Some chunks
    /\ List.concat chunks = normalizeText text
    /\ Forall (fun chunk => len chunk <= MAX_CHUNK_LENGTH) chunks
    /\ translate env translateStart translateResume tl sl text w = (Some r, w')
    /\ (forall (Pending' : Type)
               (translateStart' : jsstring -> jsstring -> jsstring
                                  -> M World Pending')
               (translateResume' : Pending' -> M World (Result jsstring)),
          translate env translateStart' translateResume' tl sl text w
          = (Some r, w'))
    /\ (calls w' = calls w
        \/ exists texts,
             calls w' = calls w ++ [{| q := Many texts; source := sl;
                                       target := tl |}]
             /\ incl texts (map normalizeText chunks)).
Proof.
  intros Hlong.
  assert (Hmax : 0 < MAX_CHUNK_LENGTH) by (unfold MAX_CHUNK_LENGTH; lia).
  destruct (splitLoop_cuts (normalizeText text) MAX_CHUNK_LENGTH Hmax
              (S (List.length (normalizeText text))) [] 0)
    as (chunks & Esplit & Hconcat & Hall).
  { unfold len. lia. }
  { unfold len. lia. }
  { split; [reflexivity | constructor]. }
  fold (splitTextIntoChunks (normalizeText text) MAX_CHUNK_LENGTH) in Esplit.
  assert (Hcat : List.concat chunks = normalizeText text).
  { rewrite Hconcat. unfold len. now rewrite Nat2Z.id, firstn_all. }
  assert (Hne : chunks <> []).
  { intros ->. simpl in Hcat. rewrite <- Hcat in Hlong.
    unfold MAX_CHUNK_LENGTH, len in Hlong. simpl List.length in Hlong. lia. }
  assert (Hshort : Forall (fun chunk =>
                             len (normalizeText chunk) <= MAX_CHUNK_LENGTH)
                     chunks).
  { eapply Forall_impl; [|exact Hall]. cbn beta. intros chunk Hc.
    pose proof (normalizeText_not_longer chunk). lia. }
  assert (Hbound : Forall (fun chunk => len chunk <= MAX_CHUNK_LENGTH) chunks).
  { eapply Forall_impl; [|exact Hall]. cbn beta. intros chunk Hc. lia. }
  assert (Htruthy : truthy (normalizeText text) = true).
  { destruct (normalizeText text); [|reflexivity].
    unfold MAX_CHUNK_LENGTH, len in Hlong. simpl List.length in Hlong. lia. }
  set (st := fold_left (sortText sl tl (theCache w))
               (combine (seq 0 (List.length chunks)) chunks)
               {| finalTranslations := repeat None (List.length chunks);
                  batchTexts := []; batchIndices := []; longTexts := [] |}).
  assert (Hrun : forall (P : Type)
                        (tS : jsstring -> jsstring -> jsstring -> M World P)
                        (tR : P -> M World (Result jsstring)),
             translate env tS tR tl sl text w
             = (let '(r, w') := translateBatch env sl tl st w in
                match r with
                | Ok translatedChunks =>
                    (Some (Ok (join [SP] (map printed translatedChunks))), w')
                | Thrown m => (Some (Thrown m), w')
                end)).
  { intros P tS tR. unfold translate. rewrite Htruthy. cbn [negb].
    destruct (Z.gtb_spec (len (normalizeText text)) MAX_CHUNK_LENGTH); [|lia].
    rewrite Esplit. unfold bind.
    rewrite (translateMultiple_not_long env P tS tR chunks tl sl w Hne Hshort).
    fold st. destruct (translateBatch env sl tl st w) as [[final|m] w'];
      reflexivity. }
  pose proof (translateBatch_calls env sl tl st w) as Hcalls.
  destruct (sort_not_long sl tl (theCache w) chunks 0
              {| finalTranslations := repeat None (List.length chunks);
                 batchTexts := []; batchIndices := []; longTexts := [] |}
              Hshort) as [_ Hincl].
  fold st in Hincl. cbn [batchTexts app] in Hincl.
  destruct (translateBatch env sl tl st w) as [r w'] eqn:Eb.
  cbn [snd] in Hcalls.
  exists chunks.
  exists (match r with
          | Ok translatedChunks => Ok (join [SP] (map printed translatedChunks))
          | Thrown m => Thrown m
          end), w'.
  split; [exact Esplit|]. split; [exact Hcat|]. split; [exact Hbound|].
  split; [rewrite Hrun; now destruct r|].
  split; [intros P' tS' tR'; rewrite Hrun; now destruct r|].
  destruct Hcalls as [Hc | Hc]; [now left | right].
  exists (batchTexts st). split; [exact Hc | exact Hincl].
Qed.

Lemma keyed_translate_of_a_long_text_witness :
  let env := {| upstream := fun _ _ _ =>
                  Success {| translations := Some [str "a"; str "b"] |} |} in
  let text := List.concat (repeat (str "hola ") 120) in
  exists chunks r w',
    splitTextIntoChunks (normalizeText text) MAX_CHUNK_LENGTH = Some chunks
    /\ List.length chunks = 2%nat
    /\ translate env Scenes.noLongStart Scenes.noLongResume (str "en")
         (str "es") text initialWorld
       = (Some r, w')
    /\ List.length (calls w') = 1%nat.
Proof.
  intros env text.
  destruct (keyed_translate_of_a_long_text env unit Scenes.noLongStart
              Scenes.noLongResume (str "en") (str "es") text initialWorld)
    as (chunks & r & w' & Hsplit & _ & _ & Hrun & _ & _).
  - vm_compute. reflexivity.
  - exists chunks, r, w'. split; [exact Hsplit|].
    split; [|split; [exact Hrun|]].
    + vm_compute in Hsplit. injection Hsplit as <-. reflexivity.
    + vm_compute in Hrun. injection Hrun as _ <-. reflexivity.
Defined.

(** X25.  A short text in the keyed client: the first [translate] of a
    text that is not cached makes one invocation of [callTranslationAPI] with
    the normalised text and, when the first translation of the response is a
    non-empty string, returns it; a second [translate] of the same text right
    after returns the same string from the cache and makes no invocation. *)
Theorem keyed_translate_twice (env : Env) (Pending : Type)
  (translateStart : jsstring -> jsstring -> jsstring -> M World Pending)
  (translateResume : Pending -> M World (Result jsstring))
  (tl sl text translatedText : jsstring) (others : list jsstring) (w : World) :
  shortAndUncached sl tl (theCache w) text ->
  settle env (List.length (calls w))
    {| q := One (normalizeText text); source := sl; target := tl |}
  = Success {| translations := Some (translatedText :: others) |} ->
  truthy translatedText = true ->
  exists w',
    translate env translateStart translateResume tl sl text w
    = (Some (Ok translatedText), w')
    /\ calls w' = calls w ++ [{| q := One (normalizeText text); source := sl;
                                 target := tl |}]
    /\ translate env translateStart translateResume tl sl text w'
       = (Some (Ok translatedText), w').
Proof.
  intros (Hne & Hlen & Hget) Hsettle Htruthy.
  unfold translate. rewrite Hne. cbn [negb].
  destruct (Z.gtb_spec (len (normalizeText text)) MAX_CHUNK_LENGTH); [lia|].
  rewrite Hget. unfold bind at 1. unfold translateShort, bind at 1.
  unfold startCall at 1. rewrite Hsettle. cbn [translations].
  rewrite Htruthy. unfold bind, cacheSet, ret.
  eexists. split; [reflexivity|]. split; [reflexivity|].
  cbn [theCache]. unfold FifoCache.get, FifoCache.set.
  cbn [FifoCache.cache FifoCache.withCache]. rewrite get_set_same.
  now rewrite Htruthy.
Qed.

Lemma keyed_translate_twice_witness :
  let env := {| upstream := fun _ _ _ =>
                  Success {| translations := Some [str "Hello"] |} |} in
  exists w',
    translate env Scenes.noLongStart Scenes.noLongResume (str "en") (str "es")
      (str " Hola ") initialWorld
    = (Some (Ok (str "Hello")), w')
    /\ translate env Scenes.noLongStart Scenes.noLongResume (str "en")
         (str "es") (str " Hola ") w'
       = (Some (Ok (str "Hello")), w').
Proof.
  intros env.
  destruct (keyed_translate_twice env unit Scenes.noLongStart
              Scenes.noLongResume
              (str "en") (str "es") (str " Hola ") (str "Hello") []
              initialWorld) as (w' & H1 & _ & H2).
  - split; [reflexivity|]. split; [vm_compute; discriminate | reflexivity].
  - reflexivity.
  - reflexivity.
  - exists w'. split; [exact H1 | exact H2].
Defined.

(** X26.  How [translate] of the keyed client is rejected for a text that
    needs no splitting.  A blank text is rejected with the empty-text message
    and nothing else happens.  When the call for a short, uncached text is
    rejected (the request failed for good, or the response held no non-empty
    first translation), the message carries the translation prefix and the
    cache is as it was. *)
Theorem keyed_translate_rejections (env : Env) (Pending : Type)
  (translateStart : jsstring -> jsstring -> jsstring -> M World Pending)
  (translateResume : Pending -> M World (Result jsstring))
  (tl sl text : jsstring) (w : World) :
  (nonWhite text = [] ->
   translate env translateStart translateResume tl sl text w
   = (Some (Thrown msgEmptyText), w))
  /\ (forall m w',
        shortAndUncached sl tl (theCache w) text ->
        translate env translateStart translateResume tl sl text w
        = (Some (Thrown m), w') ->
        theCache w' = theCache w
        /\ calls w' = calls w ++ [{| q := One (normalizeText text);
                                     source := sl; target := tl |}]
        /\ exists m', m = msgErrorPrefix ++ m').
Proof.
  split.
  - intros Hblank. unfold translate.
    rewrite (normalizeText_blank text Hblank). reflexivity.
  - intros m w' (Hne & Hlen & Hget).
    unfold translate. rewrite Hne. cbn [negb].
    destruct (Z.gtb_spec (len (normalizeText text)) MAX_CHUNK_LENGTH); [lia|].
    rewrite Hget. unfold bind at 1. unfold translateShort, bind at 1.
    unfold startCall at 1.
    destruct (settle env _ _) as [body|error].
    + destruct (translations body) as [[|translatedText others]|].
      * unfold ret. intros [= <- <-]. cbn [theCache calls].
        repeat split. now exists msgInvalidResponse.
      * destruct (truthy translatedText).
        -- unfold bind, cacheSet, ret. discriminate.
        -- unfold ret. intros [= <- <-]. cbn [theCache calls].
           repeat split. now exists msgInvalidResponse.
      * unfold ret. intros [= <- <-]. cbn [theCache calls].
        repeat split. now exists msgInvalidResponse.
    + unfold ret. intros [= <- <-]. cbn [theCache calls].
      repeat split. now exists (message error).
Qed.

Lemma keyed_translate_rejections_witness :
  let env := {| upstream := fun _ _ _ =>
                  Success {| translations := Some [] |} |} in
  translate env Scenes.noLongStart Scenes.noLongResume (str "en") (str "es")
    [SP; SP] initialWorld
  = (Some (Thrown msgEmptyText), initialWorld)
  /\ exists m w',
       translate env Scenes.noLongStart Scenes.noLongResume (str "en")
         (str "es") (str "Hola") initialWorld
       = (Some (Thrown m), w')
       /\ theCache w' = theCache initialWorld.
Proof.
  intros env.
  destruct (keyed_translate_rejections env unit Scenes.noLongStart
              Scenes.noLongResume (str "en") (str "es") [SP; SP] initialWorld)
    as [Hblank _].
  destruct (keyed_translate_rejections env unit Scenes.noLongStart
              Scenes.noLongResume (str "en") (str "es") (str "Hola")
              initialWorld) as [_ Hfail].
  split; [apply Hblank; reflexivity|].
  assert (E : translate env Scenes.noLongStart Scenes.noLongResume (str "en")
                (str "es") (str "Hola") initialWorld
              = (Some (Thrown (msgErrorPrefix ++ msgInvalidResponse)),
                 {| theCache := theCache initialWorld;
                    calls := [{| q := One (str "Hola"); source := str "es";
                                 target := str "en" |}] |}))
    by reflexivity.
  eexists. eexists. split; [exact E|].
  refine (proj1 (Hfail _ _ _ E)).
  split; [reflexivity|]. split; [vm_compute; discriminate | reflexivity].
Defined.

End KeyedTranslateEnds.

(** ** [translateMultiple] of the keyed client without a request *)

Section KeyedServed.
Import JsString Chunker Executor StateM Keyed.
Local Open Scope Z_scope.

Variables sl tl : jsstring.
Variable c : FifoCache.TranslationCache.

(** What [translateMultiple] puts in the result for a text that it can
    serve itself. *)
Local Abbreviation answer text :=
  (if truthy (normalizeText text)
   then printed (FifoCache.get (generateCacheKey sl tl (normalizeText text)) c)
   else []).

(** Blank, or short and cached with a non-empty translation. *)
Local Abbreviation served text :=
  (truthy (normalizeText text) = false
   \/ (len (normalizeText text) <= MAX_CHUNK_LENGTH
       /\ exists cached,
            FifoCache.get (generateCacheKey sl tl (normalizeText text)) c
            = Some cached
            /\ truthy cached = true)).

Lemma sortText_served st done rest index text :
  served text ->
  finalTranslations st = done ++ None :: rest ->
  List.length done = index ->
  sortText sl tl c st (index, text)
  = {| finalTranslations := done ++ Some (answer text) :: rest;
       batchTexts := batchTexts st; batchIndices := batchIndices st;
       longTexts := longTexts st |}.
Proof.
  intros Hs Hfinal Hindex. unfold sortText. subst index.
  destruct Hs as [Hblank | (Hlen & cached & Hget & Htruthy)].
  - rewrite Hblank. cbn [negb]. rewrite Hfinal, assign_middle. reflexivity.
  - destruct (truthy (normalizeText text)) eqn:Hne; cbn [negb].
    + destruct (Z.gtb_spec (len (normalizeText text)) MAX_CHUNK_LENGTH); [lia|].
      rewrite Hget, Htruthy, Hfinal, assign_middle. reflexivity.
    + rewrite Hfinal, assign_middle. reflexivity.
Qed.

Lemma sort_all_served texts : forall st done,
  Forall (fun text => served text) texts ->
  finalTranslations st = done ++ repeat None (List.length texts) ->
  fold_left (sortText sl tl c)
    (combine (seq (List.length done) (List.length texts)) texts) st
  = {| finalTranslations := done ++ map (fun text => Some (answer text)) texts;
       batchTexts := batchTexts st; batchIndices := batchIndices st;
       longTexts := longTexts st |}.
Proof.
  induction texts as [|text texts IH]; intros st done Hall Hfinal.
  - simpl in *. rewrite app_nil_r in *. destruct st. simpl in *. now subst.
  - inversion Hall as [|? ? Hhead Hrest]; subst.
    cbn [List.length seq combine fold_left map repeat] in *.
    rewrite (sortText_served st done (repeat None (List.length texts))
               (List.length done) text Hhead Hfinal eq_refl).
    replace (S (List.length done))
      with (List.length (done ++ [Some (answer text)]))
      by (rewrite length_app; simpl; lia).
    rewrite IH; [|exact Hrest|].
    + cbn [batchTexts batchIndices longTexts]. now rewrite <- app_assoc.
    + cbn [finalTranslations]. now rewrite <- app_assoc.
Qed.

End KeyedServed.

Section KeyedServedTexts.
Import JsString Chunker Executor StateM Keyed.
Local Open Scope Z_scope.

(** X27.  [translateMultiple] of the keyed client makes no request when it
    needs none: if every text is blank, or short and cached with a non-empty
    translation, the result holds the empty string for the blank texts and
    the cached translation for the others, in the order of the texts, and
    neither the cache nor the list of invocations changes. *)
Theorem translateMultiple_serves_blank_and_cached_texts (env : Env)
  (Pending : Type)
  (translateStart : jsstring -> jsstring -> jsstring -> M World Pending)
  (translateResume : Pending -> M World (Result jsstring))
  (texts : list jsstring) (tl sl : jsstring) (w : World) :
  Forall (fun text =>
            truthy (normalizeText text) = false
            \/ (len (normalizeText text) <= MAX_CHUNK_LENGTH
                /\ exists cached,
                     FifoCache.get
                       (generateCacheKey sl tl (normalizeText text))
                       (theCache w)
                     = Some cached
                     /\ truthy cached = true)) texts ->
  translateMultiple env translateStart translateResume texts tl sl w
  = (Ok (map (fun text =>
                Some (if truthy (normalizeText text)
                      then printed
                             (FifoCache.get
                                (generateCacheKey sl tl (normalizeText text))
                                (theCache w))
                      else [])) texts),
     w).
Proof.
  intros Hall. unfold translateMultiple.
  destruct texts as [|text texts'] eqn:Et; [reflexivity|]. rewrite <- Et in *.
  pose proof (sort_all_served sl tl (theCache w) texts
                {| finalTranslations := repeat None (List.length texts);
                   batchTexts := []; batchIndices := []; longTexts := [] |}
                [] Hall eq_refl) as Hsort.
  change (List.length (@nil (option jsstring))) with 0%nat in Hsort.
  rewrite Hsort. reflexivity.
Qed.

Lemma translateMultiple_serves_blank_and_cached_texts_witness :
  let w := {| theCache :=
                FifoCache.set (generateCacheKey (str "es") (str "en") (str "Hola"))
                  (str "Hello") (FifoCache.new MAX_CACHE_SIZE);
              calls := [] |} in
  translateMultiple Scenes.twoTranslations Scenes.noLongStart
    Scenes.noLongResume [str " Hola "; [SP]] (str "en") (str "es") w
  = (Ok [Some (str "Hello"); Some []], w).
Proof.
  intros w.
  rewrite (translateMultiple_serves_blank_and_cached_texts
             Scenes.twoTranslations unit Scenes.noLongStart Scenes.noLongResume
             [str " Hola "; [SP]] (str "en") (str "es") w);
    [reflexivity|].
  constructor; [|constructor; [|constructor]].
  - right. split; [vm_compute; discriminate|].
    exists (str "Hello"). split; reflexivity.
  - left. reflexivity.
Defined.

End KeyedServedTexts.

Section KeyedBatchRejected.
Import JsString Chunker Executor StateM Keyed.
Local Open Scope Z_scope.

(** X28.  A rejected [translateMultiple] of the keyed client caches
    nothing.  For texts that need no splitting, a rejection comes from the
    combined call: the request failed for good, or the response did not hold
    one translation for each text sent; the message carries the prefix of
    [translateMultiple], the cache is as it was, and the one invocation made
    is the combined one. *)
Theorem rejected_translateMultiple_caches_nothing (env : Env) (Pending : Type)
  (translateStart : jsstring -> jsstring -> jsstring -> M World Pending)
  (translateResume : Pending -> M World (Result jsstring))
  (texts : list jsstring) (tl sl m : jsstring) (w w' : World) :
  Forall (fun text => len (normalizeText text) <= MAX_CHUNK_LENGTH) texts ->
  translateMultiple env translateStart translateResume texts tl sl w
  = (Thrown m, w') ->
  theCache w' = theCache w
  /\ (exists m', m = msgMultiplePrefix ++ m')
  /\ exists batch,
       calls w' = calls w ++ [{| q := Many batch; source := sl; target := tl |}]
       /\ incl batch (map normalizeText texts).
Proof.
  intros Hall.
  destruct texts as [|text texts'] eqn:Et; [discriminate|]. rewrite <- Et in *.
  rewrite (translateMultiple_not_long env Pending translateStart
             translateResume texts tl sl w) by (congruence || exact Hall).
  destruct (sort_not_long sl tl (theCache w) texts 0
              {| finalTranslations := repeat None (List.length texts);
                 batchTexts := []; batchIndices := []; longTexts := [] |} Hall)
    as [_ Hincl].
  cbn [batchTexts app] in Hincl.
  set (st := fold_left _ _ _) in *.
  unfold translateBatch. destruct (batchTexts st) as [|t ts] eqn:Eb;
    [discriminate|].
  unfold bind at 1. unfold startCall at 1.
  destruct (settle env _ _) as [body|error].
  - destruct (negb _).
    + unfold ret. intros [= <- <-]. cbn [theCache calls].
      split; [reflexivity|]. split; [now exists msgIncomplete|].
      exists (t :: ts). split; [reflexivity | exact Hincl].
    + unfold bind. destruct (distributeAll _ _ _ _ _). discriminate.
  - unfold ret. intros [= <- <-]. cbn [theCache calls].
    split; [reflexivity|]. split; [now exists (message error)|].
    exists (t :: ts). split; [reflexivity | exact Hincl].
Qed.

Lemma rejected_translateMultiple_caches_nothing_witness :
  exists m w',
    translateMultiple Scenes.twoTranslations Scenes.noLongStart
      Scenes.noLongResume [str "uno"; str "dos"; str "tres"] (str "en")
      (str "es") initialWorld
    = (Thrown m, w')
    /\ theCache w' = theCache initialWorld.
Proof.
  assert (E : translateMultiple Scenes.twoTranslations Scenes.noLongStart
                Scenes.noLongResume [str "uno"; str "dos"; str "tres"]
                (str "en") (str "es") initialWorld
              = (Thrown (msgMultiplePrefix ++ msgIncomplete),
                 {| theCache := theCache initialWorld;
                    calls := [{| q := Many [str "uno"; str "dos"; str "tres"];
                                 source := str "es"; target := str "en" |}] |}))
    by reflexivity.
  eexists. eexists. split; [exact E|].
  refine (proj1 (rejected_translateMultiple_caches_nothing
                   Scenes.twoTranslations unit Scenes.noLongStart
                   Scenes.noLongResume [str "uno"; str "dos"; str "tres"]
                   (str "en") (str "es") _ initialWorld _ _ E)).
  repeat constructor; vm_compute; discriminate.
Defined.

End KeyedBatchRejected.

(** ** The requests of a long text in the free client *)

Section FreeLongText.
Import JsString Chunker Executor StateM Free.
Local Open Scope Z_scope.

Variable env : Env.
Variables targetLang sourceLang : jsstring.

Local Abbreviation paramsOf chunk :=
  {| source := sourceLang; target := targetLang; q := chunk |}.
Local Abbreviation absent c chunk :=
  (JsMap.get (generateCacheKey sourceLang targetLang chunk) (TtlCache.cache c)
   = None).

Lemma chunkStart_absent chunk w :
  absent (theCache w) chunk ->
  theCache (snd (chunkStart env targetLang sourceLang chunk w)) = theCache w
  /\ calls (snd (chunkStart env targetLang sourceLang chunk w))
     = calls w ++ [paramsOf chunk].
Proof.
  intros Hget. unfold chunkStart, bind, cacheGet, dateNow, bind.
  cbn [theCache ticks calls]. unfold TtlCache.get. rewrite Hget.
  split; reflexivity.
Qed.

Lemma chunkStarts_absent chunks : forall w,
  Forall (fun chunk => absent (theCache w) chunk) chunks ->
  theCache (snd (mapM (chunkStart env targetLang sourceLang) chunks w))
  = theCache w
  /\ calls (snd (mapM (chunkStart env targetLang sourceLang) chunks w))
     = calls w ++ map (fun chunk => paramsOf chunk) chunks.
Proof.
  induction chunks as [|chunk rest IH]; intros w Hall.
  - simpl. now rewrite app_nil_r.
  - inversion Hall as [|? ? Hhead Hrest]; subst.
    cbn [mapM map]. unfold bind.
    destruct (chunkStart_absent chunk w Hhead) as [Hc Hk].
    destruct (chunkStart env targetLang sourceLang chunk w) as [task w1].
    cbn [snd] in Hc, Hk. rewrite <- Hc in Hrest.
    destruct (IH w1 Hrest) as [Hc' Hk'].
    destruct (mapM _ rest w1) as [tasks w2]. cbn [snd ret] in *.
    split; [congruence|]. rewrite Hk', Hk, <- app_assoc. reflexivity.
Qed.

End FreeLongText.

Section FreeLongTextRequests.
Import JsString Chunker Executor StateM Free.
Local Open Scope Z_scope.

(** X29.  The requests of a long text in the free client.  When the
    normalised text is longer than [MAX_TEXT_LENGTH] and neither it nor any
    of its chunks is in the cache, [translate] invokes [callTranslationAPI]
    once for every chunk of [splitText], in the order of the chunks and with
    the chunk as [q]; a chunk that occurs twice is requested twice. *)
Theorem translate_requests_every_uncached_chunk (env : Env)
  (targetLang sourceLang text : jsstring) (w : World) :
  len (normalizeText text) > MAX_TEXT_LENGTH ->
  JsMap.get (generateCacheKey sourceLang targetLang (normalizeText text))
    (TtlCache.cache (theCache w)) = None ->
  Forall (fun chunk =>
            JsMap.get (generateCacheKey sourceLang targetLang chunk)
              (TtlCache.cache (theCache w)) = None)
    (splitText (normalizeText text) MAX_TEXT_LENGTH) ->
  calls (snd (translate env targetLang sourceLang text w))
  = calls w
    ++ map (fun chunk => {| source := sourceLang; target := targetLang;
                            q := chunk |})
         (splitText (normalizeText text) MAX_TEXT_LENGTH).
Proof.
  intros Hlong Hget Hall.
  assert (Htruthy : truthy (normalizeText text) = true).
  { destruct (normalizeText text); [|reflexivity].
    unfold MAX_TEXT_LENGTH, len in Hlong. simpl List.length in Hlong. lia. }
  unfold translate. unfold bind at 1.
  destruct (translateStart env targetLang sourceLang text w) as [p w1] eqn:Es.
  rewrite calls_translateResume.
  change w1 with (snd (p, w1)). rewrite <- Es. clear Es.
  unfold translateStart. rewrite Htruthy. cbn [negb].
  unfold bind at 1. unfold cacheGet, dateNow, bind.
  cbn [theCache ticks calls]. unfold TtlCache.get. rewrite Hget.
  unfold startAfterMiss.
  destruct (Z.gtb_spec (len (normalizeText text)) MAX_TEXT_LENGTH); [|lia].
  unfold bind.
  destruct (chunkStarts_absent env targetLang sourceLang
              (splitText (normalizeText text) MAX_TEXT_LENGTH)
              w Hall) as [_ Hk].
  destruct (mapM _ _ _) as [tasks w2]. exact Hk.
Qed.

Lemma translate_requests_every_uncached_chunk_witness :
  let sentence := List.concat (repeat (str "hola ") 599) ++ str "fin. " in
  let text := sentence ++ sentence in
  List.length
    (calls (snd (translate Scenes.echo (str "en") (str "es") text
                   initialWorld)))
  = 2%nat.
Proof.
  intros sentence text.
  rewrite (translate_requests_every_uncached_chunk Scenes.echo (str "en")
             (str "es") text initialWorld).
  - vm_compute. reflexivity.
  - vm_compute. reflexivity.
  - reflexivity.
  - apply Forall_forall. intros chunk _. reflexivity.
Defined.

End FreeLongTextRequests.
